(** * Polynomials over generic rings: [src/gr/polynomial.c]

    A shallow embedding of FLINT's generic polynomial ring (the ring
    "polynomials over R" for an arbitrary [gr] context R).  The functions of
    [polynomial.c] are translated one by one.  They work on pointers, so the
    embedding keeps a store of objects and threads it through every call; a
    call that dereferences something that is not there has no result.

    The functions that [polynomial.c] calls but does not define ([gr_poly_*],
    [gr_set_other], the predicates of the base ring, ...) are the fields of
    the interface records [gr_lib] and [gr_lib_more]; [Module FmpzLib] and
    [fmpz_more] further down implement them for the integers. *)

From Stdlib Require Import ZArith Lia.
From Stdlib Require QArith.
From stdpp Require Import base option list gmap strings.

Local Open Scope Z_scope.

(** ** Status codes, truth values, machine constants *)

(** Modelled from the spec: [gr.h] is not part of the sources.  Section 3
    names the three outcomes and section 9 says that they are integer codes
    accumulated with bitwise OR. *)
Definition status : Type := Z.
Definition GR_SUCCESS : status := 0.
Definition GR_DOMAIN : status := 1.
Definition GR_UNABLE : status := 2.

(** [status |= s] *)
Definition status_or (a b : status) : status := Z.lor a b.
Infix "|'" := status_or (at level 50, left associativity).

(** Modelled from the spec: the three-valued answer of a predicate. *)
Inductive truth_t : Type := T_TRUE | T_FALSE | T_UNKNOWN.

#[global] Instance truth_t_eq_dec : EqDecision truth_t.
Proof. solve_decision. Defined.

(** Modelled from the spec: [WORD_MAX] is the largest [slong]; it stands for
    "no degree ceiling" (64-bit limbs). *)
Definition WORD_MAX : Z := 2 ^ 63 - 1.

(** Pointers to objects, and pointers to ring contexts. *)
Definition ptr : Type := positive.
Definition gr_ctx_t : Type := positive.

(** ** Ring contexts *)

(** Modelled from the spec: the tag of a ring kind.  Only the kinds that
    [polynomial.c] tests for are named; every other kind is [GR_CTX_OTHER]. *)
Inductive gr_which_structure : Type :=
| GR_CTX_GR_POLY
| GR_CTX_FMPZ_POLY
| GR_CTX_FMPQ_POLY
| GR_CTX_GR_VEC
| GR_CTX_OTHER (tag : nat).

#[global] Instance gr_which_structure_eq_dec : EqDecision gr_which_structure.
Proof. solve_decision. Defined.

(** The generator name is a [char *]: either the address of the static
    string [default_var], or NULL, or a heap block with its contents. *)
Inductive char_ptr : Type :=
| default_var
| NULL
| heap_str (s : string).

#[global] Instance char_ptr_eq_dec : EqDecision char_ptr.
Proof. solve_decision. Defined.

(** [static const char * default_var = "x";] *)
Definition default_var_contents : string := "x".

(** The characters a [char *] points to, when it points to any. *)
Definition c_str (p : char_ptr) : option string :=
  match p with
  | default_var => Some default_var_contents
  | NULL => None
  | heap_str s => Some s
  end.

(** [polynomial_ctx_t]: what [POLYNOMIAL_CTX(ctx)] points to. *)
Record polynomial_ctx_t : Type := mk_polynomial_ctx {
  base_ring : gr_ctx_t;
  degree_limit : Z;
  var : char_ptr
}.

(** Modelled from the spec: [vector_ctx_t], of which only [base_ring] is read. *)
Record vector_ctx_t : Type := mk_vector_ctx {
  vec_base_ring : gr_ctx_t
}.

(** The [data] bytes of a context, read as the structure its kind keeps there. *)
Inductive ctx_data : Type :=
| data_polynomial (p : polynomial_ctx_t)
| data_vector (v : vector_ctx_t)
| data_none.

(** Which static method table [ctx->methods] points to. *)
Inductive method_table_ref : Type :=
| tab_gr_poly_methods
| tab_other (n : nat)
| tab_unset.

Record gr_ctx_struct : Type := mk_gr_ctx {
  which_ring : gr_which_structure;
  sizeof_elem : Z;
  size_limit : Z;
  methods : method_table_ref;
  data : ctx_data
}.

(** The contexts that exist, by address. *)
Abbreviation ctx_store := (gmap gr_ctx_t gr_ctx_struct).

(** [POLYNOMIAL_CTX(ctx)]: defined when [ctx] keeps a [polynomial_ctx_t]. *)
Definition POLYNOMIAL_CTX (G : ctx_store) (ctx : gr_ctx_t) : option polynomial_ctx_t :=
  match G !! ctx with
  | Some c => match data c with data_polynomial p => Some p | _ => None end
  | None => None
  end.

(** [POLYNOMIAL_ELEM_CTX(ctx)] *)
Definition POLYNOMIAL_ELEM_CTX (G : ctx_store) (ctx : gr_ctx_t) : option gr_ctx_t :=
  base_ring <$> POLYNOMIAL_CTX G ctx.

(** [VECTOR_CTX(ctx)] *)
Definition VECTOR_CTX (G : ctx_store) (ctx : gr_ctx_t) : option vector_ctx_t :=
  match G !! ctx with
  | Some c => match data c with data_vector v => Some v | _ => None end
  | None => None
  end.

(** [!strcmp(a, b)] on two [char *]: defined when both point to characters. *)
Definition strcmp_eq (a b : char_ptr) : option bool :=
  sa ← c_str a; sb ← c_str b; Some (bool_decide (sa = sb)).

(** ** Objects in memory *)

(** What a pointer can point to.  [E] is the element type of the base ring of
    the polynomial ring at hand, [X] the representation of every foreign
    element. *)
Inductive cell (E X : Type) : Type :=
| CPoly (coeffs : list E)
| CElem (e : E)
| CPolyOther (coeffs : list X)
| CVec (entries : list X)
| CForeign (x : X).

Arguments CPoly {E X} coeffs.
Arguments CElem {E X} e.
Arguments CPolyOther {E X} coeffs.
Arguments CVec {E X} entries.
Arguments CForeign {E X} x.

(** A [gr_srcptr] to a base-ring scalar as [polynomial_div] passes it: either
    an object of its own ([GR_TMP_INIT]) or the coefficient array of a
    polynomial ([y->coeffs]). *)
Inductive scalar_ref : Type :=
| at_elem (t : ptr)
| at_coeffs (y : ptr).

(** ** The interface of the collaborating code *)

(** Modelled from the spec: the routines [polynomial.c] calls without defining
    them (the base ring's operations and the [gr_poly] layer, which the spec
    (1) names as external collaborators).  Each is taken as a parameter: a
    field gives the status and the values a routine computes from the values
    of its inputs.  For [gr_set], [gr_poly_div_scalar] and [gr_poly_divrem],
    whose callers here hand them a result that holds something and go on
    after a failure, a second field gives what a call that fails leaves in
    its result, from what the result held and the inputs: the routine may
    have returned before it wrote anything, or have written a part.  What a
    failed long division leaves in the quotient does not depend on what the
    remainder held, and the other way round.  The routines themselves, which
    take pointers, are built from these fields below.  Native integers
    ([ulong], [slong]) and [fmpz] are [Z]; [fmpq] is [Q]. *)
Record gr_lib : Type := mk_gr_lib {
  E : Type;
  X : Type;
  (* predicates of a context, through the generic dispatch *)
  gr_ctx_is_ring : gr_ctx_t → truth_t;
  gr_ctx_is_commutative_ring : gr_ctx_t → truth_t;
  gr_ctx_is_integral_domain : gr_ctx_t → truth_t;
  gr_ctx_is_unique_factorization_domain : gr_ctx_t → truth_t;
  gr_ctx_is_rational_vector_space : gr_ctx_t → truth_t;
  gr_ctx_is_real_vector_space : gr_ctx_t → truth_t;
  gr_ctx_is_complex_vector_space : gr_ctx_t → truth_t;
  gr_ctx_is_threadsafe : gr_ctx_t → truth_t;
  (* elements of the base ring *)
  gr_init_val : gr_ctx_t → E;
  gr_set_val : gr_ctx_t → E → status * E;
  gr_set_other_val : gr_ctx_t → gr_ctx_t → cell E X → status * E;
  (* polynomials over the base ring *)
  _gr_poly_normalise_val : gr_ctx_t → list E → list E;
  gr_poly_is_zero_val : gr_ctx_t → list E → truth_t;
  gr_poly_set_val : gr_ctx_t → list E → status * list E;
  gr_poly_set_si_val : gr_ctx_t → Z → status * list E;
  gr_poly_set_ui_val : gr_ctx_t → Z → status * list E;
  gr_poly_set_fmpz_val : gr_ctx_t → Z → status * list E;
  gr_poly_set_fmpq_val : gr_ctx_t → QArith_base.Q → status * list E;
  gr_poly_set_scalar_val : gr_ctx_t → E → status * list E;
  gr_poly_set_gr_poly_other_val : gr_ctx_t → gr_ctx_t → cell E X → status * list E;
  gr_poly_set_fmpz_poly_val : gr_ctx_t → cell E X → status * list E;
  gr_poly_set_fmpq_poly_val : gr_ctx_t → cell E X → status * list E;
  gr_poly_add_val : gr_ctx_t → list E → list E → status * list E;
  gr_poly_add_ui_val : gr_ctx_t → list E → Z → status * list E;
  gr_poly_add_si_val : gr_ctx_t → list E → Z → status * list E;
  gr_poly_add_fmpz_val : gr_ctx_t → list E → Z → status * list E;
  gr_poly_add_fmpq_val : gr_ctx_t → list E → QArith_base.Q → status * list E;
  gr_poly_sub_val : gr_ctx_t → list E → list E → status * list E;
  gr_poly_sub_ui_val : gr_ctx_t → list E → Z → status * list E;
  gr_poly_sub_si_val : gr_ctx_t → list E → Z → status * list E;
  gr_poly_sub_fmpz_val : gr_ctx_t → list E → Z → status * list E;
  gr_poly_sub_fmpq_val : gr_ctx_t → list E → QArith_base.Q → status * list E;
  gr_poly_mul_val : gr_ctx_t → list E → list E → status * list E;
  gr_poly_mul_ui_val : gr_ctx_t → list E → Z → status * list E;
  gr_poly_mul_si_val : gr_ctx_t → list E → Z → status * list E;
  gr_poly_mul_fmpz_val : gr_ctx_t → list E → Z → status * list E;
  gr_poly_mul_fmpq_val : gr_ctx_t → list E → QArith_base.Q → status * list E;
  gr_poly_mul_scalar_val : gr_ctx_t → list E → E → status * list E;
  gr_poly_scalar_mul_val : gr_ctx_t → E → list E → status * list E;
  gr_poly_div_scalar_val : gr_ctx_t → list E → E → status * list E;
  gr_poly_divrem_val : gr_ctx_t → list E → list E → status * (list E * list E);
  gr_poly_pow_fmpz_val : gr_ctx_t → list E → Z → status * list E;
  (* what a failed call leaves in a result that held [old]: old, inputs *)
  gr_set_failed_val : gr_ctx_t → E → E → E;
  gr_poly_div_scalar_failed_val : gr_ctx_t → list E → list E → E → list E;
  gr_poly_divrem_failed_quot_val : gr_ctx_t → list E → list E → list E → list E;
  gr_poly_divrem_failed_rem_val : gr_ctx_t → list E → list E → list E → list E
}.

(** ** The store and its monad *)

(** The objects that exist, by address. *)
Abbreviation heap L := (gmap ptr (cell (E L) (X L))).

Section store.
Context (L : gr_lib).

(** A computation on the store; [None] is a run that has no meaning in C (a
    pointer to nothing, an object read at the wrong type). *)
Definition M (A : Type) : Type := heap L → option (A * heap L).

#[global] Instance M_ret : MRet M := λ A a σ, Some (a, σ).
#[global] Instance M_bind : MBind M :=
  λ A B f m σ, match m σ with Some (a, σ') => f a σ' | None => None end.

Definition undefined {A} : M A := λ _, None.
Definition lift_opt {A} (o : option A) : M A := λ σ, (λ a, (a, σ)) <$> o.

Definition read_cell (p : ptr) : M (cell (E L) (X L)) := λ σ, (λ c, (c, σ)) <$> σ !! p.

Definition read_poly (p : ptr) : M (list (E L)) :=
  c ← read_cell p; match c with CPoly cs => mret cs | _ => undefined end.

Definition read_elem (p : ptr) : M (E L) :=
  c ← read_cell p; match c with CElem e => mret e | _ => undefined end.

Definition store_cell (p : ptr) (c : cell (E L) (X L)) : M unit :=
  λ σ, Some (tt, <[p := c]> σ).

(** A polynomial (an element) is stored over a polynomial (an element). *)
Definition write_poly (p : ptr) (cs : list (E L)) : M unit :=
  read_poly p;; store_cell p (CPoly cs).

Definition write_elem (p : ptr) (e : E L) : M unit :=
  read_elem p;; store_cell p (CElem e).

(** A local variable: a new object at an address nothing else has. *)
Definition alloc (c : cell (E L) (X L)) : M ptr :=
  λ σ, let p := fresh (dom σ) in Some (p, <[p := c]> σ).

Definition free (p : ptr) : M unit := λ σ, Some (tt, delete p σ).

(** [poly->length] *)
Definition poly_length (p : ptr) : M Z := cs ← read_poly p; mret (Z.of_nat (length cs)).

(** What a scalar argument points to while [res] is being written.  Modelled
    from the spec (4.4, 9): a scalar that lives in the coefficient array of
    the result cannot be used, it has to be copied first. *)
Definition deref_scalar (res : ptr) (c : scalar_ref) : M (E L) :=
  match c with
  | at_elem t => read_elem t
  | at_coeffs y =>
      if decide (y = res) then undefined
      else cs ← read_poly y; lift_opt (head cs)
  end.

(** ** The routines of the collaborating code, on pointers *)

(** Modelled from the spec (3, 9): a routine of the collaborating code reads
    the values of its inputs, computes, and then stores its result in an
    existing object of the right type, so that the result may be one of the
    inputs; it reports its status and touches nothing else.  What [gr_set],
    [gr_poly_div_scalar] and [gr_poly_divrem] store after a failure is what
    the interface says a failed call leaves of what the result held.
    [res = f(a)], [res = f(a, b)], [res = constant]: *)
Definition poly_op1 (f : list (E L) → status * list (E L)) (res a : ptr) : M status :=
  va ← read_poly a;
  write_poly res (f va).2;; mret (f va).1.

Definition poly_op2 (f : list (E L) → list (E L) → status * list (E L))
    (res a b : ptr) : M status :=
  va ← read_poly a; vb ← read_poly b;
  write_poly res (f va vb).2;; mret (f va vb).1.

Definition poly_set_const (r : status * list (E L)) (res : ptr) : M status :=
  write_poly res r.2;; mret r.1.

(** Modelled from the spec (3): a polynomial is created zero, as a local
    object, and destroyed by an explicit clear. *)
Definition gr_poly_init (c : gr_ctx_t) : M ptr := alloc (CPoly []).
Definition gr_poly_clear (p : ptr) (c : gr_ctx_t) : M unit := read_poly p;; free p.

(** [GR_TMP_INIT(t, ctx)] and [GR_TMP_CLEAR(t, ctx)] *)
Definition GR_TMP_INIT (c : gr_ctx_t) : M ptr := alloc (CElem (gr_init_val L c)).
Definition GR_TMP_CLEAR (t : ptr) (c : gr_ctx_t) : M unit := read_elem t;; free t.

(** The status of a call and what the call leaves in its result: the value
    [r.2] it computed when it succeeded, and [failed] otherwise. *)
Definition call_result {A} (r : status * A) (failed : A) : status * A :=
  (r.1, if decide (r.1 = GR_SUCCESS) then r.2 else failed).

(** [gr_set(t, src, ctx)]: the element [src] points to is copied into [t]. *)
Definition gr_set_result (c : gr_ctx_t) (old v : E L) : status * E L :=
  call_result (gr_set_val L c v) (gr_set_failed_val L c old v).

Definition gr_set (t : ptr) (src : scalar_ref) (c : gr_ctx_t) : M status :=
  v ← deref_scalar t src; old ← read_elem t;
  write_elem t (gr_set_result c old v).2;; mret (gr_set_result c old v).1.

Definition gr_poly_set (res x : ptr) (c : gr_ctx_t) : M status :=
  poly_op1 (gr_poly_set_val L c) res x.

Definition gr_poly_set_scalar (res x : ptr) (c : gr_ctx_t) : M status :=
  v ← read_elem x; poly_set_const (gr_poly_set_scalar_val L c v) res.

(** The source polynomial is whatever object [x] is; the routine reads it
    with the element context it is given. *)
Definition gr_poly_set_gr_poly_other (res x : ptr) (x_elem_ctx c : gr_ctx_t) : M status :=
  v ← read_cell x; poly_set_const (gr_poly_set_gr_poly_other_val L x_elem_ctx c v) res.
Definition gr_poly_set_fmpz_poly (res x : ptr) (c : gr_ctx_t) : M status :=
  v ← read_cell x; poly_set_const (gr_poly_set_fmpz_poly_val L c v) res.
Definition gr_poly_set_fmpq_poly (res x : ptr) (c : gr_ctx_t) : M status :=
  v ← read_cell x; poly_set_const (gr_poly_set_fmpq_poly_val L c v) res.

Definition gr_poly_mul (res a b : ptr) (c : gr_ctx_t) : M status :=
  poly_op2 (gr_poly_mul_val L c) res a b.


(** [res = poly * x], [res = x * poly], [res = poly / x] for a scalar [x] of
    the base ring. *)
Definition gr_poly_mul_scalar (res poly : ptr) (x : scalar_ref) (c : gr_ctx_t) : M status :=
  p ← read_poly poly; v ← deref_scalar res x;
  poly_set_const (gr_poly_mul_scalar_val L c p v) res.
Definition gr_poly_scalar_mul (res : ptr) (x : scalar_ref) (poly : ptr) (c : gr_ctx_t) : M status :=
  p ← read_poly poly; v ← deref_scalar res x;
  poly_set_const (gr_poly_scalar_mul_val L c v p) res.

(** [res = poly / x]: after a division that fails, [res] holds what the
    failed call leaves of what it held. *)
Definition gr_poly_div_scalar_result (c : gr_ctx_t) (old p : list (E L)) (v : E L)
    : status * list (E L) :=
  call_result (gr_poly_div_scalar_val L c p v) (gr_poly_div_scalar_failed_val L c old p v).

Definition gr_poly_div_scalar (res poly : ptr) (x : scalar_ref) (c : gr_ctx_t) : M status :=
  p ← read_poly poly; v ← deref_scalar res x; old ← read_poly res;
  poly_set_const (gr_poly_div_scalar_result c old p v) res.

(** [gr_poly_divrem(Q, R, A, B, ctx)]: both inputs are read; a division that
    succeeds stores the quotient and the remainder; after one that fails, [Q]
    and [R] hold what the failed call leaves of what they held ([q0], [r0]). *)
Definition gr_poly_divrem_result (c : gr_ctx_t) (q0 r0 a b : list (E L))
    : status * (list (E L) * list (E L)) :=
  call_result (gr_poly_divrem_val L c a b)
    (gr_poly_divrem_failed_quot_val L c q0 a b, gr_poly_divrem_failed_rem_val L c r0 a b).

Definition gr_poly_divrem (Q R A B : ptr) (c : gr_ctx_t) : M status :=
  a ← read_poly A; b ← read_poly B;
  q0 ← read_poly Q; r0 ← read_poly R;
  let r := gr_poly_divrem_result c q0 r0 a b in
  write_poly Q r.2.1;; write_poly R r.2.2;; mret r.1.

Definition gr_poly_is_zero (p : ptr) (c : gr_ctx_t) : M truth_t :=
  v ← read_poly p; mret (gr_poly_is_zero_val L c v).

Definition gr_poly_pow_fmpz (res poly : ptr) (e : Z) (c : gr_ctx_t) : M status :=
  poly_op1 (λ p, gr_poly_pow_fmpz_val L c p e) res poly.

End store.

Arguments undefined {L A}.
Arguments lift_opt {L A} o.

(** Modelled from the spec (4.5): the arbitrary-precision integer equal to a
    signed machine integer. *)
Definition fmpz_init_set_si (exp : Z) : Z := exp.

(** ** The polynomial ring: [polynomial.c] *)

Section polynomial.
Context (L : gr_lib) (G : ctx_store).

(** [POLYNOMIAL_ELEM_CTX(ctx)] and [POLYNOMIAL_CTX(ctx)] inside a computation. *)
Definition elem_ctx (ctx : gr_ctx_t) : M L gr_ctx_t :=
  lift_opt (POLYNOMIAL_ELEM_CTX G ctx).
Definition poly_ctx (ctx : gr_ctx_t) : M L polynomial_ctx_t :=
  lift_opt (POLYNOMIAL_CTX G ctx).

(** [gr_poly_t t; polynomial_init(t, ctx);] *)
Definition polynomial_init (ctx : gr_ctx_t) : M L ptr :=
  c ← elem_ctx ctx; gr_poly_init L c.

Definition polynomial_clear (res : ptr) (ctx : gr_ctx_t) : M L unit :=
  c ← elem_ctx ctx; gr_poly_clear L res c.

(** *** Predicates of the context *)

Definition polynomial_ctx_is_ring (ctx : gr_ctx_t) : option truth_t :=
  gr_ctx_is_ring L <$> POLYNOMIAL_ELEM_CTX G ctx.
Definition polynomial_ctx_is_commutative_ring (ctx : gr_ctx_t) : option truth_t :=
  gr_ctx_is_commutative_ring L <$> POLYNOMIAL_ELEM_CTX G ctx.
Definition polynomial_ctx_is_integral_domain (ctx : gr_ctx_t) : option truth_t :=
  gr_ctx_is_integral_domain L <$> POLYNOMIAL_ELEM_CTX G ctx.
Definition polynomial_ctx_is_unique_factorization_domain (ctx : gr_ctx_t) : option truth_t :=
  gr_ctx_is_unique_factorization_domain L <$> POLYNOMIAL_ELEM_CTX G ctx.
Definition polynomial_ctx_is_rational_vector_space (ctx : gr_ctx_t) : option truth_t :=
  gr_ctx_is_rational_vector_space L <$> POLYNOMIAL_ELEM_CTX G ctx.
Definition polynomial_ctx_is_real_vector_space (ctx : gr_ctx_t) : option truth_t :=
  gr_ctx_is_real_vector_space L <$> POLYNOMIAL_ELEM_CTX G ctx.
Definition polynomial_ctx_is_complex_vector_space (ctx : gr_ctx_t) : option truth_t :=
  gr_ctx_is_complex_vector_space L <$> POLYNOMIAL_ELEM_CTX G ctx.
Definition polynomial_ctx_is_threadsafe (ctx : gr_ctx_t) : option truth_t :=
  gr_ctx_is_threadsafe L <$> POLYNOMIAL_ELEM_CTX G ctx.

(** *** Assignment *)

Definition polynomial_set (res mat : ptr) (ctx : gr_ctx_t) : M L status :=
  c ← elem_ctx ctx; gr_poly_set L res mat c.

(** [x_ctx->which_ring] *)
Definition ctx_which_ring (x_ctx : gr_ctx_t) : option gr_which_structure :=
  which_ring <$> G !! x_ctx.

(** [!strcmp(POLYNOMIAL_CTX(x_ctx)->var, POLYNOMIAL_CTX(ctx)->var)] *)
Definition same_var (x_ctx ctx : gr_ctx_t) : option bool :=
  xp ← POLYNOMIAL_CTX G x_ctx; p ← POLYNOMIAL_CTX G ctx; strcmp_eq (var xp) (var p).

(** [x_ctx->which_ring == GR_CTX_GR_POLY && !strcmp(...)]; the right operand
    is evaluated only when the left one holds. *)
Definition is_gr_poly_with_same_var (x_ctx ctx : gr_ctx_t) : option bool :=
  k ← ctx_which_ring x_ctx;
  if decide (k = GR_CTX_GR_POLY) then same_var x_ctx ctx else Some false.

(** Modelled from the spec (1, 3): the storage primitives and the scalar
    coercion that the last branch of [polynomial_set_other] calls.  The
    coefficient array is kept as the list of its first [length] entries, so
    growing it is invisible, and the entry [gr_set_other] writes at
    [res->coeffs] is handed to [_gr_poly_set_length] explicitly;
    normalisation is the one of the base ring. *)
Definition gr_poly_fit_length (res : ptr) (len : Z) (c : gr_ctx_t) : M L unit :=
  read_poly L res;; mret tt.
Definition gr_set_other (x : ptr) (x_ctx c : gr_ctx_t) : M L (status * E L) :=
  v ← read_cell L x; mret (gr_set_other_val L x_ctx c v).
Definition _gr_poly_set_length_1 (res : ptr) (coeff0 : E L) (c : gr_ctx_t) : M L unit :=
  write_poly L res [coeff0].
Definition _gr_poly_set_length_0 (res : ptr) (c : gr_ctx_t) : M L unit :=
  write_poly L res [].
Definition _gr_poly_normalise (res : ptr) (c : gr_ctx_t) : M L unit :=
  cs ← read_poly L res; write_poly L res (_gr_poly_normalise_val L c cs).

(** [tmp->coeffs = vec->entries; tmp->length = vec->length;]: a polynomial
    header on the stack that shares the entries of the vector [x]. *)
Definition vec_as_poly (x : ptr) : M L ptr :=
  v ← read_cell L x;
  match v with CVec es => alloc L (CPolyOther es) | _ => undefined end.

Definition polynomial_set_other (res x : ptr) (x_ctx ctx : gr_ctx_t) : M L status :=
  if decide (x_ctx = ctx) then
    polynomial_set res x ctx
  else
    ectx ← elem_ctx ctx;
    if decide (x_ctx = ectx) then
      gr_poly_set_scalar L res x x_ctx
    else
      same ← lift_opt (is_gr_poly_with_same_var x_ctx ctx);
      if (same : bool) then
        xe ← elem_ctx x_ctx;
        gr_poly_set_gr_poly_other L res x xe ectx
      else
        k ← lift_opt (ctx_which_ring x_ctx);
        if decide (k = GR_CTX_FMPZ_POLY) then
          gr_poly_set_fmpz_poly L res x ectx
        else if decide (k = GR_CTX_FMPQ_POLY) then
          gr_poly_set_fmpq_poly L res x ectx
        else if decide (k = GR_CTX_GR_VEC) then
          tmp ← vec_as_poly x;
          vctx ← lift_opt (VECTOR_CTX G x_ctx);
          status ← gr_poly_set_gr_poly_other L res tmp (vec_base_ring vctx) ectx;
          free L tmp;;
          mret status
        else
          gr_poly_fit_length res 1 ectx;;
          r ← gr_set_other x x_ctx ectx;
          let status := r.1 in
          (if decide (status = GR_SUCCESS) then
             _gr_poly_set_length_1 res r.2 ectx;;
             _gr_poly_normalise res ectx
           else
             _gr_poly_set_length_0 res ectx);;
          mret status.

(** *** Addition, subtraction, multiplication *)




(** The lengths are those of objects in memory, so their sum is taken in [Z]
    (two coefficient arrays cannot hold [2^63] entries between them). *)
Definition polynomial_mul (res poly1 poly2 : ptr) (ctx : gr_ctx_t) : M L status :=
  p ← poly_ctx ctx;
  if decide (degree_limit p ≠ WORD_MAX) then
    len1 ← poly_length L poly1;
    len2 ← poly_length L poly2;
    if decide (len1 ≠ 0 ∧ len2 ≠ 0 ∧ len1 + len2 > degree_limit p) then
      mret GR_UNABLE
    else
      gr_poly_mul L res poly1 poly2 (base_ring p)
  else
    gr_poly_mul L res poly1 poly2 (base_ring p).

(** [x_ctx->which_ring == GR_CTX_GR_POLY &&
     POLYNOMIAL_ELEM_CTX(x_ctx) == POLYNOMIAL_ELEM_CTX(ctx) && !strcmp(...)] *)
Definition is_same_polynomial_ring (x_ctx ctx : gr_ctx_t) : option bool :=
  k ← ctx_which_ring x_ctx;
  if decide (k = GR_CTX_GR_POLY) then
    xe ← POLYNOMIAL_ELEM_CTX G x_ctx; e ← POLYNOMIAL_ELEM_CTX G ctx;
    if decide (xe = e) then same_var x_ctx ctx else Some false
  else Some false.

Definition polynomial_mul_other (res poly x : ptr) (x_ctx ctx : gr_ctx_t) : M L status :=
  e ← elem_ctx ctx;
  if decide (x_ctx = e) then
    gr_poly_mul_scalar L res poly (at_elem x) x_ctx
  else
    same ← lift_opt (is_same_polynomial_ring x_ctx ctx);
    if (same : bool) then
      polynomial_mul res poly x ctx
    else
      t ← polynomial_init ctx;
      status ← polynomial_set_other t x x_ctx ctx;
      status ← (if decide (status = GR_SUCCESS)
                then polynomial_mul res poly t ctx else mret status);
      polynomial_clear t ctx;;
      mret status.

Definition polynomial_other_mul (res x : ptr) (x_ctx : gr_ctx_t) (poly : ptr) (ctx : gr_ctx_t) : M L status :=
  e ← elem_ctx ctx;
  if decide (x_ctx = e) then
    gr_poly_scalar_mul L res (at_elem x) poly x_ctx
  else
    same ← lift_opt (is_same_polynomial_ring x_ctx ctx);
    if (same : bool) then
      polynomial_mul res x poly ctx
    else
      t ← polynomial_init ctx;
      status ← polynomial_set_other t x x_ctx ctx;
      status ← (if decide (status = GR_SUCCESS)
                then polynomial_mul res t poly ctx else mret status);
      polynomial_clear t ctx;;
      mret status.

(** *** Division *)

Definition polynomial_div (res x y : ptr) (ctx : gr_ctx_t) : M L status :=
  e ← elem_ctx ctx;
  ylen ← poly_length L y;
  if decide (ylen = 1) then
    if decide (res = y) then
      let status := GR_SUCCESS in
      t ← GR_TMP_INIT L e;
      s ← gr_set L t (at_coeffs y) e;
      let status := status |' s in
      s ← gr_poly_div_scalar L res x (at_elem t) e;
      let status := status |' s in
      GR_TMP_CLEAR L t e;;
      mret status
    else
      gr_poly_div_scalar L res x (at_coeffs y) e
  else
    r ← gr_poly_init L e;
    status ← gr_poly_divrem L res r x y e;
    status ← (if decide (status = GR_SUCCESS) then
                is_zero ← gr_poly_is_zero L r e;
                let status := if decide (is_zero = T_FALSE) then GR_DOMAIN else status in
                let status := if decide (is_zero = T_UNKNOWN) then GR_UNABLE else status in
                mret status
              else mret status);
    gr_poly_clear L r e;;
    mret status.

Definition polynomial_euclidean_div (res x y : ptr) (ctx : gr_ctx_t) : M L status :=
  e ← elem_ctx ctx;
  r ← gr_poly_init L e;
  status ← gr_poly_divrem L res r x y e;
  gr_poly_clear L r e;;
  mret status.

Definition polynomial_euclidean_rem (res x y : ptr) (ctx : gr_ctx_t) : M L status :=
  e ← elem_ctx ctx;
  q ← gr_poly_init L e;
  status ← gr_poly_divrem L q res x y e;
  gr_poly_clear L q e;;
  mret status.

Definition polynomial_euclidean_divrem (res1 res2 x y : ptr) (ctx : gr_ctx_t) : M L status :=
  e ← elem_ctx ctx; gr_poly_divrem L res1 res2 x y e.

(** *** Powers *)

Definition polynomial_pow_fmpz (res poly : ptr) (exp : Z) (ctx : gr_ctx_t) : M L status :=
  e ← elem_ctx ctx; gr_poly_pow_fmpz L res poly exp e.

(** [fmpz_clear(t)] frees an integer that is not an object of the store. *)
Definition polynomial_pow_si (res poly : ptr) (exp : Z) (ctx : gr_ctx_t) : M L status :=
  e ← elem_ctx ctx;
  let t := fmpz_init_set_si exp in
  status ← gr_poly_pow_fmpz L res poly t e;
  mret status.

End polynomial.

(** ** The method table of the polynomial ring kind *)

(** Modelled from the spec (4.1): the identifiers of the operations, of which
    the ones that [_gr_poly_methods_input] fills are listed. *)
Inductive gr_method : Type :=
| GR_METHOD_CTX_WRITE
| GR_METHOD_CTX_CLEAR
| GR_METHOD_CTX_IS_RING
| GR_METHOD_CTX_IS_COMMUTATIVE_RING
| GR_METHOD_CTX_IS_INTEGRAL_DOMAIN
| GR_METHOD_CTX_IS_UNIQUE_FACTORIZATION_DOMAIN
| GR_METHOD_CTX_IS_FIELD
| GR_METHOD_CTX_IS_RATIONAL_VECTOR_SPACE
| GR_METHOD_CTX_IS_REAL_VECTOR_SPACE
| GR_METHOD_CTX_IS_COMPLEX_VECTOR_SPACE
| GR_METHOD_CTX_IS_THREADSAFE
| GR_METHOD_CTX_SET_GEN_NAME
| GR_METHOD_CTX_SET_GEN_NAMES
| GR_METHOD_INIT
| GR_METHOD_CLEAR
| GR_METHOD_SWAP
| GR_METHOD_SET_SHALLOW
| GR_METHOD_RANDTEST
| GR_METHOD_WRITE
| GR_METHOD_ZERO
| GR_METHOD_ONE
| GR_METHOD_NEG_ONE
| GR_METHOD_GEN
| GR_METHOD_GENS
| GR_METHOD_GENS_RECURSIVE
| GR_METHOD_IS_ZERO
| GR_METHOD_IS_ONE
| GR_METHOD_EQUAL
| GR_METHOD_SET
| GR_METHOD_SET_UI
| GR_METHOD_SET_SI
| GR_METHOD_SET_FMPZ
| GR_METHOD_SET_FMPQ
| GR_METHOD_SET_OTHER
| GR_METHOD_SET_INTERVAL_MID_RAD
| GR_METHOD_SET_STR
| GR_METHOD_NEG
| GR_METHOD_ADD_UI
| GR_METHOD_ADD_SI
| GR_METHOD_ADD_FMPZ
| GR_METHOD_ADD_FMPQ
| GR_METHOD_ADD
| GR_METHOD_SUB_UI
| GR_METHOD_SUB_SI
| GR_METHOD_SUB_FMPZ
| GR_METHOD_SUB_FMPQ
| GR_METHOD_SUB
| GR_METHOD_MUL
| GR_METHOD_MUL_OTHER
| GR_METHOD_OTHER_MUL
| GR_METHOD_MUL_UI
| GR_METHOD_MUL_SI
| GR_METHOD_MUL_FMPZ
| GR_METHOD_MUL_FMPQ
| GR_METHOD_POW_UI
| GR_METHOD_POW_SI
| GR_METHOD_POW_FMPZ
| GR_METHOD_DIV
| GR_METHOD_DIVEXACT
| GR_METHOD_INV
| GR_METHOD_EUCLIDEAN_DIV
| GR_METHOD_EUCLIDEAN_REM
| GR_METHOD_EUCLIDEAN_DIVREM
| GR_METHOD_I
| GR_METHOD_PI
| GR_METHOD_CANONICAL_ASSOCIATE
| GR_METHOD_GCD
| GR_METHOD_FACTOR.

#[global] Instance gr_method_eq_dec : EqDecision gr_method.
Proof. solve_decision. Defined.

(** A function pointer, by the name of the function it points to. *)
Inductive gr_funcptr : Type :=
| fn_polynomial_ctx_write
| fn_polynomial_ctx_clear
| fn_polynomial_ctx_is_ring
| fn_polynomial_ctx_is_commutative_ring
| fn_polynomial_ctx_is_integral_domain
| fn_polynomial_ctx_is_unique_factorization_domain
| fn_gr_generic_ctx_predicate_false
| fn_polynomial_ctx_is_rational_vector_space
| fn_polynomial_ctx_is_real_vector_space
| fn_polynomial_ctx_is_complex_vector_space
| fn_polynomial_ctx_is_threadsafe
| fn_gr_gr_poly_ctx_set_gen_name
| fn_gr_gr_poly_ctx_set_gen_names
| fn_polynomial_init
| fn_polynomial_clear
| fn_polynomial_swap
| fn_polynomial_set_shallow
| fn_polynomial_randtest
| fn_polynomial_write
| fn_polynomial_zero
| fn_polynomial_one
| fn_polynomial_neg_one
| fn_polynomial_gen
| fn_gr_generic_gens_single
| fn_polynomial_gens_recursive
| fn_polynomial_is_zero
| fn_polynomial_is_one
| fn_polynomial_equal
| fn_polynomial_set
| fn_polynomial_set_ui
| fn_polynomial_set_si
| fn_polynomial_set_fmpz
| fn_polynomial_set_fmpq
| fn_polynomial_set_other
| fn_polynomial_set_interval_mid_rad
| fn_gr_generic_set_str_balance_additions
| fn_polynomial_neg
| fn_polynomial_add_ui
| fn_polynomial_add_si
| fn_polynomial_add_fmpz
| fn_polynomial_add_fmpq
| fn_polynomial_add
| fn_polynomial_sub_ui
| fn_polynomial_sub_si
| fn_polynomial_sub_fmpz
| fn_polynomial_sub_fmpq
| fn_polynomial_sub
| fn_polynomial_mul
| fn_polynomial_mul_other
| fn_polynomial_other_mul
| fn_polynomial_mul_ui
| fn_polynomial_mul_si
| fn_polynomial_mul_fmpz
| fn_polynomial_mul_fmpq
| fn_polynomial_pow_ui
| fn_polynomial_pow_si
| fn_polynomial_pow_fmpz
| fn_polynomial_div
| fn_polynomial_divexact
| fn_polynomial_inv
| fn_polynomial_euclidean_div
| fn_polynomial_euclidean_rem
| fn_polynomial_euclidean_divrem
| fn_polynomial_i
| fn_polynomial_pi
| fn_polynomial_canonical_associate
| fn_polynomial_gcd
| fn_polynomial_factor.

(** [gr_method_tab_input _gr_poly_methods_input[]], without the entry
    [{0, NULL}] that ends it. *)
Definition _gr_poly_methods_input : list (gr_method * gr_funcptr) :=
  [
   (GR_METHOD_CTX_WRITE, fn_polynomial_ctx_write);
   (GR_METHOD_CTX_CLEAR, fn_polynomial_ctx_clear);
   (GR_METHOD_CTX_IS_RING, fn_polynomial_ctx_is_ring);
   (GR_METHOD_CTX_IS_COMMUTATIVE_RING, fn_polynomial_ctx_is_commutative_ring);
   (GR_METHOD_CTX_IS_INTEGRAL_DOMAIN, fn_polynomial_ctx_is_integral_domain);
   (GR_METHOD_CTX_IS_UNIQUE_FACTORIZATION_DOMAIN, fn_polynomial_ctx_is_unique_factorization_domain);
   (GR_METHOD_CTX_IS_FIELD, fn_gr_generic_ctx_predicate_false);
   (GR_METHOD_CTX_IS_RATIONAL_VECTOR_SPACE, fn_polynomial_ctx_is_rational_vector_space);
   (GR_METHOD_CTX_IS_REAL_VECTOR_SPACE, fn_polynomial_ctx_is_real_vector_space);
   (GR_METHOD_CTX_IS_COMPLEX_VECTOR_SPACE, fn_polynomial_ctx_is_complex_vector_space);
   (GR_METHOD_CTX_IS_THREADSAFE, fn_polynomial_ctx_is_threadsafe);
   (GR_METHOD_CTX_SET_GEN_NAME, fn_gr_gr_poly_ctx_set_gen_name);
   (GR_METHOD_CTX_SET_GEN_NAMES, fn_gr_gr_poly_ctx_set_gen_names);
   (GR_METHOD_INIT, fn_polynomial_init);
   (GR_METHOD_CLEAR, fn_polynomial_clear);
   (GR_METHOD_SWAP, fn_polynomial_swap);
   (GR_METHOD_SET_SHALLOW, fn_polynomial_set_shallow);
   (GR_METHOD_RANDTEST, fn_polynomial_randtest);
   (GR_METHOD_WRITE, fn_polynomial_write);
   (GR_METHOD_ZERO, fn_polynomial_zero);
   (GR_METHOD_ONE, fn_polynomial_one);
   (GR_METHOD_NEG_ONE, fn_polynomial_neg_one);
   (GR_METHOD_GEN, fn_polynomial_gen);
   (GR_METHOD_GENS, fn_gr_generic_gens_single);
   (GR_METHOD_GENS_RECURSIVE, fn_polynomial_gens_recursive);
   (GR_METHOD_IS_ZERO, fn_polynomial_is_zero);
   (GR_METHOD_IS_ONE, fn_polynomial_is_one);
   (GR_METHOD_EQUAL, fn_polynomial_equal);
   (GR_METHOD_SET, fn_polynomial_set);
   (GR_METHOD_SET_UI, fn_polynomial_set_ui);
   (GR_METHOD_SET_SI, fn_polynomial_set_si);
   (GR_METHOD_SET_FMPZ, fn_polynomial_set_fmpz);
   (GR_METHOD_SET_FMPQ, fn_polynomial_set_fmpq);
   (GR_METHOD_SET_OTHER, fn_polynomial_set_other);
   (GR_METHOD_SET_INTERVAL_MID_RAD, fn_polynomial_set_interval_mid_rad);
   (GR_METHOD_SET_STR, fn_gr_generic_set_str_balance_additions);
   (GR_METHOD_NEG, fn_polynomial_neg);
   (GR_METHOD_ADD_UI, fn_polynomial_add_ui);
   (GR_METHOD_ADD_SI, fn_polynomial_add_si);
   (GR_METHOD_ADD_FMPZ, fn_polynomial_add_fmpz);
   (GR_METHOD_ADD_FMPQ, fn_polynomial_add_fmpq);
   (GR_METHOD_ADD, fn_polynomial_add);
   (GR_METHOD_SUB_UI, fn_polynomial_sub_ui);
   (GR_METHOD_SUB_SI, fn_polynomial_sub_si);
   (GR_METHOD_SUB_FMPZ, fn_polynomial_sub_fmpz);
   (GR_METHOD_SUB_FMPQ, fn_polynomial_sub_fmpq);
   (GR_METHOD_SUB, fn_polynomial_sub);
   (GR_METHOD_MUL, fn_polynomial_mul);
   (GR_METHOD_MUL_OTHER, fn_polynomial_mul_other);
   (GR_METHOD_OTHER_MUL, fn_polynomial_other_mul);
   (GR_METHOD_MUL_UI, fn_polynomial_mul_ui);
   (GR_METHOD_MUL_SI, fn_polynomial_mul_si);
   (GR_METHOD_MUL_FMPZ, fn_polynomial_mul_fmpz);
   (GR_METHOD_MUL_FMPQ, fn_polynomial_mul_fmpq);
   (GR_METHOD_POW_UI, fn_polynomial_pow_ui);
   (GR_METHOD_POW_SI, fn_polynomial_pow_si);
   (GR_METHOD_POW_FMPZ, fn_polynomial_pow_fmpz);
   (GR_METHOD_DIV, fn_polynomial_div);
   (GR_METHOD_DIVEXACT, fn_polynomial_divexact);
   (GR_METHOD_INV, fn_polynomial_inv);
   (GR_METHOD_EUCLIDEAN_DIV, fn_polynomial_euclidean_div);
   (GR_METHOD_EUCLIDEAN_REM, fn_polynomial_euclidean_rem);
   (GR_METHOD_EUCLIDEAN_DIVREM, fn_polynomial_euclidean_divrem);
   (GR_METHOD_I, fn_polynomial_i);
   (GR_METHOD_PI, fn_polynomial_pi);
   (GR_METHOD_CANONICAL_ASSOCIATE, fn_polynomial_canonical_associate);
   (GR_METHOD_GCD, fn_polynomial_gcd);
   (GR_METHOD_FACTOR, fn_polynomial_factor)
  ].

(** The static table [_gr_poly_methods]: one slot per identifier. *)
Definition gr_static_method_table : Type := gr_method → option gr_funcptr.

(** Static storage starts out zeroed. *)
Definition empty_method_table : gr_static_method_table := λ _, None.

(** Modelled from the spec (4.1): [gr_method_tab_init] clears every slot of
    [methods] and then stores each function of the input under its
    identifier; an identifier the input does not list has no function. *)
Definition gr_method_tab_init (methods : gr_static_method_table)
    (tab : list (gr_method * gr_funcptr)) : gr_static_method_table :=
  foldl (λ t e m, if decide (m = e.1) then Some e.2 else t m) empty_method_table tab.

(** Modelled from the spec (4.2): the generic predicate that answers "false"
    for every context. *)
Definition gr_generic_ctx_predicate_false (ctx : gr_ctx_t) : truth_t := T_FALSE.

(** Calling a function pointer as a predicate of a context. *)
Definition call_ctx_predicate (L : gr_lib) (G : ctx_store) (f : gr_funcptr)
    (ctx : gr_ctx_t) : option truth_t :=
  match f with
  | fn_polynomial_ctx_is_ring => polynomial_ctx_is_ring L G ctx
  | fn_polynomial_ctx_is_commutative_ring => polynomial_ctx_is_commutative_ring L G ctx
  | fn_polynomial_ctx_is_integral_domain => polynomial_ctx_is_integral_domain L G ctx
  | fn_polynomial_ctx_is_unique_factorization_domain =>
      polynomial_ctx_is_unique_factorization_domain L G ctx
  | fn_polynomial_ctx_is_rational_vector_space =>
      polynomial_ctx_is_rational_vector_space L G ctx
  | fn_polynomial_ctx_is_real_vector_space => polynomial_ctx_is_real_vector_space L G ctx
  | fn_polynomial_ctx_is_complex_vector_space =>
      polynomial_ctx_is_complex_vector_space L G ctx
  | fn_polynomial_ctx_is_threadsafe => polynomial_ctx_is_threadsafe L G ctx
  | fn_gr_generic_ctx_predicate_false => Some (gr_generic_ctx_predicate_false ctx)
  | _ => None
  end.

(** Modelled from the spec (2, 4.1): the dispatch of a context predicate looks
    the identifier up in the table of the context's kind and calls what it
    finds there. *)
Definition gr_ctx_predicate (L : gr_lib) (G : ctx_store) (methods : gr_static_method_table)
    (m : gr_method) (ctx : gr_ctx_t) : option truth_t :=
  f ← methods m; call_ctx_predicate L G f ctx.

(** ** Context life cycle *)

(** [strlen], [flint_realloc] and [memcpy] on the generator name.  A block of
    [n] bytes holds [n - 1] characters and the terminator. *)
Definition strlen (s : string) : Z := Z.of_nat (String.length s).

Definition flint_realloc (p : char_ptr) (n : Z) : char_ptr :=
  match p with
  | heap_str old => heap_str (String.substring 0 (Z.to_nat (n - 1)) old)
  | _ => heap_str EmptyString
  end.

Definition memcpy (dst : char_ptr) (src : string) (n : Z) : char_ptr :=
  match dst with
  | heap_str _ => heap_str (String.substring 0 (Z.to_nat (n - 1)) src)
  | _ => dst
  end.

(** [POLYNOMIAL_CTX(ctx)->var = v] *)
Definition set_var (ctx : gr_ctx_t) (v : char_ptr) (G : ctx_store) : ctx_store :=
  match G !! ctx with
  | Some c =>
      match data c with
      | data_polynomial p =>
          <[ctx := mk_gr_ctx (which_ring c) (sizeof_elem c) (size_limit c) (methods c)
                     (data_polynomial (mk_polynomial_ctx (base_ring p) (degree_limit p) v))]> G
      | _ => G
      end
  | None => G
  end.

Definition _gr_gr_poly_ctx_set_gen_name (ctx : gr_ctx_t) (s : string) (G : ctx_store)
    : option (status * ctx_store) :=
  p ← POLYNOMIAL_CTX G ctx;
  let len := strlen s in
  let v := if decide (var p = default_var) then NULL else var p in
  let v := flint_realloc v (len + 1) in
  let v := memcpy v s (len + 1) in
  Some (GR_SUCCESS, set_var ctx v G).

(** [s] is an array of strings; [s[0]] is its first entry. *)
Definition _gr_gr_poly_ctx_set_gen_names (ctx : gr_ctx_t) (s : list string) (G : ctx_store)
    : option (status * ctx_store) :=
  s0 ← s !! 0%nat; _gr_gr_poly_ctx_set_gen_name ctx s0 G.

(** The globals of [polynomial.c], and the contexts.  [tab_init_calls] is not
    in the program: it counts the calls of [gr_method_tab_init]. *)
Record globals : Type := mk_globals {
  ctxs : ctx_store;
  _gr_poly_methods_initialized : Z;
  _gr_poly_methods : gr_static_method_table;
  tab_init_calls : nat
}.

(** The state of a process at its start. *)
Definition globals_start : globals := mk_globals ∅ 0 empty_method_table 0.

(** [sizeof(gr_poly_struct)]: a pointer and two [slong] of 8 bytes. *)
Definition sizeof_gr_poly_struct : Z := 24.

Definition gr_ctx_init_gr_poly (ctx base_ring : gr_ctx_t) (g : globals) : globals :=
  let c := mk_gr_ctx GR_CTX_GR_POLY sizeof_gr_poly_struct WORD_MAX tab_gr_poly_methods
             (data_polynomial (mk_polynomial_ctx base_ring WORD_MAX default_var)) in
  let G := <[ctx := c]> (ctxs g) in
  if decide (_gr_poly_methods_initialized g = 0) then
    mk_globals G 1 (gr_method_tab_init (_gr_poly_methods g) _gr_poly_methods_input)
      (S (tab_init_calls g))
  else
    mk_globals G (_gr_poly_methods_initialized g) (_gr_poly_methods g) (tab_init_calls g).

(** ** The scalar variants next to "the scalar as a polynomial of degree 0"

    Section 4.3 of the spec compares each scalar variant with the operation
    on two polynomials.  The variants and the operations are indexed here so
    that the comparison can be stated once. *)



Section scalar_variants.
Context (L : gr_lib) (G : ctx_store).









(** The test at the head of [polynomial_mul] fires on these two lengths. *)
Definition ceiling_exceeded (limit : Z) (len1 len2 : nat) : Prop :=
  limit ≠ WORD_MAX ∧ len1 ≠ 0%nat ∧ len2 ≠ 0%nat ∧ Z.of_nat len1 + Z.of_nat len2 > limit.

#[global] Instance ceiling_exceeded_decision limit len1 len2 :
  Decision (ceiling_exceeded limit len1 len2).
Proof. unfold ceiling_exceeded. apply _. Defined.

End scalar_variants.

(** ** Polynomial arithmetic on coefficient lists

    The meaning of a coefficient list (index 0 is the constant term) over a
    ring given by its zero, addition and multiplication.  Section 8 of the
    spec states its laws ([q*y == x], ...) about these. *)

Section poly_sem.
Context {A : Type} (zero : A) (add mul : A → A → A).

(** The coefficient of [x^i]. *)
Definition coef (p : list A) (i : nat) : A := nth i p zero.

(** Two lists are the same polynomial when all their coefficients agree;
    trailing zeros do not count. *)
Definition peqv (p q : list A) : Prop := ∀ i, coef p i = coef q i.

Fixpoint padd (p q : list A) : list A :=
  match p, q with
  | [], _ => q
  | _, [] => p
  | a :: p', b :: q' => add a b :: padd p' q'
  end.

Definition pscale (c : A) (p : list A) : list A := map (mul c) p.

(** Schoolbook product: [(a + x p') q = a q + x (p' q)]. *)
Fixpoint pmul (p q : list A) : list A :=
  match p with
  | [] => []
  | a :: p' => padd (pscale a q) (zero :: pmul p' q)
  end.

End poly_sem.

Arguments coef {A} zero p i : simpl never.

(** ** The interface implemented for the integers *)

Module FmpzLib.

(** Modelled from the spec (3): normalisation removes the trailing
    coefficients that are zero. *)
Fixpoint normalise (p : list Z) : list Z :=
  match p with
  | [] => []
  | a :: p' =>
      match normalise p' with
      | [] => if decide (a = 0) then [] else [a]
      | r => a :: r
      end
  end.

Definition zadd (p q : list Z) : list Z := padd Z.add p q.
Definition zneg (p : list Z) : list Z := map Z.opp p.
Definition zsub (p q : list Z) : list Z := zadd p (zneg q).
Definition zscale (c : Z) (p : list Z) : list Z := pscale Z.mul c p.
Definition zmul (p q : list Z) : list Z := pmul 0 Z.add Z.mul p q.

(** An [fmpq] in lowest terms is an integer exactly when its denominator is 1. *)
Definition fmpq_integer (c : QArith_base.Q) : option Z :=
  if decide (QArith_base.Qden c = 1%positive) then Some (QArith_base.Qnum c) else None.

(** Modelled from the spec (4.6): a rational that is an integer converts to
    it, any other rational is outside the domain. *)
Definition set_fmpq (c : QArith_base.Q) : status * list Z :=
  match fmpq_integer c with
  | Some n => (GR_SUCCESS, normalise [n])
  | None => (GR_DOMAIN, [])
  end.

Definition all_integers (qs : list QArith_base.Q) : option (list Z) :=
  mapM fmpq_integer qs.

(** Modelled from the spec (4.6): scalar coercion into the integers. *)
Definition set_other (x_ctx c : gr_ctx_t) (v : cell Z QArith_base.Q) : status * Z :=
  match v with
  | CElem n => (GR_SUCCESS, n)
  | CForeign q =>
      match fmpq_integer q with Some n => (GR_SUCCESS, n) | None => (GR_DOMAIN, 0) end
  | _ => (GR_UNABLE, 0)
  end.

(** Modelled from the spec (4.6): coercion of a polynomial or of the entries
    of a vector, coefficient by coefficient. *)
Definition set_poly_other (v : cell Z QArith_base.Q) : status * list Z :=
  match v with
  | CPoly cs => (GR_SUCCESS, normalise cs)
  | CPolyOther qs =>
      match all_integers qs with
      | Some cs => (GR_SUCCESS, normalise cs)
      | None => (GR_DOMAIN, [])
      end
  | _ => (GR_UNABLE, [])
  end.

(** Modelled from the spec (4.3): the scalar variants work on the
    coefficients: [+ c] and [- c] change the constant term, [* c] multiplies
    every coefficient. *)
Definition add_scalar (p : list Z) (c : Z) : status * list Z :=
  match p with
  | [] => (GR_SUCCESS, normalise [c])
  | a :: p' => (GR_SUCCESS, normalise ((a + c) :: p'))
  end.
Definition sub_scalar (p : list Z) (c : Z) : status * list Z :=
  match p with
  | [] => (GR_SUCCESS, normalise [- c])
  | a :: p' => (GR_SUCCESS, normalise ((a - c) :: p'))
  end.
Definition mul_scalar (p : list Z) (c : Z) : status * list Z :=
  (GR_SUCCESS, normalise (map (λ a, a * c) p)).
Definition scalar_mul (c : Z) (p : list Z) : status * list Z :=
  (GR_SUCCESS, normalise (map (λ a, c * a) p)).

(** With a rational scalar: as with the integer it is, or a domain error. *)
Definition with_fmpq (f : list Z → Z → status * list Z) (p : list Z) (c : QArith_base.Q)
    : status * list Z :=
  match fmpq_integer c with
  | Some n => f p n
  | None => (GR_DOMAIN, [])
  end.

(** Modelled from the spec (4.4): division of every coefficient by a scalar;
    it is exact or fails. *)
Definition div_scalar (p : list Z) (c : Z) : status * list Z :=
  if decide (c = 0) then (GR_DOMAIN, [])
  else if forallb (λ a, bool_decide (a mod c = 0)) p
       then (GR_SUCCESS, normalise (map (λ a, a / c) p))
       else (GR_DOMAIN, []).

(** Modelled from the spec (4.4): long division of [x] by [y], whose leading
    coefficient is [ly] and whose length is [m].  With [x = a + X x'] and
    [x' = q' y + r'], the new partial remainder is [a + X r']; when it has
    reached the length of [y], one more multiple of [y] is taken off, which
    needs an exact division of leading coefficients. *)
Fixpoint divrem_aux (x y : list Z) (ly : Z) (m : nat) : option (list Z * list Z) :=
  match x with
  | [] => Some ([], [])
  | a :: x' =>
      match divrem_aux x' y ly m with
      | None => None
      | Some (q', r') =>
          let s := a :: r' in
          if decide (length s < m)%nat then Some (0 :: q', s)
          else
            let ls := List.last s 0 in
            if decide (ls mod ly = 0) then
              let c := ls / ly in
              Some (c :: q', removelast (zsub s (zscale c y)))
            else None
      end
  end.

(** Division by the zero polynomial is a domain error and so is an inexact
    division of leading coefficients; a divisor whose leading coefficient is
    not known to be nonzero cannot be used. *)
Definition divrem (x y : list Z) : status * (list Z * list Z) :=
  match y with
  | [] => (GR_DOMAIN, ([], []))
  | _ =>
      let ly := List.last y 0 in
      if decide (ly = 0) then (GR_UNABLE, ([], []))
      else match divrem_aux x y ly (length y) with
           | Some (q, r) => (GR_SUCCESS, (normalise q, normalise r))
           | None => (GR_DOMAIN, ([], []))
           end
  end.

(** Modelled from the spec (3): a polynomial is zero when no coefficient is
    left after normalisation; over the integers this is always decided. *)
Definition is_zero (p : list Z) : truth_t :=
  match normalise p with [] => T_TRUE | _ => T_FALSE end.

(** Modelled from the spec (4.5): powers with a non-negative exponent by
    repeated multiplication; a negative exponent is outside the domain. *)
Definition pow_fmpz (p : list Z) (e : Z) : status * list Z :=
  match e with
  | Z0 => (GR_SUCCESS, [1])
  | Zpos n => (GR_SUCCESS, Pos.iter (λ r, normalise (zmul r p)) [1] n)
  | Zneg _ => (GR_DOMAIN, [])
  end.

(** The integers are a commutative ring, an integral domain and a unique
    factorisation domain, no vector space over a field, and thread safe.  In
    this instance a copy, a division by a scalar or a long division that
    fails leaves its result as it was, as does a long division by zero, which
    returns before anything is written. *)
Definition lib : gr_lib := {|
  E := Z;
  X := QArith_base.Q;
  gr_ctx_is_ring := λ _, T_TRUE;
  gr_ctx_is_commutative_ring := λ _, T_TRUE;
  gr_ctx_is_integral_domain := λ _, T_TRUE;
  gr_ctx_is_unique_factorization_domain := λ _, T_TRUE;
  gr_ctx_is_rational_vector_space := λ _, T_FALSE;
  gr_ctx_is_real_vector_space := λ _, T_FALSE;
  gr_ctx_is_complex_vector_space := λ _, T_FALSE;
  gr_ctx_is_threadsafe := λ _, T_TRUE;
  gr_init_val := λ _, 0;
  gr_set_val := λ _ e, (GR_SUCCESS, e);
  gr_set_other_val := set_other;
  _gr_poly_normalise_val := λ _, normalise;
  gr_poly_is_zero_val := λ _, is_zero;
  gr_poly_set_val := λ _ p, (GR_SUCCESS, p);
  gr_poly_set_si_val := λ _ c, (GR_SUCCESS, normalise [c]);
  gr_poly_set_ui_val := λ _ c, (GR_SUCCESS, normalise [c]);
  gr_poly_set_fmpz_val := λ _ c, (GR_SUCCESS, normalise [c]);
  gr_poly_set_fmpq_val := λ _, set_fmpq;
  gr_poly_set_scalar_val := λ _ e, (GR_SUCCESS, normalise [e]);
  gr_poly_set_gr_poly_other_val := λ _ _, set_poly_other;
  gr_poly_set_fmpz_poly_val := λ _, set_poly_other;
  gr_poly_set_fmpq_poly_val := λ _, set_poly_other;
  gr_poly_add_val := λ _ p q, (GR_SUCCESS, normalise (zadd p q));
  gr_poly_add_ui_val := λ _, add_scalar;
  gr_poly_add_si_val := λ _, add_scalar;
  gr_poly_add_fmpz_val := λ _, add_scalar;
  gr_poly_add_fmpq_val := λ _, with_fmpq add_scalar;
  gr_poly_sub_val := λ _ p q, (GR_SUCCESS, normalise (zsub p q));
  gr_poly_sub_ui_val := λ _, sub_scalar;
  gr_poly_sub_si_val := λ _, sub_scalar;
  gr_poly_sub_fmpz_val := λ _, sub_scalar;
  gr_poly_sub_fmpq_val := λ _, with_fmpq sub_scalar;
  gr_poly_mul_val := λ _ p q, (GR_SUCCESS, normalise (zmul p q));
  gr_poly_mul_ui_val := λ _, mul_scalar;
  gr_poly_mul_si_val := λ _, mul_scalar;
  gr_poly_mul_fmpz_val := λ _, mul_scalar;
  gr_poly_mul_fmpq_val := λ _, with_fmpq mul_scalar;
  gr_poly_mul_scalar_val := λ _, mul_scalar;
  gr_poly_scalar_mul_val := λ _, scalar_mul;
  gr_poly_div_scalar_val := λ _, div_scalar;
  gr_poly_divrem_val := λ _, divrem;
  gr_poly_pow_fmpz_val := λ _, pow_fmpz;
  gr_set_failed_val := λ _ old _, old;
  gr_poly_div_scalar_failed_val := λ _ old _ _, old;
  gr_poly_divrem_failed_quot_val := λ _ old _ _, old;
  gr_poly_divrem_failed_rem_val := λ _ old _ _, old
|}.


End FmpzLib.

(** ** Several threads constructing contexts

    [gr_ctx_init_gr_poly] cut into the steps between which another thread can
    run: the assignments to the fields of [ctx], the test of the flag, the
    call of [gr_method_tab_init], the assignment to the flag. *)

Inductive init_pc : Type :=
| at_fields
| at_test
| at_tab_init
| at_set_flag
| at_return.

#[global] Instance init_pc_eq_dec : EqDecision init_pc.
Proof. solve_decision. Defined.

Record init_thread : Type := mk_init_thread {
  pc : init_pc;
  th_ctx : gr_ctx_t;
  th_base_ring : gr_ctx_t
}.

(** A thread that is about to call [gr_ctx_init_gr_poly(ctx, base_ring)]. *)
Definition init_call (ctx base_ring : gr_ctx_t) : init_thread :=
  mk_init_thread at_fields ctx base_ring.

Definition at_pc (p : init_pc) (t : init_thread) : init_thread :=
  mk_init_thread p (th_ctx t) (th_base_ring t).

Definition thread_step (t : init_thread) (g : globals) : init_thread * globals :=
  match pc t with
  | at_fields =>
      let c := mk_gr_ctx GR_CTX_GR_POLY sizeof_gr_poly_struct WORD_MAX tab_gr_poly_methods
                 (data_polynomial (mk_polynomial_ctx (th_base_ring t) WORD_MAX default_var)) in
      (at_pc at_test t,
       mk_globals (<[th_ctx t := c]> (ctxs g)) (_gr_poly_methods_initialized g)
         (_gr_poly_methods g) (tab_init_calls g))
  | at_test =>
      if decide (_gr_poly_methods_initialized g = 0)
      then (at_pc at_tab_init t, g) else (at_pc at_return t, g)
  | at_tab_init =>
      (at_pc at_set_flag t,
       mk_globals (ctxs g) (_gr_poly_methods_initialized g)
         (gr_method_tab_init (_gr_poly_methods g) _gr_poly_methods_input)
         (S (tab_init_calls g)))
  | at_set_flag =>
      (at_pc at_return t,
       mk_globals (ctxs g) 1 (_gr_poly_methods g) (tab_init_calls g))
  | at_return => (t, g)
  end.

(** The threads and the globals they share; one step of thread number [i]. *)
Definition system : Type := list init_thread * globals.

Definition system_step (i : nat) (s : system) : system :=
  match s.1 !! i with
  | Some t => let r := thread_step t s.2 in (<[i := r.1]> s.1, r.2)
  | None => s
  end.

(** A schedule names the thread that moves at each step. *)
Definition run_schedule (sched : list nat) (s : system) : system :=
  foldl (λ s i, system_step i s) s sched.

Definition all_returned (s : system) : Prop := Forall (λ t, pc t = at_return) s.1.

(** The claim of the spec (4.1, 5) about the guard: whatever the threads and
    the order of their steps, once every call has returned the table has
    been constructed once. *)
Definition constructed_once_in_every_schedule : Prop :=
  ∀ (calls : list (gr_ctx_t * gr_ctx_t)) (sched : list nat),
    calls ≠ [] →
    let s := run_schedule sched ((λ c, init_call c.1 c.2) <$> calls, globals_start) in
    all_returned s → tab_init_calls s.2 = 1%nat.

(** The table of the polynomial ring kind, once constructed. *)
Abbreviation built_methods :=
  (gr_method_tab_init empty_method_table _gr_poly_methods_input).

(** What holds of the threads and the globals at every moment of every
    schedule. *)
Definition guard_invariant (s : system) : Prop :=
  (tab_init_calls s.2 = 0%nat →
   _gr_poly_methods s.2 = empty_method_table ∧ _gr_poly_methods_initialized s.2 = 0)
  ∧ (tab_init_calls s.2 ≠ 0%nat → _gr_poly_methods s.2 = built_methods)
  ∧ (_gr_poly_methods_initialized s.2 = 0
     ∨ _gr_poly_methods_initialized s.2 = 1 ∧ tab_init_calls s.2 ≠ 0%nat)
  ∧ Forall (λ t, (pc t = at_set_flag → tab_init_calls s.2 ≠ 0%nat)
               ∧ (pc t = at_return → _gr_poly_methods_initialized s.2 = 1)) s.1.

(** ** A small world: contexts and objects over the integers *)

Module Sample.

Definition ZZ : gr_ctx_t := 1%positive.
Definition QQ : gr_ctx_t := 2%positive.
Definition ZZx : gr_ctx_t := 3%positive.
Definition ZZx_capped : gr_ctx_t := 4%positive.
Definition ZZy : gr_ctx_t := 5%positive.
Definition ZZx_again : gr_ctx_t := 6%positive.
Definition ZZ_fmpz_poly : gr_ctx_t := 7%positive.
Definition QQ_fmpq_poly : gr_ctx_t := 8%positive.
Definition QQ_vec : gr_ctx_t := 9%positive.
Definition QQx : gr_ctx_t := 10%positive.

Definition scalar_ring (tag : nat) : gr_ctx_struct :=
  mk_gr_ctx (GR_CTX_OTHER tag) 8 WORD_MAX (tab_other tag) data_none.

Definition polynomial_ring (base : gr_ctx_t) (limit : Z) (v : char_ptr) : gr_ctx_struct :=
  mk_gr_ctx GR_CTX_GR_POLY sizeof_gr_poly_struct WORD_MAX tab_gr_poly_methods
    (data_polynomial (mk_polynomial_ctx base limit v)).

(** [ZZx_capped] has a degree ceiling of 3; [ZZx_again] is a second context
    for the polynomials in [x] over the integers, with a name of its own. *)
Definition contexts : ctx_store :=
  list_to_map
    [(ZZ, scalar_ring 0);
     (QQ, scalar_ring 1);
     (ZZx, polynomial_ring ZZ WORD_MAX default_var);
     (ZZx_capped, polynomial_ring ZZ 3 default_var);
     (ZZy, polynomial_ring ZZ WORD_MAX (heap_str "y"));
     (ZZx_again, polynomial_ring ZZ WORD_MAX (heap_str "x"));
     (ZZ_fmpz_poly, mk_gr_ctx GR_CTX_FMPZ_POLY 24 WORD_MAX (tab_other 2) data_none);
     (QQ_fmpq_poly, mk_gr_ctx GR_CTX_FMPQ_POLY 32 WORD_MAX (tab_other 3) data_none);
     (QQ_vec, mk_gr_ctx GR_CTX_GR_VEC 24 WORD_MAX (tab_other 4)
                (data_vector (mk_vector_ctx QQ)));
     (QQx, polynomial_ring QQ WORD_MAX default_var)].

(** Objects: [x + 1], [x - 1], a zero polynomial to hold results, the integer
    3, the rationals 1/2 and 5, a vector and a polynomial over the
    rationals, the constant 2, [x^2], [x^2 - 1], [2 x] and the zero
    polynomial. *)
Definition x_plus_1 : ptr := 1%positive.
Definition x_minus_1 : ptr := 2%positive.
Definition result : ptr := 3%positive.
Definition three : ptr := 4%positive.
Definition one_half : ptr := 5%positive.
Definition five : ptr := 6%positive.
Definition vec_1_2 : ptr := 7%positive.
Definition rational_poly : ptr := 8%positive.
Definition two : ptr := 9%positive.
Definition x_squared : ptr := 10%positive.
Definition x_squared_minus_1 : ptr := 11%positive.
Definition two_x : ptr := 12%positive.
Definition zero_poly : ptr := 13%positive.

Definition objects : gmap ptr (cell Z QArith_base.Q) :=
  list_to_map
    [(x_plus_1, CPoly [1; 1]);
     (x_minus_1, CPoly [-1; 1]);
     (result, CPoly []);
     (three, CElem 3);
     (one_half, CForeign (QArith_base.Qmake 1 2));
     (five, CForeign (QArith_base.Qmake 5 1));
     (vec_1_2, CVec [QArith_base.Qmake 1 1; QArith_base.Qmake 2 1]);
     (rational_poly,
      CPolyOther [QArith_base.Qmake 1 1; QArith_base.Qmake 0 1; QArith_base.Qmake 3 1]);
     (two, CPoly [2]);
     (x_squared, CPoly [0; 0; 1]);
     (x_squared_minus_1, CPoly [-1; 0; 1]);
     (two_x, CPoly [0; 2]);
     (zero_poly, CPoly [])].

End Sample.

(** ** Words used in the statements *)

(** The status [polynomial_div] makes of what the long division returned:
    a failure of the long division is passed on; after a successful one the
    remainder decides. *)
Definition div_status (L : gr_lib) (e : gr_ctx_t) (d : status * (list (E L) * list (E L)))
    : status :=
  if decide (d.1 = GR_SUCCESS) then
    match gr_poly_is_zero_val L e d.2.2 with
    | T_TRUE => GR_SUCCESS
    | T_FALSE => GR_DOMAIN
    | T_UNKNOWN => GR_UNABLE
    end
  else d.1.

(** What the division law of the spec (8) needs from the collaborating code,
    for the ring whose zero, sum and product are [zero], [add], [mul]: a
    successful long division returns [q], [r] with [x = q y + r]; a
    polynomial found to be zero is zero; a successful division by a scalar
    [c] returns [q] with [x = q c]; copying an element gives that element;
    and adding zero changes nothing. *)
Record division_contract (L : gr_lib) (e : gr_ctx_t)
    (zero : E L) (add mul : E L → E L → E L) : Prop := {
  divrem_sound : ∀ x y q r,
    gr_poly_divrem_val L e x y = (GR_SUCCESS, (q, r)) →
    peqv zero x (padd add (pmul zero add mul q y) r);
  is_zero_sound : ∀ r,
    gr_poly_is_zero_val L e r = T_TRUE → peqv zero r [];
  div_scalar_sound : ∀ x c q,
    gr_poly_div_scalar_val L e x c = (GR_SUCCESS, q) →
    peqv zero x (pmul zero add mul q [c]);
  gr_set_copies : ∀ c c',
    gr_set_val L e c = (GR_SUCCESS, c') → c' = c;
  add_zero_r : ∀ u, add u zero = u
}.

(** ** More of the collaborating code *)

(** Modelled from the spec: further routines of the base ring and of the
    [gr_poly] layer that [polynomial.c] calls without defining them (the
    spec (1) names them as external collaborators).  As in [gr_lib], each is
    a parameter that gives the status and the value the routine computes;
    for the routines that write one coefficient of a polynomial that holds
    something, a second parameter gives what a call that fails leaves in
    that coefficient, from what it held ([old]) and the inputs. *)
Record gr_lib_more (L : gr_lib) : Type := mk_gr_lib_more {
  gr_set_interval_mid_rad_val : gr_ctx_t → E L → E L → status * E L;
  gr_set_interval_mid_rad_failed_val : gr_ctx_t → E L → E L → E L → E L;
  gr_i_val : gr_ctx_t → status * E L;
  gr_i_failed_val : gr_ctx_t → E L → E L;
  gr_pi_val : gr_ctx_t → status * E L;
  gr_pi_failed_val : gr_ctx_t → E L → E L;
  gr_gens_recursive_val : gr_ctx_t → status * list (E L);
  gr_poly_gen_val : gr_ctx_t → status * list (E L)
}.

Arguments gr_set_interval_mid_rad_val {L} _ _ _ _.
Arguments gr_set_interval_mid_rad_failed_val {L} _ _ _ _ _.
Arguments gr_i_val {L} _ _.
Arguments gr_i_failed_val {L} _ _ _.
Arguments gr_pi_val {L} _ _.
Arguments gr_pi_failed_val {L} _ _ _.
Arguments gr_gens_recursive_val {L} _ _.
Arguments gr_poly_gen_val {L} _ _.

(** [for (i = 0; i < n; i++) body]: [n] rounds from [i] on, the variables
    the body changes being handed from one round to the next. *)
Fixpoint for_loop `{MBind MM, MRet MM} {V : Type} (n : nat) (i : Z)
    (body : Z → V → MM V) (vars : V) : MM V :=
  match n with
  | O => mret vars
  | S n' => vars' ← body i vars; for_loop n' (i + 1) body vars'
  end.

(** A [gr_ptr] to one element of the base ring, as the coefficient loops pass
    it: the entry [i] of the coefficient array of a polynomial
    ([gr_poly_coeff_ptr(p, i, ctx)]) or an element with storage of its own. *)
Inductive coeff_ref : Type :=
| coeff_entry (p : ptr) (i : Z)
| lone_elem (t : ptr).

(** ** Constants and intervals: [polynomial_i], [polynomial_pi],
    [polynomial_set_interval_mid_rad] *)

Section interval.
Context (L : gr_lib) (K : gr_lib_more L) (G : ctx_store).

(** Reading and writing through such a pointer; an index outside
    [0 .. length - 1] has no meaning. *)
Definition read_coeff (c : coeff_ref) : M L (E L) :=
  match c with
  | coeff_entry p i =>
      cs ← read_poly L p;
      if decide (0 ≤ i) then lift_opt (cs !! Z.to_nat i) else undefined
  | lone_elem t => read_elem L t
  end.

Definition write_coeff (p : ptr) (i : Z) (v : E L) : M L unit :=
  cs ← read_poly L p;
  if decide (0 ≤ i < Z.of_nat (length cs))
  then store_cell L p (CPoly (<[Z.to_nat i := v]> cs))
  else undefined.

(** Modelled from the spec (1, 3): the storage primitives.  [_gr_poly_set_length]
    makes the first [len] entries of the array the coefficients; the entries
    it brings in are initialised elements of the base ring.  [gr_poly_swap]
    exchanges two polynomials.  [gr_heap_init] and [gr_heap_clear] create and
    destroy one element of the base ring. *)
Definition _gr_poly_set_length (res : ptr) (len : Z) (c : gr_ctx_t) : M L unit :=
  cs ← read_poly L res;
  write_poly L res
    (take (Z.to_nat len) cs ++ replicate (Z.to_nat len - length cs) (gr_init_val L c)).

Definition gr_poly_swap (poly1 poly2 : ptr) (c : gr_ctx_t) : M L unit :=
  a ← read_poly L poly1; b ← read_poly L poly2;
  store_cell L poly1 (CPoly b);; store_cell L poly2 (CPoly a).

Definition gr_heap_init (c : gr_ctx_t) : M L ptr := alloc L (CElem (gr_init_val L c)).
Definition gr_heap_clear (z : ptr) (c : gr_ctx_t) : M L unit := read_elem L z;; free L z.

(** The status of a routine of the base ring and what it leaves in a
    coefficient that held [old]. *)
Definition gr_set_interval_mid_rad_result (c : gr_ctx_t) (old x y : E L) : status * E L :=
  call_result (gr_set_interval_mid_rad_val K c x y)
    (gr_set_interval_mid_rad_failed_val K c old x y).

Definition gr_i_result (c : gr_ctx_t) (old : E L) : status * E L :=
  call_result (gr_i_val K c) (gr_i_failed_val K c old).

Definition gr_pi_result (c : gr_ctx_t) (old : E L) : status * E L :=
  call_result (gr_pi_val K c) (gr_pi_failed_val K c old).

(** The routines of the base ring on one coefficient of [res]:
    [gr_set(gr_poly_coeff_ptr(res, i, c), src, c)],
    [gr_set_interval_mid_rad(gr_poly_coeff_ptr(res, i, c), m, r, c)],
    [gr_i(res->coeffs, c)] and [gr_pi(res->coeffs, c)].  The coefficient is
    there before the call, and a call that fails is not followed by a reset
    of the coefficient. *)
Definition gr_set_coeff (res : ptr) (i : Z) (src : coeff_ref) (c : gr_ctx_t) : M L status :=
  x ← read_coeff src; old ← read_coeff (coeff_entry res i);
  write_coeff res i (gr_set_result L c old x).2;; mret (gr_set_result L c old x).1.

Definition gr_set_interval_mid_rad (res : ptr) (i : Z) (m r : coeff_ref) (c : gr_ctx_t)
    : M L status :=
  x ← read_coeff m; y ← read_coeff r; old ← read_coeff (coeff_entry res i);
  write_coeff res i (gr_set_interval_mid_rad_result c old x y).2;;
  mret (gr_set_interval_mid_rad_result c old x y).1.

Definition gr_i (res : ptr) (c : gr_ctx_t) : M L status :=
  old ← read_coeff (coeff_entry res 0);
  write_coeff res 0 (gr_i_result c old).2;; mret (gr_i_result c old).1.

Definition gr_pi (res : ptr) (c : gr_ctx_t) : M L status :=
  old ← read_coeff (coeff_entry res 0);
  write_coeff res 0 (gr_pi_result c old).2;; mret (gr_pi_result c old).1.

Definition polynomial_i (res : ptr) (ctx : gr_ctx_t) : M L status :=
  e ← elem_ctx L G ctx;
  gr_poly_fit_length L res 1 e;;
  _gr_poly_set_length res 1 e;;
  status ← gr_i res e;
  _gr_poly_normalise L res e;;
  mret status.

Definition polynomial_pi (res : ptr) (ctx : gr_ctx_t) : M L status :=
  e ← elem_ctx L G ctx;
  gr_poly_fit_length L res 1 e;;
  _gr_poly_set_length res 1 e;;
  status ← gr_pi res e;
  _gr_poly_normalise L res e;;
  mret status.

(** One round of the loop of [polynomial_set_interval_mid_rad].  The loop
    changes [status] and [zero]; [zero] is NULL until the first round that
    needs it. *)
Definition set_interval_mid_rad_round (res m r : ptr) (mlen rlen : Z) (cctx : gr_ctx_t)
    (i : Z) (vars : status * option ptr) : M L (status * option ptr) :=
  let status := vars.1 in
  let zero := vars.2 in
  if decide (i < mlen ∧ i < rlen) then
    s ← gr_set_interval_mid_rad res i (coeff_entry m i) (coeff_entry r i) cctx;
    mret (status |' s, zero)
  else if decide (i < mlen) then
    s ← gr_set_coeff res i (coeff_entry m i) cctx;
    mret (status |' s, zero)
  else if decide (i < rlen) then
    z ← match zero with
        | None => gr_heap_init cctx
        | Some z => mret z
        end;
    s ← gr_set_interval_mid_rad res i (lone_elem z) (coeff_entry r i) cctx;
    mret (status |' s, Some z)
  else
    mret (status, zero).

(** The function calls itself when [res] is [r], with a new polynomial [t]
    as the result.  [depth] is the number of nested calls that are followed:
    a call nested deeper has no result here.  One level is all the function
    ever needs, as is proved below. *)
Fixpoint polynomial_set_interval_mid_rad (depth : nat) (res m r : ptr) (ctx : gr_ctx_t)
    : M L status :=
  rlen ← poly_length L r;
  if decide (rlen = 0) then
    e ← elem_ctx L G ctx;
    gr_poly_set L res m e
  else
    let status := GR_SUCCESS in
    let zero : option ptr := None in
    cctx ← elem_ctx L G ctx;
    if decide (res = r) then
      match depth with
      | O => undefined
      | S depth' =>
          t ← gr_poly_init L cctx;
          status ← polynomial_set_interval_mid_rad depth' t m r ctx;
          gr_poly_swap res t cctx;;
          gr_poly_clear L t cctx;;
          mret status
      end
    else
      mlen ← poly_length L m;
      rlen ← poly_length L r;
      let len := Z.max mlen rlen in
      gr_poly_fit_length L res len cctx;;
      _gr_poly_set_length res len cctx;;
      vars ← for_loop (Z.to_nat len) 0
                (set_interval_mid_rad_round res m r mlen rlen cctx) (status, zero);
      match vars.2 with
      | Some z => gr_heap_clear z cctx
      | None => mret tt
      end;;
      _gr_poly_normalise L res cctx;;
      mret vars.1.

End interval.

(** ** Words used in the statements about intervals *)

Section interval_words.
Context (L : gr_lib) (K : gr_lib_more L).

(** The coefficient [i] of a result that held [c0], as the loop of
    [polynomial_set_interval_mid_rad] finds it: the old coefficient, or a
    new element of the base ring where [c0] had ended. *)
Definition old_coeff (e : gr_ctx_t) (c0 : list (E L)) (i : nat) : E L :=
  default (gr_init_val L e) (c0 !! i).

(** What [polynomial_set_interval_mid_rad] does for the coefficient [i] of a
    result that held [c0], from the midpoints [a] and the radii [b]: where
    one of the two polynomials has ended, the midpoint is copied or the
    radius is put around a new element of the base ring. *)
Definition mid_rad_entry (e : gr_ctx_t) (c0 a b : list (E L)) (i : nat) : status * E L :=
  match a !! i, b !! i with
  | Some x, Some y => gr_set_interval_mid_rad_result L K e (old_coeff e c0 i) x y
  | Some x, None => gr_set_result L e (old_coeff e c0 i) x
  | None, Some y =>
      gr_set_interval_mid_rad_result L K e (old_coeff e c0 i) (gr_init_val L e) y
  | None, None => (GR_SUCCESS, old_coeff e c0 i)
  end.

Definition mid_rad_entries (e : gr_ctx_t) (c0 a b : list (E L)) : list (status * E L) :=
  mid_rad_entry e c0 a b <$> seq 0 (length a `max` length b).

End interval_words.

(** ** Generators: [polynomial_gens_recursive] *)

Section generators.
Context (L : gr_lib) (K : gr_lib_more L) (G : ctx_store).





End generators.

(** ** The further routines for the integers *)

(** The integers are an exact ring without generators: an interval has
    radius zero or cannot be represented, and neither the imaginary unit nor
    pi is an integer.  A routine that fails has written nothing: the
    coefficient is left as it was. *)
Definition fmpz_more : gr_lib_more FmpzLib.lib :=
  mk_gr_lib_more FmpzLib.lib
    (λ _ (m r : Z), if decide (r = 0) then (GR_SUCCESS, m) else (GR_UNABLE, 0))
    (λ _ (old _ _ : Z), old)
    (λ _, (GR_DOMAIN, 0))
    (λ _ (old : Z), old)
    (λ _, (GR_DOMAIN, 0))
    (λ _ (old : Z), old)
    (λ _, (GR_SUCCESS, []))
    (λ _, (GR_SUCCESS, [0; 1])).

(** ** Destroying a context; a context in use *)

(** [polynomial_ctx_clear] returns nothing; what it hands to [flint_free] is
    given here as its result (no block, or the one block of the name).  The
    context itself is left as it is. *)
Definition polynomial_ctx_clear (ctx : gr_ctx_t) (G : ctx_store) : option (list char_ptr) :=
  p ← POLYNOMIAL_CTX G ctx;
  if decide (var p ≠ default_var) then Some [var p] else Some [].

(** [_gr_gr_poly_ctx_set_gen_name(ctx, s)] for each [s] of [names] in turn. *)
Fixpoint set_gen_name_in_turn (ctx : gr_ctx_t) (names : list string) (G : ctx_store)
    : option ctx_store :=
  match names with
  | [] => Some G
  | s :: names' =>
      r ← _gr_gr_poly_ctx_set_gen_name ctx s G;
      set_gen_name_in_turn ctx names' r.2
  end.

(** The name a context has after it was constructed and then given [names]
    in turn, and the characters of that name. *)
Definition name_after (names : list string) : char_ptr :=
  match last names with
  | Some s => heap_str s
  | None => default_var
  end.

Definition name_text_after (names : list string) : string :=
  match last names with
  | Some s => s
  | None => default_var_contents
  end.

(** Function pointers can be compared. *)
#[global] Instance gr_funcptr_eq_dec : EqDecision gr_funcptr.
Proof. solve_decision. Defined.

(** ** More about the threads *)

(** A thread has made its call of [gr_method_tab_init]. *)
Definition past_tab_init (t : init_thread) : Prop :=
  pc t = at_set_flag ∨ pc t = at_return.

#[global] Instance past_tab_init_dec t : Decision (past_tab_init t).
Proof. unfold past_tab_init. apply _. Defined.

(** The context [gr_ctx_init_gr_poly(ctx, base_ring)] makes, when nothing
    else runs. *)
Definition constructed_alone (ctx base_ring : gr_ctx_t) : option gr_ctx_struct :=
  ctxs (gr_ctx_init_gr_poly ctx base_ring globals_start) !! ctx.

(** What holds of the contexts at every moment of every schedule, when the
    threads construct contexts at different addresses: a thread that has
    assigned the fields of its context finds them as it left them. *)
Definition contexts_invariant (s : system) : Prop :=
  NoDup (th_ctx <$> s.1)
  ∧ ∀ i t, s.1 !! i = Some t → pc t ≠ at_fields →
      ctxs s.2 !! th_ctx t = constructed_alone (th_ctx t) (th_base_ring t).

(** ** What a call may change *)

(** The store [σ'] after a call is the store [σ] before it, or differs from
    it in the value of the polynomial [res] and in nothing else: no other
    object was written, none was added and none was removed. *)
Definition changed_at_most {L : gr_lib} (res : ptr) (σ σ' : heap L) : Prop :=
  σ' = σ ∨ ∃ old v, σ !! res = Some (CPoly old) ∧ σ' = <[res := CPoly v]> σ.

(** ** The memory of the generator name

    The same three functions once more, with the heap blocks of the names at
    their addresses, so that it can be said which blocks are alive.  Only the
    field [var] of one context matters to them. *)

Module NameMemory.

(** A pointer to characters: the address of the static string
    [default_var], NULL, or the address of a heap block. *)
Inductive name_ptr : Type :=
| to_default
| null
| to_block (a : positive).

#[global] Instance name_ptr_eq_dec : EqDecision name_ptr.
Proof. solve_decision. Defined.

(** The heap blocks that are alive, with their characters; and the state
    the three functions work on: the field [var] and the heap. *)
Abbreviation blocks := (gmap positive string).

Record name_state : Type := mk_name_state {
  var_field : name_ptr;
  alive : blocks
}.

(** Modelled from the spec (4.2): [flint_realloc], [memcpy] and [flint_free]
    as in the C library.  A block of [n] bytes holds [n - 1] characters and
    the terminator.  [flint_realloc(NULL, n)] makes a new block; on a block
    it keeps the characters that fit, in place or ([moved]) in a new block,
    the old one being released; on anything else it has no meaning.
    [flint_free(NULL)] does nothing. *)
Definition flint_realloc (moved : bool) (p : name_ptr) (n : Z) (h : blocks)
    : option (name_ptr * blocks) :=
  match p with
  | null => Some (to_block (fresh (dom h)), <[fresh (dom h) := EmptyString]> h)
  | to_block a =>
      old ← h !! a;
      let kept := String.substring 0 (Z.to_nat (n - 1)) old in
      if moved
      then Some (to_block (fresh (dom h)), <[fresh (dom h) := kept]> (delete a h))
      else Some (to_block a, <[a := kept]> h)
  | to_default => None
  end.

Definition memcpy (dst : name_ptr) (src : string) (n : Z) (h : blocks) : option blocks :=
  match dst with
  | to_block a =>
      _ ← h !! a; Some (<[a := String.substring 0 (Z.to_nat (n - 1)) src]> h)
  | _ => None
  end.

Definition flint_free (p : name_ptr) (h : blocks) : option blocks :=
  match p with
  | null => Some h
  | to_block a => _ ← h !! a; Some (delete a h)
  | to_default => None
  end.

(** What [gr_ctx_init_gr_poly] does to the field: [var] becomes the address
    of [default_var]. *)
Definition gr_ctx_init_gr_poly (h : blocks) : name_state := mk_name_state to_default h.

Definition _gr_gr_poly_ctx_set_gen_name (moved : bool) (s : string) (st : name_state)
    : option (status * name_state) :=
  let len := strlen s in
  let v := if decide (var_field st = to_default) then null else var_field st in
  r ← flint_realloc moved v (len + 1) (alive st);
  h ← memcpy r.1 s (len + 1) r.2;
  Some (GR_SUCCESS, mk_name_state r.1 h).

Definition polynomial_ctx_clear (st : name_state) : option blocks :=
  if decide (var_field st ≠ to_default) then flint_free (var_field st) (alive st)
  else Some (alive st).

(** The names of [renames] given in turn, each with what [flint_realloc]
    does at that call. *)
Fixpoint set_gen_name_in_turn (renames : list (string * bool)) (st : name_state)
    : option name_state :=
  match renames with
  | [] => Some st
  | (s, moved) :: renames' =>
      r ← _gr_gr_poly_ctx_set_gen_name moved s st;
      set_gen_name_in_turn renames' r.2
  end.

(** What holds of a context between two calls: its name is the shared
    default and the heap is as at the construction, or its name is in the one
    block that has been added to it. *)
Definition owns (h0 : blocks) (st : name_state) : Prop :=
  (var_field st = to_default ∧ alive st = h0)
  ∨ ∃ a s, var_field st = to_block a ∧ h0 !! a = None ∧ alive st = <[a := s]> h0.

End NameMemory.

(** * Proofs *)

(** ** Running computations on the store *)

Section store_lemmas.
Context (L : gr_lib).
Implicit Types (σ : heap L) (p res : ptr) (cs : list (E L)).

Lemma bind_run {A B} (m : M L A) (f : A → M L B) σ :
  (m ≫= f) σ = match m σ with Some (a, σ') => f a σ' | None => None end.
Proof. reflexivity. Qed.

Lemma ret_run {A} (a : A) σ : (mret a : M L A) σ = Some (a, σ).
Proof. reflexivity. Qed.

Lemma bind_ret_run {A} (m : M L A) σ : (m ≫= mret) σ = m σ.
Proof. rewrite bind_run. destruct (m σ) as [[a σ']|]; reflexivity. Qed.

Lemma lift_opt_run {A} (a : A) σ : (lift_opt (Some a) : M L A) σ = Some (a, σ).
Proof. reflexivity. Qed.

Lemma read_cell_run p c σ : σ !! p = Some c → read_cell L p σ = Some (c, σ).
Proof. intros H. unfold read_cell. by rewrite H. Qed.

Lemma read_poly_run p cs σ : σ !! p = Some (CPoly cs) → read_poly L p σ = Some (cs, σ).
Proof. intros H. unfold read_poly. by rewrite bind_run, (read_cell_run _ _ _ H). Qed.

Lemma read_elem_run p e σ : σ !! p = Some (CElem e) → read_elem L p σ = Some (e, σ).
Proof. intros H. unfold read_elem. by rewrite bind_run, (read_cell_run _ _ _ H). Qed.

Lemma write_poly_run p old cs σ :
  σ !! p = Some (CPoly old) → write_poly L p cs σ = Some (tt, <[p := CPoly cs]> σ).
Proof. intros H. unfold write_poly. by rewrite bind_run, (read_poly_run _ _ _ H). Qed.

Lemma write_elem_run p old e σ :
  σ !! p = Some (CElem old) → write_elem L p e σ = Some (tt, <[p := CElem e]> σ).
Proof. intros H. unfold write_elem. by rewrite bind_run, (read_elem_run _ _ _ H). Qed.

Lemma poly_length_run p cs σ :
  σ !! p = Some (CPoly cs) → poly_length L p σ = Some (Z.of_nat (length cs), σ).
Proof. intros H. unfold poly_length. by rewrite bind_run, (read_poly_run _ _ _ H). Qed.

Lemma poly_set_const_run r res old σ :
  σ !! res = Some (CPoly old) →
  poly_set_const L r res σ = Some (r.1, <[res := CPoly r.2]> σ).
Proof. intros H. unfold poly_set_const. by rewrite bind_run, (write_poly_run _ _ _ _ H). Qed.

Lemma poly_op1_run f res a va old σ :
  σ !! a = Some (CPoly va) → σ !! res = Some (CPoly old) →
  poly_op1 L f res a σ = Some ((f va).1, <[res := CPoly (f va).2]> σ).
Proof.
  intros Ha Hr. unfold poly_op1.
  by rewrite bind_run, (read_poly_run _ _ _ Ha), bind_run, (write_poly_run _ _ _ _ Hr).
Qed.

Lemma poly_op2_run f res a b va vb old σ :
  σ !! a = Some (CPoly va) → σ !! b = Some (CPoly vb) → σ !! res = Some (CPoly old) →
  poly_op2 L f res a b σ = Some ((f va vb).1, <[res := CPoly (f va vb).2]> σ).
Proof.
  intros Ha Hb Hr. unfold poly_op2.
  rewrite bind_run, (read_poly_run _ _ _ Ha), bind_run, (read_poly_run _ _ _ Hb).
  by rewrite bind_run, (write_poly_run _ _ _ _ Hr).
Qed.

(** A new object is at an address where nothing was. *)
Lemma fresh_unused σ : σ !! fresh (dom σ) = None.
Proof. apply not_elem_of_dom, is_fresh. Qed.

Lemma fresh_ne σ p c : σ !! p = Some c → p ≠ fresh (dom σ).
Proof. intros H ->. by rewrite fresh_unused in H. Qed.

(** Once a temporary is released, the store is as if it had never been. *)
Lemma delete_fresh_insert σ (c : cell (E L) (X L)) :
  delete (fresh (dom σ)) (<[fresh (dom σ) := c]> σ) = σ.
Proof. rewrite delete_insert_eq. apply delete_id, fresh_unused. Qed.

End store_lemmas.

(** ** The degree ceiling of [polynomial_mul] *)

Section mul_ceiling.
Context (L : gr_lib) (G : ctx_store).
Implicit Types (σ : heap L) (a b : list (E L)).

Lemma polynomial_mul_exceeded res poly1 poly2 ctx σ p a b :
  POLYNOMIAL_CTX G ctx = Some p →
  σ !! poly1 = Some (CPoly a) → σ !! poly2 = Some (CPoly b) →
  ceiling_exceeded (degree_limit p) (length a) (length b) →
  polynomial_mul L G res poly1 poly2 ctx σ = Some (GR_UNABLE, σ).
Proof.
  intros Hp Ha Hb (Hk & Hla & Hlb & Hsum).
  unfold polynomial_mul, poly_ctx. rewrite Hp, bind_run, lift_opt_run.
  rewrite decide_True by done.
  rewrite bind_run, (poly_length_run _ _ _ _ Ha).
  rewrite bind_run, (poly_length_run _ _ _ _ Hb).
  rewrite decide_True by lia. reflexivity.
Qed.

Lemma polynomial_mul_within res poly1 poly2 ctx σ p a b :
  POLYNOMIAL_CTX G ctx = Some p →
  σ !! poly1 = Some (CPoly a) → σ !! poly2 = Some (CPoly b) →
  ¬ ceiling_exceeded (degree_limit p) (length a) (length b) →
  polynomial_mul L G res poly1 poly2 ctx σ = gr_poly_mul L res poly1 poly2 (base_ring p) σ.
Proof.
  intros Hp Ha Hb Hnot.
  unfold polynomial_mul, poly_ctx. rewrite Hp, bind_run, lift_opt_run.
  destruct (decide (degree_limit p ≠ WORD_MAX)) as [Hk|Hk]; [|reflexivity].
  rewrite bind_run, (poly_length_run _ _ _ _ Ha).
  rewrite bind_run, (poly_length_run _ _ _ _ Hb).
  rewrite decide_False; [reflexivity|].
  intros (Hla & Hlb & Hsum). apply Hnot. unfold ceiling_exceeded. lia.
Qed.

(** C2.  In a polynomial ring with a degree ceiling [k] (a [degree_limit]
    other than [WORD_MAX]), the product of two nonzero polynomials whose
    lengths add up to more than [k] is refused with [GR_UNABLE] and the store
    is left as it was: neither operand nor the result is touched.  With no
    ceiling, with a zero operand, or with lengths that add up to at most [k],
    [polynomial_mul] is the call of [gr_poly_mul] on the base ring. *)
Theorem polynomial_mul_degree_ceiling res poly1 poly2 ctx σ p a b :
  POLYNOMIAL_CTX G ctx = Some p →
  σ !! poly1 = Some (CPoly a) → σ !! poly2 = Some (CPoly b) →
  (degree_limit p ≠ WORD_MAX → a ≠ [] → b ≠ [] →
   Z.of_nat (length a) + Z.of_nat (length b) > degree_limit p →
   polynomial_mul L G res poly1 poly2 ctx σ = Some (GR_UNABLE, σ))
  ∧ (degree_limit p = WORD_MAX ∨ a = [] ∨ b = [] ∨
     Z.of_nat (length a) + Z.of_nat (length b) ≤ degree_limit p →
     polynomial_mul L G res poly1 poly2 ctx σ
     = gr_poly_mul L res poly1 poly2 (base_ring p) σ).
Proof.
  intros Hp Ha Hb. split.
  - intros Hk Hna Hnb Hsum. eapply polynomial_mul_exceeded; eauto.
    unfold ceiling_exceeded. destruct a, b; simpl in *; first [done | lia].
  - intros Hcase. eapply polynomial_mul_within; eauto.
    unfold ceiling_exceeded. intros (Hk & Hla & Hlb & Hsum).
    destruct Hcase as [?|[->|[->|?]]]; simpl in *; first [done | lia].
Qed.

End mul_ceiling.

(** [x + 1] times [x - 1] under a ceiling of 3 is refused; [x + 1] times the
    constant 2 goes through. *)
Lemma polynomial_mul_degree_ceiling_witness :
  polynomial_mul FmpzLib.lib Sample.contexts Sample.result Sample.x_plus_1
    Sample.x_minus_1 Sample.ZZx_capped Sample.objects
  = Some (GR_UNABLE, Sample.objects)
  ∧ polynomial_mul FmpzLib.lib Sample.contexts Sample.result Sample.x_plus_1
      Sample.two Sample.ZZx_capped Sample.objects
    = gr_poly_mul FmpzLib.lib Sample.result Sample.x_plus_1 Sample.two Sample.ZZ
        Sample.objects.
Proof.
  split.
  - apply (proj1 (polynomial_mul_degree_ceiling FmpzLib.lib Sample.contexts
      Sample.result Sample.x_plus_1 Sample.x_minus_1 Sample.ZZx_capped Sample.objects
      (mk_polynomial_ctx Sample.ZZ 3 default_var) [1; 1] [-1; 1]
      eq_refl eq_refl eq_refl)); simpl; (done || lia).
  - apply (proj2 (polynomial_mul_degree_ceiling FmpzLib.lib Sample.contexts
      Sample.result Sample.x_plus_1 Sample.two Sample.ZZx_capped Sample.objects
      (mk_polynomial_ctx Sample.ZZ 3 default_var) [1; 1] [2]
      eq_refl eq_refl eq_refl)). simpl. lia.
Defined.

(** ** Division *)

(** Two stores with the same objects are equal; a temporary that has been
    released is at a fresh address, where the store before the call had
    nothing. *)
Ltac heap_eq :=
  apply map_eq; intros ?i;
  rewrite ?lookup_delete, ?lookup_insert;
  repeat case_decide; subst; try done; try congruence;
  try (symmetry; apply fresh_unused); try apply fresh_unused.

Section division.
Context (L : gr_lib) (G : ctx_store).
Implicit Types (σ : heap L) (a b : list (E L)).

(** A call that succeeds leaves the value it computed; one that fails leaves
    what the library says a failed call leaves. *)
Lemma call_result_success {A} (r : status * A) (failed : A) :
  r.1 = GR_SUCCESS → call_result r failed = r.
Proof. intros Hs. unfold call_result. rewrite decide_True by done. by destruct r. Qed.

Lemma call_result_failure {A} (r : status * A) (failed : A) :
  r.1 ≠ GR_SUCCESS → call_result r failed = (r.1, failed).
Proof. intros Hs. unfold call_result. by rewrite decide_False. Qed.

(** What a long division leaves in the quotient does not depend on what the
    remainder held, and the other way round. *)
Lemma gr_poly_divrem_result_quot c q0 r0 r1 a b :
  (gr_poly_divrem_result L c q0 r0 a b).2.1 = (gr_poly_divrem_result L c q0 r1 a b).2.1.
Proof. unfold gr_poly_divrem_result, call_result. cbn [fst snd]. by case_decide. Qed.

Lemma gr_poly_divrem_result_rem c q0 q1 r0 a b :
  (gr_poly_divrem_result L c q0 r0 a b).2.2 = (gr_poly_divrem_result L c q1 r0 a b).2.2.
Proof. unfold gr_poly_divrem_result, call_result. cbn [fst snd]. by case_decide. Qed.

Lemma gr_poly_divrem_run Q R A B c σ a b q0 r0 :
  σ !! A = Some (CPoly a) → σ !! B = Some (CPoly b) →
  σ !! Q = Some (CPoly q0) → σ !! R = Some (CPoly r0) →
  gr_poly_divrem L Q R A B c σ
  = Some ((gr_poly_divrem_val L c a b).1,
          <[R := CPoly (gr_poly_divrem_result L c q0 r0 a b).2.2]>
            (<[Q := CPoly (gr_poly_divrem_result L c q0 r0 a b).2.1]> σ)).
Proof.
  intros HA HB HQ HR. unfold gr_poly_divrem.
  rewrite bind_run, (read_poly_run _ _ _ _ HA), bind_run, (read_poly_run _ _ _ _ HB).
  rewrite bind_run, (read_poly_run _ _ _ _ HQ), bind_run, (read_poly_run _ _ _ _ HR).
  cbv zeta. rewrite bind_run, (write_poly_run _ _ _ _ _ HQ).
  destruct (decide (R = Q)) as [->|Hne].
  - by rewrite bind_run, (write_poly_run _ Q (gr_poly_divrem_result L c q0 r0 a b).2.1)
      by apply lookup_insert_eq.
  - by rewrite bind_run, (write_poly_run _ R r0) by (by rewrite lookup_insert_ne).
Qed.

Lemma elem_ctx_run ctx e σ :
  POLYNOMIAL_ELEM_CTX G ctx = Some e → elem_ctx L G ctx σ = Some (e, σ).
Proof. intros H. unfold elem_ctx. by rewrite H. Qed.

Lemma gr_poly_clear_run p c σ cs :
  σ !! p = Some (CPoly cs) → gr_poly_clear L p c σ = Some (tt, delete p σ).
Proof. intros H. unfold gr_poly_clear. by rewrite bind_run, (read_poly_run _ _ _ _ H). Qed.

Lemma polynomial_euclidean_div_run res x y ctx σ e a b q0 :
  POLYNOMIAL_ELEM_CTX G ctx = Some e →
  σ !! x = Some (CPoly a) → σ !! y = Some (CPoly b) → σ !! res = Some (CPoly q0) →
  polynomial_euclidean_div L G res x y ctx σ
  = Some ((gr_poly_divrem_val L e a b).1,
          <[res := CPoly (gr_poly_divrem_result L e q0 [] a b).2.1]> σ).
Proof.
  intros He Hx Hy Hres.
  pose proof (fresh_ne _ _ _ _ Hx). pose proof (fresh_ne _ _ _ _ Hy).
  pose proof (fresh_ne _ _ _ _ Hres).
  unfold polynomial_euclidean_div. rewrite bind_run, (elem_ctx_run _ _ _ He).
  rewrite bind_run. unfold gr_poly_init, alloc.
  rewrite bind_run, (gr_poly_divrem_run res _ x y e _ a b q0 [])
    by (by rewrite ?lookup_insert_eq, ?lookup_insert_ne).
  rewrite bind_run, (gr_poly_clear_run _ _ _ (gr_poly_divrem_result L e q0 [] a b).2.2)
    by apply lookup_insert_eq.
  rewrite ret_run. f_equal. f_equal. heap_eq.
Qed.

Lemma polynomial_euclidean_rem_run res x y ctx σ e a b r0 :
  POLYNOMIAL_ELEM_CTX G ctx = Some e →
  σ !! x = Some (CPoly a) → σ !! y = Some (CPoly b) → σ !! res = Some (CPoly r0) →
  polynomial_euclidean_rem L G res x y ctx σ
  = Some ((gr_poly_divrem_val L e a b).1,
          <[res := CPoly (gr_poly_divrem_result L e [] r0 a b).2.2]> σ).
Proof.
  intros He Hx Hy Hres.
  pose proof (fresh_ne _ _ _ _ Hx). pose proof (fresh_ne _ _ _ _ Hy).
  pose proof (fresh_ne _ _ _ _ Hres).
  unfold polynomial_euclidean_rem. rewrite bind_run, (elem_ctx_run _ _ _ He).
  rewrite bind_run. unfold gr_poly_init, alloc.
  rewrite bind_run, (gr_poly_divrem_run _ res x y e _ a b [] r0)
    by (by rewrite ?lookup_insert_eq, ?lookup_insert_ne).
  rewrite bind_run, (gr_poly_clear_run _ _ _ (gr_poly_divrem_result L e [] r0 a b).2.1)
    by (by rewrite lookup_insert_ne, lookup_insert_eq).
  rewrite ret_run. f_equal. f_equal. heap_eq.
Qed.

Lemma polynomial_euclidean_divrem_run res1 res2 x y ctx σ e a b q0 r0 :
  POLYNOMIAL_ELEM_CTX G ctx = Some e →
  σ !! x = Some (CPoly a) → σ !! y = Some (CPoly b) →
  σ !! res1 = Some (CPoly q0) → σ !! res2 = Some (CPoly r0) →
  polynomial_euclidean_divrem L G res1 res2 x y ctx σ
  = Some ((gr_poly_divrem_val L e a b).1,
          <[res2 := CPoly (gr_poly_divrem_result L e q0 r0 a b).2.2]>
            (<[res1 := CPoly (gr_poly_divrem_result L e q0 r0 a b).2.1]> σ)).
Proof.
  intros He Hx Hy H1 H2. unfold polynomial_euclidean_divrem.
  rewrite bind_run, (elem_ctx_run _ _ _ He). by eapply gr_poly_divrem_run.
Qed.

(** C8.  With [quot] and [rem] two distinct result polynomials:
    [polynomial_euclidean_divrem] returns a status, a quotient and a
    remainder; [polynomial_euclidean_div] returns that status and stores that
    quotient, [polynomial_euclidean_rem] returns that status and stores that
    remainder, and neither changes anything else; the three results are the
    ones of the one long-division routine [gr_poly_divrem] on the base ring:
    its status, and what it leaves in a quotient that held what [quot] holds
    and in a remainder that held what [rem] holds, which after a division
    that succeeds are the quotient and the remainder it computed. *)
Theorem polynomial_euclidean_div_rem_divrem quot rem x y ctx σ e a b q0 r0 :
  POLYNOMIAL_ELEM_CTX G ctx = Some e →
  σ !! x = Some (CPoly a) → σ !! y = Some (CPoly b) →
  σ !! quot = Some (CPoly q0) → σ !! rem = Some (CPoly r0) → quot ≠ rem →
  ∃ st q r σ',
    polynomial_euclidean_divrem L G quot rem x y ctx σ = Some (st, σ')
    ∧ σ' !! quot = Some (CPoly q) ∧ σ' !! rem = Some (CPoly r)
    ∧ polynomial_euclidean_div L G quot x y ctx σ = Some (st, <[quot := CPoly q]> σ)
    ∧ polynomial_euclidean_rem L G rem x y ctx σ = Some (st, <[rem := CPoly r]> σ)
    ∧ gr_poly_divrem_result L e q0 r0 a b = (st, (q, r))
    ∧ st = (gr_poly_divrem_val L e a b).1
    ∧ (st = GR_SUCCESS → gr_poly_divrem_val L e a b = (st, (q, r))).
Proof.
  intros He Hx Hy Hq Hr Hne.
  destruct (gr_poly_divrem_result L e q0 r0 a b) as [st [q r]] eqn:Hd.
  assert (st = (gr_poly_divrem_val L e a b).1) as Hst.
  { pose proof (f_equal fst Hd) as H1. by cbn [fst] in H1. }
  exists st, q, r. eexists. split; [|split; [|split; [|split; [|split; [|split; [|split]]]]]].
  - rewrite (polynomial_euclidean_divrem_run _ _ _ _ _ _ _ _ _ _ _ He Hx Hy Hq Hr), Hd, Hst.
    reflexivity.
  - simpl. by rewrite lookup_insert_ne, lookup_insert_eq.
  - simpl. by rewrite lookup_insert_eq.
  - rewrite (polynomial_euclidean_div_run _ _ _ _ _ _ _ _ _ He Hx Hy Hq).
    by rewrite (gr_poly_divrem_result_quot e q0 [] r0), Hd, Hst.
  - rewrite (polynomial_euclidean_rem_run _ _ _ _ _ _ _ _ _ He Hx Hy Hr).
    by rewrite (gr_poly_divrem_result_rem e [] q0 r0), Hd, Hst.
  - reflexivity.
  - done.
  - intros Hs. rewrite <- Hd. symmetry. apply call_result_success. congruence.
Qed.

End division.

(** The division of [x^2] by [x + 1] over the integers: quotient [x - 1],
    remainder [1]. *)
Lemma polynomial_euclidean_div_rem_divrem_witness :
  ∃ st q r σ',
    polynomial_euclidean_divrem FmpzLib.lib Sample.contexts Sample.result Sample.zero_poly
      Sample.x_squared Sample.x_plus_1 Sample.ZZx Sample.objects = Some (st, σ')
    ∧ σ' !! Sample.result = Some (CPoly q) ∧ σ' !! Sample.zero_poly = Some (CPoly r)
    ∧ polynomial_euclidean_div FmpzLib.lib Sample.contexts Sample.result
        Sample.x_squared Sample.x_plus_1 Sample.ZZx Sample.objects
      = Some (st, <[Sample.result := CPoly q]> Sample.objects)
    ∧ polynomial_euclidean_rem FmpzLib.lib Sample.contexts Sample.zero_poly
        Sample.x_squared Sample.x_plus_1 Sample.ZZx Sample.objects
      = Some (st, <[Sample.zero_poly := CPoly r]> Sample.objects)
    ∧ gr_poly_divrem_result FmpzLib.lib Sample.ZZ [] [] [0; 0; 1] [1; 1] = (st, (q, r))
    ∧ st = (gr_poly_divrem_val FmpzLib.lib Sample.ZZ [0; 0; 1] [1; 1]).1
    ∧ (st = GR_SUCCESS
       → gr_poly_divrem_val FmpzLib.lib Sample.ZZ [0; 0; 1] [1; 1] = (st, (q, r))).
Proof.
  apply (polynomial_euclidean_div_rem_divrem FmpzLib.lib Sample.contexts
    Sample.result Sample.zero_poly Sample.x_squared Sample.x_plus_1 Sample.ZZx
    Sample.objects Sample.ZZ [0; 0; 1] [1; 1] [] []); done.
Defined.

Section polynomial_div_runs.
Context (L : gr_lib) (G : ctx_store).
Implicit Types (σ : heap L) (a b : list (E L)).

Lemma polynomial_div_long_run res x y ctx σ e a b q0 :
  POLYNOMIAL_ELEM_CTX G ctx = Some e →
  σ !! x = Some (CPoly a) → σ !! y = Some (CPoly b) → σ !! res = Some (CPoly q0) →
  length b ≠ 1%nat →
  polynomial_div L G res x y ctx σ
  = Some (div_status L e (gr_poly_divrem_val L e a b),
          <[res := CPoly (gr_poly_divrem_result L e q0 [] a b).2.1]> σ).
Proof.
  intros He Hx Hy Hres Hlen.
  pose proof (fresh_ne _ _ _ _ Hx). pose proof (fresh_ne _ _ _ _ Hy).
  pose proof (fresh_ne _ _ _ _ Hres).
  unfold polynomial_div. rewrite bind_run, (elem_ctx_run _ _ _ _ _ He).
  rewrite bind_run, (poly_length_run _ _ _ _ Hy).
  rewrite decide_False by lia.
  rewrite bind_run. unfold gr_poly_init, alloc.
  rewrite bind_run, (gr_poly_divrem_run L res _ x y e _ a b q0 [])
    by (by rewrite ?lookup_insert_eq, ?lookup_insert_ne).
  set (d := gr_poly_divrem_val L e a b).
  set (d' := gr_poly_divrem_result L e q0 [] a b).
  set (σ2 := <[fresh (dom σ) := CPoly d'.2.2]> _).
  assert (Hr : σ2 !! fresh (dom σ) = Some (CPoly d'.2.2)) by apply lookup_insert_eq.
  assert (Hfin : delete (fresh (dom σ)) σ2 = <[res := CPoly d'.2.1]> σ).
  { subst σ2. heap_eq. }
  unfold div_status. fold d.
  destruct (decide (d.1 = GR_SUCCESS)) as [Hs|Hs].
  - assert (d' = d) as Hd by (by apply call_result_success).
    rewrite bind_run. unfold gr_poly_is_zero at 1.
    rewrite !bind_run, (read_poly_run _ _ _ _ Hr), !ret_run.
    rewrite bind_run, (gr_poly_clear_run _ _ _ _ _ Hr), ret_run, Hfin.
    rewrite Hs, Hd. by destruct (gr_poly_is_zero_val L e d.2.2).
  - rewrite bind_run, ret_run, bind_run, (gr_poly_clear_run _ _ _ _ _ Hr), ret_run, Hfin.
    reflexivity.
Qed.

Lemma deref_at_coeffs_run res y σ y0 cs :
  y ≠ res → σ !! y = Some (CPoly (y0 :: cs)) →
  deref_scalar L res (at_coeffs y) σ = Some (y0, σ).
Proof.
  intros Hne Hy. unfold deref_scalar. rewrite decide_False by done.
  by rewrite bind_run, (read_poly_run _ _ _ _ Hy).
Qed.

Lemma deref_at_elem_run res t σ v :
  σ !! t = Some (CElem v) → deref_scalar L res (at_elem t) σ = Some (v, σ).
Proof. intros Ht. unfold deref_scalar. by apply read_elem_run. Qed.

(** A scalar that lives in the coefficients of the result cannot be used. *)
Lemma deref_at_coeffs_of_result res σ : deref_scalar L res (at_coeffs res) σ = None.
Proof. unfold deref_scalar. by rewrite decide_True. Qed.

Lemma gr_poly_div_scalar_run res x c e σ a v q0 :
  σ !! x = Some (CPoly a) → σ !! res = Some (CPoly q0) →
  deref_scalar L res c σ = Some (v, σ) →
  gr_poly_div_scalar L res x c e σ
  = Some ((gr_poly_div_scalar_val L e a v).1,
          <[res := CPoly (gr_poly_div_scalar_result L e q0 a v).2]> σ).
Proof.
  intros Hx Hres Hc. unfold gr_poly_div_scalar.
  rewrite bind_run, (read_poly_run _ _ _ _ Hx), bind_run, Hc.
  rewrite bind_run, (read_poly_run _ _ _ _ Hres).
  by erewrite poly_set_const_run.
Qed.

Lemma polynomial_div_scalar_run res x y ctx σ e a y0 q0 :
  POLYNOMIAL_ELEM_CTX G ctx = Some e →
  σ !! x = Some (CPoly a) → σ !! y = Some (CPoly [y0]) → σ !! res = Some (CPoly q0) →
  res ≠ y →
  polynomial_div L G res x y ctx σ
  = Some ((gr_poly_div_scalar_val L e a y0).1,
          <[res := CPoly (gr_poly_div_scalar_result L e q0 a y0).2]> σ).
Proof.
  intros He Hx Hy Hres Hne.
  unfold polynomial_div. rewrite bind_run, (elem_ctx_run _ _ _ _ _ He).
  rewrite bind_run, (poly_length_run _ _ _ _ Hy).
  rewrite decide_True by done. rewrite decide_False by done.
  eapply gr_poly_div_scalar_run; eauto.
  eapply deref_at_coeffs_run; eauto.
Qed.

Lemma polynomial_div_alias_run y x ctx σ e a y0 :
  POLYNOMIAL_ELEM_CTX G ctx = Some e →
  σ !! x = Some (CPoly a) → σ !! y = Some (CPoly [y0]) →
  let s := gr_set_result L e (gr_init_val L e) y0 in
  polynomial_div L G y x y ctx σ
  = Some (GR_SUCCESS |' s.1 |' (gr_poly_div_scalar_val L e a s.2).1,
          <[y := CPoly (gr_poly_div_scalar_result L e [y0] a s.2).2]> σ).
Proof.
  intros He Hx Hy.
  pose proof (fresh_ne _ _ _ _ Hx) as Hxt. pose proof (fresh_ne _ _ _ _ Hy) as Hyt.
  unfold polynomial_div. rewrite bind_run, (elem_ctx_run _ _ _ _ _ He).
  rewrite bind_run, (poly_length_run _ _ _ _ Hy).
  rewrite !decide_True by done. cbv zeta.
  rewrite bind_run. unfold GR_TMP_INIT, alloc.
  set (t := fresh (dom σ)) in *.
  rewrite bind_run. unfold gr_set.
  rewrite bind_run, (deref_at_coeffs_run t y _ y0 [])
    by (by rewrite ?lookup_insert_ne).
  rewrite bind_run, (read_elem_run _ t (gr_init_val L e)) by apply lookup_insert_eq.
  rewrite bind_run, (write_elem_run _ t (gr_init_val L e)) by apply lookup_insert_eq.
  rewrite ret_run.
  set (s := gr_set_result L e (gr_init_val L e) y0).
  rewrite bind_run, (gr_poly_div_scalar_run y x (at_elem t) e _ a s.2 [y0]); cycle 1.
  { by rewrite !lookup_insert_ne. }
  { by rewrite !lookup_insert_ne. }
  { apply deref_at_elem_run, lookup_insert_eq. }
  unfold GR_TMP_CLEAR.
  rewrite !bind_run, (read_elem_run _ t s.2)
    by (by rewrite lookup_insert_ne, lookup_insert_eq).
  unfold free. rewrite ret_run. f_equal. f_equal. heap_eq.
Qed.

End polynomial_div_runs.

(** ** The integer library: coefficients *)

Module FmpzFacts.
Import FmpzLib.

Abbreviation zcoef := (coef 0).
Notation "p ≈ q" := (peqv 0 p q) (at level 70, no associativity).

Lemma coef_nil i : zcoef [] i = 0.
Proof. by destruct i. Qed.

Lemma coef_cons_0 a (p : list Z) : zcoef (a :: p) 0 = a.
Proof. reflexivity. Qed.

Lemma coef_cons_S a (p : list Z) i : zcoef (a :: p) (S i) = zcoef p i.
Proof. reflexivity. Qed.

Lemma peqv_sym (p q : list Z) : p ≈ q → q ≈ p.
Proof. intros H i. by rewrite H. Qed.

Lemma peqv_trans (p q r : list Z) : p ≈ q → q ≈ r → p ≈ r.
Proof. intros H1 H2 i. by rewrite H1, H2. Qed.

Lemma peqv_cons a (p q : list Z) : p ≈ q → a :: p ≈ a :: q.
Proof. intros H [|i]; [done|]. by rewrite !coef_cons_S. Qed.

Lemma peqv_cons_inv a b (p q : list Z) : a :: p ≈ b :: q → a = b ∧ p ≈ q.
Proof. intros H. split; [apply (H 0%nat)|]. intros i. apply (H (S i)). Qed.

Lemma peqv_nil_cons_inv b (q : list Z) : b :: q ≈ [] → b = 0 ∧ q ≈ [].
Proof.
  intros H. split; [apply (H 0%nat)|]. intros i.
  specialize (H (S i)). by rewrite coef_cons_S, !coef_nil in *.
Qed.

Lemma coef_zadd (p q : list Z) i : zcoef (zadd p q) i = zcoef p i + zcoef q i.
Proof.
  revert q i. induction p as [|a p IH]; intros q i.
  - by rewrite coef_nil.
  - destruct q as [|b q].
    + rewrite coef_nil. unfold zadd. simpl. lia.
    + destruct i as [|i]; [done|]. apply (IH q i).
Qed.

Lemma coef_zneg (p : list Z) i : zcoef (zneg p) i = - zcoef p i.
Proof.
  revert i. induction p as [|a p IH]; intros [|i]; try done. apply (IH i).
Qed.

Lemma coef_zsub (p q : list Z) i : zcoef (zsub p q) i = zcoef p i - zcoef q i.
Proof. unfold zsub. rewrite coef_zadd, coef_zneg. lia. Qed.

Lemma coef_zscale c (p : list Z) i : zcoef (zscale c p) i = c * zcoef p i.
Proof.
  revert i. induction p as [|a p IH]; intros [|i].
  - rewrite coef_nil. unfold zscale. simpl. rewrite coef_nil. lia.
  - rewrite coef_nil. unfold zscale. simpl. rewrite coef_nil. lia.
  - reflexivity.
  - apply (IH i).
Qed.

Lemma coef_zmul_cons a (p q : list Z) i :
  zcoef (zmul (a :: p) q) i = a * zcoef q i + zcoef (0 :: zmul p q) i.
Proof. unfold zmul at 1. simpl. fold (zmul p q). by rewrite (coef_zadd _ _ i), coef_zscale. Qed.

Lemma zmul_nil (q : list Z) : zmul [] q = [].
Proof. reflexivity. Qed.

(** *** Normalisation *)

Lemma normalise_peqv (p : list Z) : normalise p ≈ p.
Proof.
  induction p as [|a p IH]; [done|]. simpl.
  destruct (normalise p) as [|b r] eqn:Hn.
  - destruct (decide (a = 0)) as [->|Ha].
    + intros [|i]; [done|]. rewrite coef_nil, coef_cons_S. by rewrite <-IH, coef_nil.
    + by apply peqv_cons.
  - by apply peqv_cons.
Qed.




(** *** Congruences *)

Lemma zadd_peqv (p p' q q' : list Z) : p ≈ p' → q ≈ q' → zadd p q ≈ zadd p' q'.
Proof. intros Hp Hq i. by rewrite !coef_zadd, Hp, Hq. Qed.

Lemma zmul_zero_l (p q : list Z) : p ≈ [] → zmul p q ≈ [].
Proof.
  induction p as [|a p IH]; [done|]. intros [-> H]%peqv_nil_cons_inv i.
  rewrite coef_zmul_cons, coef_nil. destruct i as [|i].
  - rewrite coef_cons_0. lia.
  - rewrite coef_cons_S, (IH H), coef_nil. lia.
Qed.

Lemma zmul_peqv_l (p p' q : list Z) : p ≈ p' → zmul p q ≈ zmul p' q.
Proof.
  revert p'. induction p as [|a p IH]; intros p' H.
  - apply peqv_sym, zmul_zero_l. by apply peqv_sym.
  - destruct p' as [|b p'].
    + by apply zmul_zero_l.
    + apply peqv_cons_inv in H as [-> H].
      intros i. rewrite !coef_zmul_cons. f_equal.
      by apply peqv_cons, IH.
Qed.

(** *** Long division *)

Lemma last_coef (s : list Z) : List.last s 0 = zcoef s (length s - 1).
Proof.
  induction s as [|a s IH]; [done|]. destruct s as [|b s]; [done|].
  change (List.last (a :: b :: s) 0) with (List.last (b :: s) 0). rewrite IH.
  simpl. by rewrite Nat.sub_0_r.
Qed.

Lemma removelast_peqv (s : list Z) : List.last s 0 = 0 → removelast s ≈ s.
Proof.
  induction s as [|a s IH]; [done|]. destruct s as [|b s].
  - simpl. intros -> [|i]; [done|]. by rewrite coef_cons_S, !coef_nil.
  - intros H. change (removelast (a :: b :: s)) with (a :: removelast (b :: s)).
    by apply peqv_cons, IH.
Qed.

Lemma removelast_length (s : list Z) : length (removelast s) = (length s - 1)%nat.
Proof.
  induction s as [|a s IH]; [done|]. destruct s as [|b s]; [done|].
  change (removelast (a :: b :: s)) with (a :: removelast (b :: s)).
  simpl in *. rewrite IH. lia.
Qed.

Lemma zadd_length (p q : list Z) : length (zadd p q) = (length p `max` length q)%nat.
Proof.
  revert q. induction p as [|a p IH]; intros [|b q]; simpl; try done.
  f_equal. apply IH.
Qed.

Lemma zsub_zscale_length c (s y : list Z) :
  length s = length y → length (zsub s (zscale c y)) = length y.
Proof.
  intros H. unfold zsub, zneg, zscale, pscale.
  rewrite zadd_length, !length_map. lia.
Qed.

Lemma divrem_aux_cons a (x y : list Z) ly m :
  divrem_aux (a :: x) y ly m
  = match divrem_aux x y ly m with
    | None => None
    | Some (q', r') =>
        if decide (length (a :: r') < m)%nat then Some (0 :: q', a :: r')
        else if decide (List.last (a :: r') 0 mod ly = 0)
             then Some (List.last (a :: r') 0 / ly :: q',
                        removelast (zsub (a :: r') (zscale (List.last (a :: r') 0 / ly) y)))
             else None
    end.
Proof. reflexivity. Qed.

(** [divrem_aux] returns a quotient and a remainder shorter than the divisor
    with [x = q y + r]. *)
Lemma divrem_aux_sound (y : list Z) ly (x q r : list Z) :
  y ≠ [] → ly = List.last y 0 → ly ≠ 0 →
  divrem_aux x y ly (length y) = Some (q, r) →
  (length r < length y)%nat ∧ x ≈ zadd (zmul q y) r.
Proof.
  intros Hy Hly Hnz. revert q r.
  induction x as [|a x IH]; intros q r Hdiv.
  - inversion Hdiv; subst. split; [destruct y; simpl; [done|lia]|done].
  - rewrite divrem_aux_cons in Hdiv.
    destruct (divrem_aux x y ly (length y)) as [[q' r']|]; [|done].
    destruct (IH q' r' eq_refl) as [Hlen Heq].
    destruct (decide (length (a :: r') < length y)%nat) as [Hshort|Hfull].
    + inversion Hdiv; subst q r. split; [done|].
      intros i. rewrite coef_zadd, coef_zmul_cons. destruct i as [|i].
      * rewrite !coef_cons_0. lia.
      * rewrite !coef_cons_S, (Heq i), coef_zadd. lia.
    + destruct (decide (List.last (a :: r') 0 mod ly = 0)) as [Hmod|]; [|done].
      assert (Hs : length (a :: r') = length y) by (simpl in *; lia).
      set (s := a :: r') in *. set (c := List.last s 0 / ly) in *.
      injection Hdiv as <- <-.
      assert (Hc : List.last s 0 = c * ly).
      { subst c. rewrite Z.mul_comm. by apply Z_div_exact_full_2. }
      assert (Htop : List.last (zsub s (zscale c y)) 0 = 0).
      { rewrite last_coef, zsub_zscale_length, coef_zsub, coef_zscale by done.
        rewrite <-Hs at 1. rewrite <-!last_coef, Hc, <-Hly. lia. }
      split.
      * rewrite removelast_length, zsub_zscale_length by done.
        destruct y; simpl in *; [done|lia].
      * intros i. rewrite coef_zadd, coef_zmul_cons.
        rewrite (removelast_peqv _ Htop i), coef_zsub, coef_zscale.
        subst s. destruct i as [|i].
        -- rewrite !coef_cons_0. lia.
        -- rewrite !coef_cons_S, (Heq i), coef_zadd. lia.
Qed.

Lemma fmpz_divrem_sound (x y q r : list Z) :
  divrem x y = (GR_SUCCESS, (q, r)) → x ≈ zadd (zmul q y) r.
Proof.
  unfold divrem. destruct y as [|b y]; [done|].
  set (y' := b :: y). intros H.
  destruct (decide (List.last y' 0 = 0)); [done|].
  destruct (divrem_aux x y' _ _) as [[q0 r0]|] eqn:Haux; [|done].
  inversion H; subst q r.
  destruct (divrem_aux_sound y' _ x q0 r0 ltac:(done) eq_refl ltac:(done) Haux) as [_ Heq].
  eapply peqv_trans; [exact Heq|].
  apply zadd_peqv.
  - apply zmul_peqv_l, peqv_sym, normalise_peqv.
  - apply peqv_sym, normalise_peqv.
Qed.

(** The remainder of a successful division is shorter than the divisor. *)
Lemma divrem_remainder_short (x y q r : list Z) :
  divrem x y = (GR_SUCCESS, (q, r)) → (length r < length y)%nat.
Proof.
  unfold divrem. destruct y as [|b y]; [done|].
  set (y' := b :: y). intros H.
  destruct (decide (List.last y' 0 = 0)); [done|].
  destruct (divrem_aux x y' _ _) as [[q0 r0]|] eqn:Haux; [|done].
  inversion H; subst q r.
  destruct (divrem_aux_sound y' _ x q0 r0 ltac:(done) eq_refl ltac:(done) Haux) as [Hlen _].
  eapply Nat.le_lt_trans; [|exact Hlen]. clear.
  induction r0 as [|a r0 IH]; [done|]. simpl.
  destruct (normalise r0); [destruct (decide (a = 0)); simpl; lia|simpl in *; lia].
Qed.

(** *** Scalars *)

Lemma coef_zmul_const (l : list Z) c i : zcoef (zmul l [c]) i = zcoef l i * c.
Proof.
  revert i. induction l as [|a l IH]; intros i.
  - rewrite zmul_nil, coef_nil. lia.
  - rewrite coef_zmul_cons. destruct i as [|i].
    + rewrite !coef_cons_0. lia.
    + rewrite !coef_cons_S, coef_nil, IH. lia.
Qed.



Lemma coef_map_div (x : list Z) c i :
  forallb (λ a, bool_decide (a `mod` c = 0)) x = true → c ≠ 0 →
  zcoef (map (λ a, a `div` c) x) i * c = zcoef x i.
Proof.
  intros Hall Hc. revert i. induction x as [|a x IH]; intros i.
  - simpl. rewrite coef_nil. lia.
  - simpl in Hall. apply andb_true_iff in Hall as [Ha Hall].
    apply bool_decide_eq_true in Ha. destruct i as [|i].
    + simpl. rewrite !coef_cons_0. rewrite Z.mul_comm. symmetry.
      by apply Z_div_exact_full_2.
    + simpl. rewrite !coef_cons_S. by apply IH.
Qed.

Lemma fmpz_div_scalar_sound (x : list Z) c q :
  div_scalar x c = (GR_SUCCESS, q) → x ≈ zmul q [c].
Proof.
  unfold div_scalar. destruct (decide (c = 0)); [done|].
  destruct (forallb _ x) eqn:Hall; [|done].
  intros [= <-]. apply peqv_sym.
  eapply peqv_trans; [apply zmul_peqv_l, normalise_peqv|].
  intros i. rewrite coef_zmul_const. by apply coef_map_div.
Qed.

Lemma fmpz_is_zero_sound (r : list Z) : is_zero r = T_TRUE → r ≈ [].
Proof.
  unfold is_zero. destruct (normalise r) eqn:Hn; [|done]. intros _.
  rewrite <-Hn. apply peqv_sym, normalise_peqv.
Qed.

(** The integer library keeps the contract that the division law needs. *)
Lemma division_contract_fmpz e : division_contract lib e 0 Z.add Z.mul.
Proof.
  split.
  - intros x y q r. apply fmpz_divrem_sound.
  - apply fmpz_is_zero_sound.
  - intros x c q. apply fmpz_div_scalar_sound.
  - by intros c c' [= ->].
  - intros u. apply Z.add_0_r.
Qed.

(** *** The scalar variants of the integer library *)





End FmpzFacts.

(** ** [polynomial_div] *)

Section polynomial_div_theorems.
Context (L : gr_lib) (G : ctx_store).
Implicit Types (σ : heap L) (a b : list (E L)).

Lemma status_or_success (s1 s2 : status) :
  s1 |' s2 = GR_SUCCESS ↔ s1 = GR_SUCCESS ∧ s2 = GR_SUCCESS.
Proof. unfold status_or, GR_SUCCESS. apply Z.lor_eq_0_iff. Qed.

Lemma div_status_success e d :
  div_status L e d = GR_SUCCESS ↔
  d.1 = GR_SUCCESS ∧ gr_poly_is_zero_val L e d.2.2 = T_TRUE.
Proof.
  unfold div_status. destruct (decide (d.1 = GR_SUCCESS)) as [Hs|Hs].
  - destruct (gr_poly_is_zero_val L e d.2.2); split; try done; by intros [_ ?].
  - split; [done|]. by intros [? _].
Qed.

Section law.
Context (e : gr_ctx_t) (zero : E L) (add mul : E L → E L → E L).
Context (contract : division_contract L e zero add mul).

Lemma peqv_padd_zero_r (p r : list (E L)) :
  peqv zero r [] → peqv zero (padd add p r) p.
Proof.
  revert r. induction p as [|u p IH]; intros r Hr; [done|].
  destruct r as [|v r]; [done|].
  assert (Hv : v = zero) by apply (Hr 0%nat).
  assert (Hr' : peqv zero r []).
  { intros i. specialize (Hr (S i)). by destruct i. }
  intros [|i].
  - unfold coef. simpl. rewrite Hv. apply (add_zero_r _ _ _ _ _ contract).
  - apply (IH r Hr' i).
Qed.

(** Exact long division: [x = q y + r] with [r] zero gives [q y = x]. *)
Lemma long_division_law (x y : list (E L)) d :
  gr_poly_divrem_val L e x y = d → div_status L e d = GR_SUCCESS →
  peqv zero (pmul zero add mul d.2.1 y) x.
Proof.
  intros Hd [Hs Hz]%div_status_success. destruct d as [st [q r]]. simpl in *. subst st.
  pose proof (divrem_sound _ _ _ _ _ contract _ _ _ _ Hd) as Hx.
  pose proof (is_zero_sound _ _ _ _ _ contract _ Hz) as Hr.
  intros i. rewrite (Hx i). symmetry. apply (peqv_padd_zero_r _ _ Hr i).
Qed.

Lemma scalar_division_law (x : list (E L)) c r :
  gr_poly_div_scalar_val L e x c = r → r.1 = GR_SUCCESS →
  peqv zero (pmul zero add mul r.2 [c]) x.
Proof.
  intros Hr Hs. destruct r as [st q]. simpl in *. subst st.
  intros i. symmetry. apply (div_scalar_sound _ _ _ _ _ contract _ _ _ Hr).
Qed.

End law.

(** C1 (as amended).  [polynomial_div] always returns, and:
    - when [y] does not have length 1 it runs the long division
      [gr_poly_divrem] with [res] as the quotient; a failure of the long
      division is returned as it is, without a look at the remainder, and
      [polynomial_div] stores nothing itself: [res] holds what the failed
      long division left of what it held; after a successful long division
      [res] holds the quotient and the status is Success exactly when the
      remainder is found to be zero, Domain-error when it is found to be
      nonzero and Unable when that cannot be decided;
    - when [y] has length 1 and [res] is another object, every coefficient of
      [x] is divided by the scalar [y[0]] read in place: the status is the
      one of that division, whose quotient [res] holds if it succeeded;
    - when [y] has length 1 and [res] is [y] itself, the scalar is first
      copied ([gr_set]) into a new element and [x] is divided by what that
      element then holds, the statuses of the copy and of the division being
      accumulated;
    - whenever the status is Success and the collaborating code keeps
      [division_contract], the quotient [q] stored in [res] satisfies
      [q * y = x], for the values [x] and [y] had at the call. *)
Theorem polynomial_div_cases res x y ctx σ e a b q0 :
  POLYNOMIAL_ELEM_CTX G ctx = Some e →
  σ !! x = Some (CPoly a) → σ !! y = Some (CPoly b) → σ !! res = Some (CPoly q0) →
  ∃ st σ',
    polynomial_div L G res x y ctx σ = Some (st, σ')
    ∧ (length b ≠ 1%nat →
       let d := gr_poly_divrem_val L e a b in
       (d.1 ≠ GR_SUCCESS →
        st = d.1
        ∧ σ' = <[res := CPoly (gr_poly_divrem_failed_quot_val L e q0 a b)]> σ)
       ∧ (d.1 = GR_SUCCESS →
          σ' = <[res := CPoly d.2.1]> σ
          ∧ (st = GR_SUCCESS ↔ gr_poly_is_zero_val L e d.2.2 = T_TRUE)
          ∧ (gr_poly_is_zero_val L e d.2.2 = T_FALSE → st = GR_DOMAIN)
          ∧ (gr_poly_is_zero_val L e d.2.2 = T_UNKNOWN → st = GR_UNABLE)))
    ∧ (∀ y0, b = [y0] → res ≠ y →
       let r := gr_poly_div_scalar_val L e a y0 in
       st = r.1
       ∧ (r.1 = GR_SUCCESS → σ' = <[res := CPoly r.2]> σ)
       ∧ (r.1 ≠ GR_SUCCESS →
          σ' = <[res := CPoly (gr_poly_div_scalar_failed_val L e q0 a y0)]> σ))
    ∧ (∀ y0, b = [y0] → res = y →
       let s := gr_set_result L e (gr_init_val L e) y0 in
       let r := gr_poly_div_scalar_val L e a s.2 in
       st = GR_SUCCESS |' s.1 |' r.1
       ∧ (r.1 = GR_SUCCESS → σ' = <[res := CPoly r.2]> σ)
       ∧ (r.1 ≠ GR_SUCCESS →
          σ' = <[res := CPoly (gr_poly_div_scalar_failed_val L e b a s.2)]> σ))
    ∧ (∀ zero add mul, division_contract L e zero add mul →
       st = GR_SUCCESS →
       ∃ q, σ' !! res = Some (CPoly q) ∧ peqv zero (pmul zero add mul q b) a).
Proof.
  intros He Hx Hy Hres.
  destruct (decide (length b = 1%nat)) as [Hlen|Hlen].
  - destruct b as [|y0 [|? ?]]; try done. clear Hlen.
    destruct (decide (res = y)) as [->|Hne].
    + eexists _, _. split; [by apply polynomial_div_alias_run|].
      split; [done|]. split; [done|]. split.
      * intros ? [= <-] _. cbv zeta. unfold gr_poly_div_scalar_result.
        split; [done|]. split; intros Hs.
        -- by rewrite call_result_success.
        -- by rewrite call_result_failure.
      * intros zero add mul contract [[_ Hs]%status_or_success Hr]%status_or_success.
        eexists. split; [apply lookup_insert_eq|].
        unfold gr_poly_div_scalar_result. rewrite call_result_success by done.
        unfold gr_set_result in *. rewrite call_result_success in * by done.
        destruct (gr_set_val L e y0) as [s c'] eqn:Hset. simpl in *. subst s.
        rewrite (gr_set_copies _ _ _ _ _ contract _ _ Hset) in *.
        by eapply scalar_division_law.
    + eexists _, _. split; [by eapply polynomial_div_scalar_run|].
      split; [done|]. split; [|split; [done|]].
      * intros ? [= <-] _. cbv zeta. unfold gr_poly_div_scalar_result.
        split; [done|]. split; intros Hs.
        -- by rewrite call_result_success.
        -- by rewrite call_result_failure.
      * intros zero add mul contract Hs.
        eexists. split; [apply lookup_insert_eq|].
        unfold gr_poly_div_scalar_result. rewrite call_result_success by done.
        by eapply scalar_division_law.
  - eexists _, _. split; [by eapply polynomial_div_long_run|].
    split; [|split; [|split]].
    + intros _. cbv zeta. set (d := gr_poly_divrem_val L e a b).
      unfold div_status, gr_poly_divrem_result. fold d.
      destruct (decide (d.1 = GR_SUCCESS)) as [Hs|Hs]; split; try done.
      * intros _. rewrite call_result_success by done.
        split; [done|]. by destruct (gr_poly_is_zero_val L e d.2.2).
      * intros _. by rewrite call_result_failure.
    + intros y0 ->. done.
    + intros y0 ->. done.
    + intros zero add mul contract Hs.
      eexists. split; [apply lookup_insert_eq|].
      apply div_status_success in Hs as Hs'. destruct Hs' as [Hd _].
      unfold gr_poly_divrem_result. rewrite call_result_success by done.
      by eapply long_division_law.
Qed.

End polynomial_div_theorems.

(** Over the integers: [x^2 - 1] divided by [x + 1] is a Success, the
    quotient [x - 1] is stored and [(x - 1) (x + 1) = x^2 - 1]; [x^2 - 1]
    divided by [x^2] leaves the remainder [-1], a domain error; [2 x]
    divided by the constant 2 is [x], also when the result is the divisor
    itself; and [x^2 - 1] divided by the zero polynomial is a domain error
    that leaves the result, which held [x + 1], as it was. *)
Lemma polynomial_div_cases_witness :
  (polynomial_div FmpzLib.lib Sample.contexts Sample.result Sample.x_squared_minus_1
     Sample.x_plus_1 Sample.ZZx Sample.objects
   = Some (GR_SUCCESS, <[Sample.result := CPoly [-1; 1]]> Sample.objects)
   ∧ peqv 0 (pmul 0 Z.add Z.mul [-1; 1] [1; 1]) [-1; 0; 1])
  ∧ polynomial_div FmpzLib.lib Sample.contexts Sample.result Sample.x_squared_minus_1
      Sample.x_squared Sample.ZZx Sample.objects
    = Some (GR_DOMAIN, <[Sample.result := CPoly [1]]> Sample.objects)
  ∧ polynomial_div FmpzLib.lib Sample.contexts Sample.result Sample.two_x
      Sample.two Sample.ZZx Sample.objects
    = Some (GR_SUCCESS, <[Sample.result := CPoly [0; 1]]> Sample.objects)
  ∧ polynomial_div FmpzLib.lib Sample.contexts Sample.two Sample.two_x
      Sample.two Sample.ZZx Sample.objects
    = Some (GR_SUCCESS, <[Sample.two := CPoly [0; 1]]> Sample.objects)
  ∧ polynomial_div FmpzLib.lib Sample.contexts Sample.x_plus_1 Sample.x_squared_minus_1
      Sample.zero_poly Sample.ZZx Sample.objects
    = Some (GR_DOMAIN, <[Sample.x_plus_1 := CPoly [1; 1]]> Sample.objects).
Proof.
  pose proof (λ res x y a b q0, polynomial_div_cases FmpzLib.lib Sample.contexts res x y
    Sample.ZZx Sample.objects Sample.ZZ a b q0 eq_refl) as cases.
  split; [|split; [|split; [|split]]].
  - destruct (cases Sample.result Sample.x_squared_minus_1 Sample.x_plus_1
      [-1; 0; 1] [1; 1] [] eq_refl eq_refl eq_refl)
      as (st & σ' & Hrun & Hlong & _ & _ & Hlaw).
    destruct (Hlong ltac:(done)) as (_ & Hst).
    destruct (Hst eq_refl) as (Hσ' & [_ Hsuccess] & _ & _).
    specialize (Hsuccess eq_refl). subst st σ'.
    split; [exact Hrun|].
    destruct (Hlaw 0 Z.add Z.mul (FmpzFacts.division_contract_fmpz Sample.ZZ) eq_refl)
      as (q & Hq & Hlaw').
    rewrite lookup_insert_eq in Hq. injection Hq as <-. exact Hlaw'.
  - destruct (cases Sample.result Sample.x_squared_minus_1 Sample.x_squared
      [-1; 0; 1] [0; 0; 1] [] eq_refl eq_refl eq_refl)
      as (st & σ' & Hrun & Hlong & _).
    destruct (Hlong ltac:(done)) as (_ & Hst).
    destruct (Hst eq_refl) as (Hσ' & _ & Hdomain & _).
    specialize (Hdomain eq_refl). by subst st σ'.
  - destruct (cases Sample.result Sample.two_x Sample.two [0; 2] [2] []
      eq_refl eq_refl eq_refl) as (st & σ' & Hrun & _ & Hscalar & _).
    destruct (Hscalar 2 eq_refl ltac:(done)) as (Hst & Hσ' & _).
    specialize (Hσ' eq_refl). by subst st σ'.
  - destruct (cases Sample.two Sample.two_x Sample.two [0; 2] [2] [2]
      eq_refl eq_refl eq_refl) as (st & σ' & Hrun & _ & _ & Halias & _).
    destruct (Halias 2 eq_refl eq_refl) as (Hst & Hσ' & _).
    specialize (Hσ' eq_refl). by subst st σ'.
  - destruct (cases Sample.x_plus_1 Sample.x_squared_minus_1 Sample.zero_poly
      [-1; 0; 1] [] [1; 1] eq_refl eq_refl eq_refl)
      as (st & σ' & Hrun & Hlong & _).
    destruct (Hlong ltac:(done)) as (Hfail & _).
    destruct (Hfail ltac:(done)) as [Hst Hσ']. by subst st σ'.
Defined.

(** The claim as the spec words it fails when the long division itself
    fails.  [x^2 - 1] divided by the zero polynomial (of length 0, not 1):
    the long division reports a domain error before it has written anything,
    so that the remainder is the zero polynomial it was created as; that
    remainder is found to be zero, and yet the status of [polynomial_div] is
    Domain-error and not Success. *)
Lemma polynomial_div_by_zero_counterexample :
  let d := gr_poly_divrem_result FmpzLib.lib Sample.ZZ [] [] [-1; 0; 1] [] in
  length ([] : list Z) ≠ 1%nat
  ∧ polynomial_div FmpzLib.lib Sample.contexts Sample.result Sample.x_squared_minus_1
      Sample.zero_poly Sample.ZZx Sample.objects
    = Some (GR_DOMAIN, <[Sample.result := CPoly d.2.1]> Sample.objects)
  ∧ gr_poly_is_zero_val FmpzLib.lib Sample.ZZ d.2.2 = T_TRUE
  ∧ ¬ (GR_DOMAIN = GR_SUCCESS ↔ gr_poly_is_zero_val FmpzLib.lib Sample.ZZ d.2.2 = T_TRUE).
Proof.
  cbv zeta. split; [done|]. split; [by vm_compute|]. split; [done|].
  intros [_ H]. by specialize (H eq_refl).
Qed.

(** ** The scalar variants *)

Section scalar_variants_theorems.
Context (L : gr_lib) (G : ctx_store).
Implicit Types (σ : heap L) (a : list (E L)).




Lemma polynomial_init_run ctx e σ :
  POLYNOMIAL_ELEM_CTX G ctx = Some e →
  polynomial_init L G ctx σ = Some (fresh (dom σ), <[fresh (dom σ) := CPoly []]> σ).
Proof.
  intros He. unfold polynomial_init. by rewrite bind_run, (elem_ctx_run _ _ _ _ _ He).
Qed.

Lemma polynomial_clear_run t ctx e σ cs :
  POLYNOMIAL_ELEM_CTX G ctx = Some e → σ !! t = Some (CPoly cs) →
  polynomial_clear L G t ctx σ = Some (tt, delete t σ).
Proof.
  intros He Ht. unfold polynomial_clear.
  rewrite bind_run, (elem_ctx_run _ _ _ _ _ He). by eapply gr_poly_clear_run.
Qed.


End scalar_variants_theorems.



(** ** Coercion: [polynomial_set_other] *)

Section set_other_theorems.
Context (L : gr_lib) (G : ctx_store).
Implicit Types (σ : heap L).

Lemma POLYNOMIAL_ELEM_CTX_of ctx p :
  POLYNOMIAL_CTX G ctx = Some p → POLYNOMIAL_ELEM_CTX G ctx = Some (base_ring p).
Proof. intros Hp. unfold POLYNOMIAL_ELEM_CTX. by rewrite Hp. Qed.

(** A context that is a polynomial ring with the generator name of [ctx]. *)
Lemma is_gr_poly_with_same_var_true x_ctx ctx :
  is_gr_poly_with_same_var G x_ctx ctx = Some true ↔
  ∃ xc xp p s,
    G !! x_ctx = Some xc ∧ which_ring xc = GR_CTX_GR_POLY
    ∧ POLYNOMIAL_CTX G x_ctx = Some xp ∧ POLYNOMIAL_CTX G ctx = Some p
    ∧ c_str (var xp) = Some s ∧ c_str (var p) = Some s.
Proof.
  unfold is_gr_poly_with_same_var, ctx_which_ring, same_var, strcmp_eq. split.
  - destruct (G !! x_ctx) as [xc|] eqn:Hxc; simpl; [|done].
    destruct (decide (which_ring xc = GR_CTX_GR_POLY)) as [Hk|]; [|done].
    destruct (POLYNOMIAL_CTX G x_ctx) as [xp|] eqn:Hxp; simpl; [|done].
    destruct (POLYNOMIAL_CTX G ctx) as [p|] eqn:Hp; simpl; [|done].
    destruct (c_str (var xp)) as [s|] eqn:Hs; simpl; [|done].
    destruct (c_str (var p)) as [s'|] eqn:Hs'; simpl; [|done].
    intros [= ->%bool_decide_eq_true]. by exists xc, xp, p, s'.
  - intros (xc & xp & p & s & Hxc & Hk & Hxp & Hp & Hs & Hs').
    rewrite Hxc. simpl. rewrite decide_True by done.
    rewrite Hxp, Hp. simpl. rewrite Hs, Hs'. simpl.
    by rewrite bool_decide_eq_true_2.
Qed.

Lemma gr_poly_set_gr_poly_other_run res x xe c σ v r0 :
  σ !! x = Some v → σ !! res = Some (CPoly r0) →
  gr_poly_set_gr_poly_other L res x xe c σ
  = Some ((gr_poly_set_gr_poly_other_val L xe c v).1,
          <[res := CPoly (gr_poly_set_gr_poly_other_val L xe c v).2]> σ).
Proof.
  intros Hx Hres. unfold gr_poly_set_gr_poly_other.
  rewrite bind_run, (read_cell_run _ _ _ _ Hx). by eapply poly_set_const_run.
Qed.

(** The first five rules of the chain, up to the test for a vector. *)
Lemma polynomial_set_other_head res x x_ctx ctx σ p :
  POLYNOMIAL_CTX G ctx = Some p →
  (x_ctx = ctx →
   polynomial_set_other L G res x x_ctx ctx σ = gr_poly_set L res x (base_ring p) σ)
  ∧ (x_ctx ≠ ctx → x_ctx = base_ring p →
     polynomial_set_other L G res x x_ctx ctx σ
     = gr_poly_set_scalar L res x (base_ring p) σ)
  ∧ (x_ctx ≠ ctx → x_ctx ≠ base_ring p →
     is_gr_poly_with_same_var G x_ctx ctx = Some true →
     ∀ xp, POLYNOMIAL_CTX G x_ctx = Some xp →
     polynomial_set_other L G res x x_ctx ctx σ
     = gr_poly_set_gr_poly_other L res x (base_ring xp) (base_ring p) σ)
  ∧ (x_ctx ≠ ctx → x_ctx ≠ base_ring p →
     is_gr_poly_with_same_var G x_ctx ctx = Some false →
     ctx_which_ring G x_ctx = Some GR_CTX_FMPZ_POLY →
     polynomial_set_other L G res x x_ctx ctx σ
     = gr_poly_set_fmpz_poly L res x (base_ring p) σ)
  ∧ (x_ctx ≠ ctx → x_ctx ≠ base_ring p →
     is_gr_poly_with_same_var G x_ctx ctx = Some false →
     ctx_which_ring G x_ctx = Some GR_CTX_FMPQ_POLY →
     polynomial_set_other L G res x x_ctx ctx σ
     = gr_poly_set_fmpq_poly L res x (base_ring p) σ).
Proof.
  intros Hp. pose proof (POLYNOMIAL_ELEM_CTX_of _ _ Hp) as He.
  unfold polynomial_set_other. repeat split.
  - intros ->. rewrite decide_True by done. unfold polynomial_set.
    by rewrite bind_run, (elem_ctx_run _ _ _ _ _ He).
  - intros Hne ->. rewrite decide_False by done.
    rewrite bind_run, (elem_ctx_run _ _ _ _ _ He). by rewrite decide_True.
  - intros Hne Hne' Hsame xp Hxp. rewrite decide_False by done.
    rewrite bind_run, (elem_ctx_run _ _ _ _ _ He). rewrite decide_False by done.
    rewrite Hsame, bind_run, lift_opt_run.
    by rewrite bind_run, (elem_ctx_run _ _ _ _ _ (POLYNOMIAL_ELEM_CTX_of _ _ Hxp)).
  - intros Hne Hne' Hsame Hk. rewrite decide_False by done.
    rewrite bind_run, (elem_ctx_run _ _ _ _ _ He). rewrite decide_False by done.
    rewrite Hsame, bind_run, lift_opt_run. rewrite Hk, bind_run, lift_opt_run.
    by rewrite decide_True.
  - intros Hne Hne' Hsame Hk. rewrite decide_False by done.
    rewrite bind_run, (elem_ctx_run _ _ _ _ _ He). rewrite decide_False by done.
    rewrite Hsame, bind_run, lift_opt_run. rewrite Hk, bind_run, lift_opt_run.
    rewrite decide_False by done. by rewrite decide_True.
Qed.

(** The rule for vectors. *)
Lemma polynomial_set_other_vec res x x_ctx ctx σ p es v r0 :
  POLYNOMIAL_CTX G ctx = Some p →
  x_ctx ≠ ctx → x_ctx ≠ base_ring p →
  is_gr_poly_with_same_var G x_ctx ctx = Some false →
  ctx_which_ring G x_ctx = Some GR_CTX_GR_VEC →
  VECTOR_CTX G x_ctx = Some v →
  σ !! x = Some (CVec es) → σ !! res = Some (CPoly r0) →
  polynomial_set_other L G res x x_ctx ctx σ
  = Some ((gr_poly_set_gr_poly_other_val L (vec_base_ring v) (base_ring p)
             (CPolyOther es)).1,
          <[res := CPoly (gr_poly_set_gr_poly_other_val L (vec_base_ring v) (base_ring p)
                            (CPolyOther es)).2]> σ).
Proof.
  intros Hp Hne Hne' Hsame Hk Hv Hx Hres.
  pose proof (POLYNOMIAL_ELEM_CTX_of _ _ Hp) as He.
  pose proof (fresh_ne _ _ _ _ Hres) as Hrt.
  unfold polynomial_set_other. rewrite decide_False by done.
  rewrite bind_run, (elem_ctx_run _ _ _ _ _ He). rewrite decide_False by done.
  rewrite Hsame, bind_run, lift_opt_run. rewrite Hk, bind_run, lift_opt_run.
  rewrite !decide_False by done. rewrite decide_True by done.
  rewrite bind_run. unfold vec_as_poly.
  rewrite bind_run, (read_cell_run _ _ _ _ Hx). unfold alloc.
  rewrite Hv, bind_run, lift_opt_run.
  set (t := fresh (dom σ)) in *.
  rewrite bind_run, (gr_poly_set_gr_poly_other_run res t _ _ _ (CPolyOther es) r0)
    by (by rewrite ?lookup_insert_eq, ?lookup_insert_ne).
  rewrite bind_run. unfold free. rewrite ret_run. f_equal. f_equal. heap_eq.
Qed.

(** The last rule: coercion of a single scalar. *)
Lemma polynomial_set_other_fallback res x x_ctx ctx σ p k v r0 :
  POLYNOMIAL_CTX G ctx = Some p →
  x_ctx ≠ ctx → x_ctx ≠ base_ring p →
  is_gr_poly_with_same_var G x_ctx ctx = Some false →
  ctx_which_ring G x_ctx = Some k →
  k ≠ GR_CTX_FMPZ_POLY → k ≠ GR_CTX_FMPQ_POLY → k ≠ GR_CTX_GR_VEC →
  σ !! x = Some v → σ !! res = Some (CPoly r0) →
  polynomial_set_other L G res x x_ctx ctx σ
  = Some ((gr_set_other_val L x_ctx (base_ring p) v).1,
          <[res := CPoly
              (if decide ((gr_set_other_val L x_ctx (base_ring p) v).1 = GR_SUCCESS)
               then _gr_poly_normalise_val L (base_ring p)
                      [(gr_set_other_val L x_ctx (base_ring p) v).2]
               else [])]> σ).
Proof.
  intros Hp Hne Hne' Hsame Hk Hk1 Hk2 Hk3 Hx Hres.
  pose proof (POLYNOMIAL_ELEM_CTX_of _ _ Hp) as He.
  unfold polynomial_set_other. rewrite decide_False by done.
  rewrite bind_run, (elem_ctx_run _ _ _ _ _ He). rewrite decide_False by done.
  rewrite Hsame, bind_run, lift_opt_run. rewrite Hk, bind_run, lift_opt_run.
  rewrite !decide_False by done.
  rewrite bind_run. unfold gr_poly_fit_length.
  rewrite bind_run, (read_poly_run _ _ _ _ Hres), ret_run.
  rewrite bind_run. unfold gr_set_other.
  rewrite bind_run, (read_cell_run _ _ _ _ Hx), ret_run. cbv zeta.
  set (r := gr_set_other_val L x_ctx (base_ring p) v).
  destruct (decide (r.1 = GR_SUCCESS)) as [Hs|Hs].
  - rewrite bind_run. unfold _gr_poly_set_length_1, _gr_poly_normalise.
    rewrite bind_run, (write_poly_run _ _ _ _ _ Hres).
    rewrite bind_run, (read_poly_run _ res [r.2]) by apply lookup_insert_eq.
    rewrite (write_poly_run _ res [r.2]) by apply lookup_insert_eq.
    rewrite ret_run. f_equal. f_equal. by rewrite insert_insert_eq.
  - rewrite bind_run. unfold _gr_poly_set_length_0.
    by rewrite (write_poly_run _ _ _ _ _ Hres), ret_run.
Qed.

(** C3.  The coercion of a foreign element [x] of context [x_ctx] follows the
    ordered chain of the spec, the first rule that applies winning:
    1. [x_ctx] is this context: plain copy ([gr_poly_set]);
    2. [x_ctx] is the base ring: the constant polynomial of that scalar;
    3. [x_ctx] is a polynomial ring with the same generator name:
       coefficient-wise coercion from its base ring;
    4. [x_ctx] is the big-integer, then the big-rational polynomial kind:
       their bulk conversions;
    5. [x_ctx] is a vector kind: its entries are read as the coefficients of
       a polynomial over the base ring of the vector, and coerced;
    6. otherwise [x] is coerced as one scalar into the base ring; on Success
       the result is the normalised polynomial with that one coefficient, on
       failure the zero polynomial; the status of the scalar coercion is
       returned either way. *)
Theorem polynomial_set_other_decision_chain res x x_ctx ctx σ p :
  POLYNOMIAL_CTX G ctx = Some p →
  let e := base_ring p in
  (x_ctx = ctx →
   polynomial_set_other L G res x x_ctx ctx σ = gr_poly_set L res x e σ)
  ∧ (x_ctx ≠ ctx → x_ctx = e →
     polynomial_set_other L G res x x_ctx ctx σ = gr_poly_set_scalar L res x e σ)
  ∧ (x_ctx ≠ ctx → x_ctx ≠ e →
     is_gr_poly_with_same_var G x_ctx ctx = Some true →
     ∀ xp, POLYNOMIAL_CTX G x_ctx = Some xp →
     polynomial_set_other L G res x x_ctx ctx σ
     = gr_poly_set_gr_poly_other L res x (base_ring xp) e σ)
  ∧ (x_ctx ≠ ctx → x_ctx ≠ e →
     is_gr_poly_with_same_var G x_ctx ctx = Some false →
     ∀ k, ctx_which_ring G x_ctx = Some k →
     (k = GR_CTX_FMPZ_POLY →
      polynomial_set_other L G res x x_ctx ctx σ = gr_poly_set_fmpz_poly L res x e σ)
     ∧ (k = GR_CTX_FMPQ_POLY →
        polynomial_set_other L G res x x_ctx ctx σ = gr_poly_set_fmpq_poly L res x e σ)
     ∧ (k = GR_CTX_GR_VEC →
        ∀ es v r0,
        VECTOR_CTX G x_ctx = Some v →
        σ !! x = Some (CVec es) → σ !! res = Some (CPoly r0) →
        let r := gr_poly_set_gr_poly_other_val L (vec_base_ring v) e (CPolyOther es) in
        polynomial_set_other L G res x x_ctx ctx σ = Some (r.1, <[res := CPoly r.2]> σ))
     ∧ (k ≠ GR_CTX_FMPZ_POLY → k ≠ GR_CTX_FMPQ_POLY → k ≠ GR_CTX_GR_VEC →
        ∀ v r0,
        σ !! x = Some v → σ !! res = Some (CPoly r0) →
        let r := gr_set_other_val L x_ctx e v in
        polynomial_set_other L G res x x_ctx ctx σ
        = Some (r.1,
                <[res := CPoly (if decide (r.1 = GR_SUCCESS)
                                then _gr_poly_normalise_val L e [r.2] else [])]> σ))).
Proof.
  intros Hp e.
  destruct (polynomial_set_other_head res x x_ctx ctx σ p Hp)
    as (H1 & H2 & H3 & H4 & H5).
  split; [exact H1|]. split; [exact H2|]. split; [exact H3|].
  intros Hne Hne' Hsame k Hk. split; [|split; [|split]].
  - intros ->. by apply H4.
  - intros ->. by apply H5.
  - intros -> es v r0 Hv Hx Hres. by eapply polynomial_set_other_vec.
  - intros Hk1 Hk2 Hk3 v r0 Hx Hres. by eapply polynomial_set_other_fallback.
Qed.

End set_other_theorems.

(** Into [ZZ[x]], one object for each rule: an element of [ZZ[x]] itself is
    copied; the integer 3 of the base ring becomes a constant; a polynomial
    of [QQ[x]] (same name [x]) is coerced coefficient by coefficient; an
    integer polynomial goes through the bulk conversion; the entries 1, 2 of
    a vector over the rationals become [1 + 2 x]; the rational 1/2 matches
    no rule but the last, is no integer, and leaves the zero polynomial with
    a domain error; the rational 5 becomes the constant 5. *)
Lemma polynomial_set_other_decision_chain_witness :
  polynomial_set_other FmpzLib.lib Sample.contexts Sample.result Sample.x_plus_1
    Sample.ZZx Sample.ZZx Sample.objects
  = gr_poly_set FmpzLib.lib Sample.result Sample.x_plus_1 Sample.ZZ Sample.objects
  ∧ polynomial_set_other FmpzLib.lib Sample.contexts Sample.result Sample.three
      Sample.ZZ Sample.ZZx Sample.objects
    = gr_poly_set_scalar FmpzLib.lib Sample.result Sample.three Sample.ZZ Sample.objects
  ∧ polynomial_set_other FmpzLib.lib Sample.contexts Sample.result Sample.rational_poly
      Sample.QQx Sample.ZZx Sample.objects
    = gr_poly_set_gr_poly_other FmpzLib.lib Sample.result Sample.rational_poly
        Sample.QQ Sample.ZZ Sample.objects
  ∧ polynomial_set_other FmpzLib.lib Sample.contexts Sample.result Sample.x_minus_1
      Sample.ZZ_fmpz_poly Sample.ZZx Sample.objects
    = gr_poly_set_fmpz_poly FmpzLib.lib Sample.result Sample.x_minus_1 Sample.ZZ
        Sample.objects
  ∧ polynomial_set_other FmpzLib.lib Sample.contexts Sample.result Sample.vec_1_2
      Sample.QQ_vec Sample.ZZx Sample.objects
    = Some (GR_SUCCESS, <[Sample.result := CPoly [1; 2]]> Sample.objects)
  ∧ polynomial_set_other FmpzLib.lib Sample.contexts Sample.result Sample.one_half
      Sample.QQ Sample.ZZx Sample.objects
    = Some (GR_DOMAIN, <[Sample.result := CPoly []]> Sample.objects)
  ∧ polynomial_set_other FmpzLib.lib Sample.contexts Sample.result Sample.five
      Sample.QQ Sample.ZZx Sample.objects
    = Some (GR_SUCCESS, <[Sample.result := CPoly [5]]> Sample.objects).
Proof.
  pose (p := mk_polynomial_ctx Sample.ZZ WORD_MAX default_var).
  pose proof (λ x x_ctx, polynomial_set_other_decision_chain FmpzLib.lib Sample.contexts
    Sample.result x x_ctx Sample.ZZx Sample.objects p eq_refl) as chain.
  split; [|split; [|split; [|split; [|split; [|split]]]]].
  - by apply (chain Sample.x_plus_1 Sample.ZZx).
  - by apply (chain Sample.three Sample.ZZ).
  - destruct (chain Sample.rational_poly Sample.QQx) as (_ & _ & H & _).
    exact (H ltac:(done) ltac:(done) eq_refl
             (mk_polynomial_ctx Sample.QQ WORD_MAX default_var) eq_refl).
  - destruct (chain Sample.x_minus_1 Sample.ZZ_fmpz_poly) as (_ & _ & _ & H).
    destruct (H ltac:(done) ltac:(done) eq_refl GR_CTX_FMPZ_POLY eq_refl) as (H4 & _).
    exact (H4 eq_refl).
  - destruct (chain Sample.vec_1_2 Sample.QQ_vec) as (_ & _ & _ & H).
    destruct (H ltac:(done) ltac:(done) eq_refl GR_CTX_GR_VEC eq_refl)
      as (_ & _ & Hvec & _).
    exact (Hvec eq_refl _ (mk_vector_ctx Sample.QQ) [] eq_refl eq_refl eq_refl).
  - destruct (chain Sample.one_half Sample.QQ) as (_ & _ & _ & H).
    destruct (H ltac:(done) ltac:(done) eq_refl (GR_CTX_OTHER 1) eq_refl)
      as (_ & _ & _ & Hlast).
    exact (Hlast ltac:(done) ltac:(done) ltac:(done) _ [] eq_refl eq_refl).
  - destruct (chain Sample.five Sample.QQ) as (_ & _ & _ & H).
    destruct (H ltac:(done) ltac:(done) eq_refl (GR_CTX_OTHER 1) eq_refl)
      as (_ & _ & _ & Hlast).
    exact (Hlast ltac:(done) ltac:(done) ltac:(done) _ [] eq_refl eq_refl).
Defined.

(** ** Mixed multiplication: [polynomial_mul_other], [polynomial_other_mul] *)

Section inversion.
Context (L : gr_lib).
Implicit Types (σ : heap L).

Lemma bind_inv {A B} (m : M L A) (f : A → M L B) σ r :
  (m ≫= f) σ = Some r → ∃ a σ1, m σ = Some (a, σ1) ∧ f a σ1 = Some r.
Proof. rewrite bind_run. destruct (m σ) as [[a σ1]|]; [|done]. eauto. Qed.

Lemma ret_inv {A} (a b : A) σ σ' : (mret a : M L A) σ = Some (b, σ') → b = a ∧ σ' = σ.
Proof. by intros [= -> ->]. Qed.

Lemma lift_opt_inv {A} (o : option A) a σ σ' :
  (lift_opt o : M L A) σ = Some (a, σ') → o = Some a ∧ σ' = σ.
Proof. destruct o; [|done]. by intros [= -> ->]. Qed.

Lemma read_cell_inv p c σ σ' : read_cell L p σ = Some (c, σ') → σ !! p = Some c ∧ σ' = σ.
Proof. unfold read_cell. destruct (σ !! p); [|done]. by intros [= -> ->]. Qed.

Lemma read_poly_inv p cs σ σ' :
  read_poly L p σ = Some (cs, σ') → σ !! p = Some (CPoly cs) ∧ σ' = σ.
Proof.
  unfold read_poly. intros (c & σ1 & [Hc ->]%read_cell_inv & H)%bind_inv.
  destruct c; try done. by apply ret_inv in H as [-> ->].
Qed.

Lemma read_elem_inv p v σ σ' :
  read_elem L p σ = Some (v, σ') → σ !! p = Some (CElem v) ∧ σ' = σ.
Proof.
  unfold read_elem. intros (c & σ1 & [Hc ->]%read_cell_inv & H)%bind_inv.
  destruct c; try done. by apply ret_inv in H as [-> ->].
Qed.

Lemma write_poly_inv p cs u σ σ' :
  write_poly L p cs σ = Some (u, σ') →
  (∃ old, σ !! p = Some (CPoly old)) ∧ σ' = <[p := CPoly cs]> σ.
Proof.
  unfold write_poly. intros (old & σ1 & [Hc ->]%read_poly_inv & H)%bind_inv.
  injection H as _ <-. eauto.
Qed.

Lemma poly_set_const_inv r res st σ σ' :
  poly_set_const L r res σ = Some (st, σ') →
  (∃ old, σ !! res = Some (CPoly old)) ∧ σ' = <[res := CPoly r.2]> σ.
Proof.
  unfold poly_set_const. intros (u & σ1 & [Hc ->]%write_poly_inv & H)%bind_inv.
  by apply ret_inv in H as [-> ->].
Qed.

Lemma poly_op1_inv f res a st σ σ' :
  poly_op1 L f res a σ = Some (st, σ') →
  ∃ old v, σ !! res = Some (CPoly old) ∧ σ' = <[res := CPoly v]> σ.
Proof.
  unfold poly_op1. intros (va & σ1 & [Ha ->]%read_poly_inv & H)%bind_inv.
  apply bind_inv in H as (u & σ2 & [[old Hc] ->]%write_poly_inv & H).
  apply ret_inv in H as [-> ->]. eauto.
Qed.

Lemma poly_op2_inv f res a b st σ σ' :
  poly_op2 L f res a b σ = Some (st, σ') →
  ∃ old v, σ !! res = Some (CPoly old) ∧ σ' = <[res := CPoly v]> σ.
Proof.
  unfold poly_op2. intros (va & σ1 & [Ha ->]%read_poly_inv & H)%bind_inv.
  apply bind_inv in H as (vb & σ1 & [Hb ->]%read_poly_inv & H).
  apply bind_inv in H as (u & σ2 & [[old Hc] ->]%write_poly_inv & H).
  apply ret_inv in H as [-> ->]. eauto.
Qed.

End inversion.

Section mul_other_theorems.
Context (L : gr_lib) (G : ctx_store).
Implicit Types (σ : heap L) (a : list (E L)).

(** [polynomial_set_other] changes nothing but [res], which stays a
    polynomial. *)
Lemma polynomial_set_other_writes_res res x x_ctx ctx st σ σ' :
  polynomial_set_other L G res x x_ctx ctx σ = Some (st, σ') →
  ∃ old v, σ !! res = Some (CPoly old) ∧ σ' = <[res := CPoly v]> σ.
Proof.
  unfold polynomial_set_other. destruct (decide (x_ctx = ctx)) as [Heq|Hne].
  { unfold polynomial_set.
    intros (e & σ1 & [_ ->]%lift_opt_inv & H)%bind_inv. by eapply poly_op1_inv. }
  intros (e & σ1 & [_ ->]%lift_opt_inv & H)%bind_inv.
  destruct (decide (x_ctx = e)) as [Heq'|Hne'].
  { unfold gr_poly_set_scalar in H.
    apply bind_inv in H as (v & σ1 & [_ ->]%read_elem_inv & H).
    apply poly_set_const_inv in H as [[old ?] ->]. eauto. }
  apply bind_inv in H as (same & σ1 & [_ ->]%lift_opt_inv & H).
  destruct same.
  { apply bind_inv in H as (xe & σ1 & [_ ->]%lift_opt_inv & H).
    unfold gr_poly_set_gr_poly_other in H.
    apply bind_inv in H as (v & σ1 & [_ ->]%read_cell_inv & H).
    apply poly_set_const_inv in H as [[old ?] ->]. eauto. }
  apply bind_inv in H as (k & σ1 & [_ ->]%lift_opt_inv & H).
  destruct (decide (k = GR_CTX_FMPZ_POLY)) as [Hk1|Hk1].
  { unfold gr_poly_set_fmpz_poly in H.
    apply bind_inv in H as (v & σ1 & [_ ->]%read_cell_inv & H).
    apply poly_set_const_inv in H as [[old ?] ->]. eauto. }
  destruct (decide (k = GR_CTX_FMPQ_POLY)) as [Hk2|Hk2].
  { unfold gr_poly_set_fmpq_poly in H.
    apply bind_inv in H as (v & σ1 & [_ ->]%read_cell_inv & H).
    apply poly_set_const_inv in H as [[old ?] ->]. eauto. }
  destruct (decide (k = GR_CTX_GR_VEC)) as [Hk3|Hk3].
  { apply bind_inv in H as (tmp & σ1 & Htmp & H).
    unfold vec_as_poly in Htmp.
    apply bind_inv in Htmp as (v & σ0 & [Hx ->]%read_cell_inv & Htmp).
    destruct v; try done. injection Htmp as <- <-.
    apply bind_inv in H as (vctx & σ1 & [_ ->]%lift_opt_inv & H).
    apply bind_inv in H as (s & σ1 & Hset & H).
    unfold gr_poly_set_gr_poly_other in Hset.
    apply bind_inv in Hset as (v & σ0 & [_ ->]%read_cell_inv & Hset).
    apply poly_set_const_inv in Hset as [[old Hold] ->].
    apply bind_inv in H as (u & σ2 & Hfree & H).
    injection Hfree as _ <-. apply ret_inv in H as [-> ->].
    set (t := fresh (dom σ)) in *.
    assert (res ≠ t).
    { intros ->. by rewrite lookup_insert_eq in Hold. }
    rewrite lookup_insert_ne in Hold by done.
    exists old. eexists. split; [done|]. heap_eq. }
  apply bind_inv in H as (u & σ1 & Hfit & H).
  unfold gr_poly_fit_length in Hfit.
  apply bind_inv in Hfit as (r0 & σ0 & [Hres ->]%read_poly_inv & Hfit).
  apply ret_inv in Hfit as [-> ->].
  apply bind_inv in H as (r & σ1 & Hso & H).
  unfold gr_set_other in Hso.
  apply bind_inv in Hso as (v & σ0 & [_ ->]%read_cell_inv & Hso).
  apply ret_inv in Hso as [-> ->].
  cbv zeta in H. apply bind_inv in H as (u & σ1 & Hlen & H).
  apply ret_inv in H as [-> ->].
  destruct (decide _) as [Hs|Hs].
  - apply bind_inv in Hlen as (u' & σ2 & [_ ->]%write_poly_inv & Hn).
    unfold _gr_poly_normalise in Hn.
    apply bind_inv in Hn as (cs & σ3 & [_ ->]%read_poly_inv & Hn).
    apply write_poly_inv in Hn as [_ ->].
    exists r0. eexists. split; [done|]. by rewrite insert_insert_eq.
  - apply write_poly_inv in Hlen as [_ ->]. eauto.
Qed.

(** A context that is a polynomial ring over the base ring of [ctx] with the
    generator name of [ctx]. *)
Lemma is_same_polynomial_ring_true x_ctx ctx :
  is_same_polynomial_ring G x_ctx ctx = Some true ↔
  ∃ xc xp p s,
    G !! x_ctx = Some xc ∧ which_ring xc = GR_CTX_GR_POLY
    ∧ POLYNOMIAL_CTX G x_ctx = Some xp ∧ POLYNOMIAL_CTX G ctx = Some p
    ∧ base_ring xp = base_ring p
    ∧ c_str (var xp) = Some s ∧ c_str (var p) = Some s.
Proof.
  unfold is_same_polynomial_ring, ctx_which_ring, POLYNOMIAL_ELEM_CTX, same_var, strcmp_eq.
  split.
  - destruct (G !! x_ctx) as [xc|] eqn:Hxc; simpl; [|done].
    destruct (decide (which_ring xc = GR_CTX_GR_POLY)) as [Hk|]; [|done].
    destruct (POLYNOMIAL_CTX G x_ctx) as [xp|] eqn:Hxp; simpl; [|done].
    destruct (POLYNOMIAL_CTX G ctx) as [p|] eqn:Hp; simpl; [|done].
    destruct (decide (base_ring xp = base_ring p)) as [Hb|]; [|done].
    destruct (c_str (var xp)) as [s|] eqn:Hs; simpl; [|done].
    destruct (c_str (var p)) as [s'|] eqn:Hs'; simpl; [|done].
    intros [= ->%bool_decide_eq_true]. by exists xc, xp, p, s'.
  - intros (xc & xp & p & s & Hxc & Hk & Hxp & Hp & Hb & Hs & Hs').
    rewrite Hxc. simpl. rewrite decide_True by done.
    rewrite Hxp, Hp. simpl. rewrite decide_True by done. rewrite Hs, Hs'. simpl.
    by rewrite bool_decide_eq_true_2.
Qed.

(** The third way of the mixed product, with the temporary [t] and what
    [polynomial_set_other] made of it. *)
Lemma mul_through_temporary_failed (m : M L status) t st σ σt ctx e v :
  POLYNOMIAL_ELEM_CTX G ctx = Some e →
  t = fresh (dom σ) → σt = <[t := CPoly v]> σ → st ≠ GR_SUCCESS →
  (status ← (if decide (st = GR_SUCCESS) then m else mret st);
   polynomial_clear L G t ctx;; mret status) σt = Some (st, σ).
Proof.
  intros He -> -> Hst. rewrite decide_False by done.
  rewrite bind_run, ret_run, bind_run.
  rewrite (polynomial_clear_run L G _ ctx e _ v He) by apply lookup_insert_eq.
  rewrite ret_run. f_equal. f_equal. apply delete_fresh_insert.
Qed.

Lemma mul_through_temporary res poly1 poly2 t σ σt ctx p a b r0 :
  POLYNOMIAL_CTX G ctx = Some p →
  t = fresh (dom σ) → (∃ v, σt = <[t := CPoly v]> σ) →
  σt !! poly1 = Some (CPoly a) → σt !! poly2 = Some (CPoly b) →
  σ !! res = Some (CPoly r0) →
  (status ← polynomial_mul L G res poly1 poly2 ctx;
   polynomial_clear L G t ctx;; mret status) σt
  = if decide (ceiling_exceeded (degree_limit p) (length a) (length b))
    then Some (GR_UNABLE, σ)
    else Some ((gr_poly_mul_val L (base_ring p) a b).1,
               <[res := CPoly (gr_poly_mul_val L (base_ring p) a b).2]> σ).
Proof.
  intros Hp -> [v ->] H1 H2 Hres.
  pose proof (POLYNOMIAL_ELEM_CTX_of G _ _ Hp) as He.
  pose proof (fresh_ne _ _ _ _ Hres) as Hrt.
  destruct (decide (ceiling_exceeded _ _ _)) as [Hex|Hex].
  - rewrite bind_run, (polynomial_mul_exceeded L G _ _ _ _ _ _ _ _ Hp H1 H2 Hex).
    rewrite bind_run, (polynomial_clear_run L G _ ctx _ _ v He) by apply lookup_insert_eq.
    rewrite ret_run. f_equal. f_equal. apply delete_fresh_insert.
  - rewrite bind_run, (polynomial_mul_within L G _ _ _ _ _ _ _ _ Hp H1 H2 Hex).
    unfold gr_poly_mul.
    rewrite (poly_op2_run L _ res poly1 poly2 a b r0)
      by first [done | by rewrite lookup_insert_ne].
    rewrite bind_run, (polynomial_clear_run L G _ ctx _ _ v He)
      by (by rewrite lookup_insert_ne, lookup_insert_eq).
    rewrite ret_run. f_equal. f_equal. heap_eq.
Qed.

(** C4.  The product of a polynomial [poly] and a foreign operand [x] of
    context [x_ctx], in either order:
    - [x_ctx] is the base ring: every coefficient is multiplied by the scalar
      [x] ([gr_poly_mul_scalar], [gr_poly_scalar_mul]), with no coercion;
    - [x_ctx] is a polynomial ring over this base ring with the same
      generator name: the ordinary product [polynomial_mul] with [x] as the
      other polynomial;
    - otherwise [x] is coerced into a temporary polynomial [t] by
      [polynomial_set_other]; if that fails its status is returned and the
      store is as before the call (the result untouched, the temporary
      released); if it succeeds the result is that of [polynomial_mul] with
      the coerced polynomial, and the temporary is released. *)
Theorem polynomial_mul_other_cases res poly x x_ctx ctx σ p :
  POLYNOMIAL_CTX G ctx = Some p →
  let e := base_ring p in
  let t := fresh (dom σ) in
  (x_ctx = e →
   polynomial_mul_other L G res poly x x_ctx ctx σ
   = gr_poly_mul_scalar L res poly (at_elem x) e σ
   ∧ polynomial_other_mul L G res x x_ctx poly ctx σ
     = gr_poly_scalar_mul L res (at_elem x) poly e σ)
  ∧ (x_ctx ≠ e → is_same_polynomial_ring G x_ctx ctx = Some true →
     polynomial_mul_other L G res poly x x_ctx ctx σ = polynomial_mul L G res poly x ctx σ
     ∧ polynomial_other_mul L G res x x_ctx poly ctx σ
       = polynomial_mul L G res x poly ctx σ)
  ∧ (x_ctx ≠ e → is_same_polynomial_ring G x_ctx ctx = Some false →
     ∀ st σt,
     polynomial_set_other L G t x x_ctx ctx (<[t := CPoly []]> σ) = Some (st, σt) →
     (st ≠ GR_SUCCESS →
      polynomial_mul_other L G res poly x x_ctx ctx σ = Some (st, σ)
      ∧ polynomial_other_mul L G res x x_ctx poly ctx σ = Some (st, σ))
     ∧ (st = GR_SUCCESS →
        ∃ v, σt = <[t := CPoly v]> σ
        ∧ ∀ a r0, σ !! poly = Some (CPoly a) → σ !! res = Some (CPoly r0) →
          polynomial_mul_other L G res poly x x_ctx ctx σ
          = (if decide (ceiling_exceeded (degree_limit p) (length a) (length v))
             then Some (GR_UNABLE, σ)
             else Some ((gr_poly_mul_val L e a v).1,
                        <[res := CPoly (gr_poly_mul_val L e a v).2]> σ))
          ∧ polynomial_other_mul L G res x x_ctx poly ctx σ
            = (if decide (ceiling_exceeded (degree_limit p) (length v) (length a))
               then Some (GR_UNABLE, σ)
               else Some ((gr_poly_mul_val L e v a).1,
                          <[res := CPoly (gr_poly_mul_val L e v a).2]> σ)))).
Proof.
  intros Hp e t. pose proof (POLYNOMIAL_ELEM_CTX_of G _ _ Hp) as He.
  unfold polynomial_mul_other, polynomial_other_mul.
  rewrite !bind_run, !(elem_ctx_run _ _ _ _ _ He). fold e.
  split; [|split].
  - intros ->. by rewrite !decide_True.
  - intros Hne Hsame. rewrite !decide_False by done.
    by rewrite Hsame, !bind_run, !lift_opt_run.
  - intros Hne Hsame st σt Hset. rewrite !decide_False by done.
    rewrite Hsame, !bind_run, !lift_opt_run.
    rewrite !bind_run, !(polynomial_init_run _ _ _ _ _ He). fold t.
    rewrite !bind_run, Hset.
    destruct (polynomial_set_other_writes_res _ _ _ _ _ _ _ Hset)
      as (old & v & _ & Hσt).
    rewrite insert_insert_eq in Hσt.
    split.
    + intros Hst. split; by eapply mul_through_temporary_failed.
    + intros ->. exists v. split; [done|]. intros a r0 Ha Hres.
      rewrite !decide_True by done.
      assert (Hta : σt !! poly = Some (CPoly a)).
      { subst σt. rewrite lookup_insert_ne; [done|]. symmetry. by eapply fresh_ne. }
      assert (Htt : σt !! t = Some (CPoly v)).
      { subst σt. apply lookup_insert_eq. }
      split; eapply mul_through_temporary; eauto.
Qed.

End mul_other_theorems.

(** In [ZZ[x]], [x + 1] times an operand that is: the integer 3 of the base
    ring; the polynomial [x - 1] of a second context for [ZZ[x]]; the
    rational 1/2, whose coercion fails and leaves the store as it was; the
    rational 5, coerced to the constant 5. *)
Lemma polynomial_mul_other_cases_witness :
  polynomial_mul_other FmpzLib.lib Sample.contexts Sample.result Sample.x_plus_1
    Sample.three Sample.ZZ Sample.ZZx Sample.objects
  = gr_poly_mul_scalar FmpzLib.lib Sample.result Sample.x_plus_1 (at_elem Sample.three)
      Sample.ZZ Sample.objects
  ∧ polynomial_mul_other FmpzLib.lib Sample.contexts Sample.result Sample.x_plus_1
      Sample.x_minus_1 Sample.ZZx_again Sample.ZZx Sample.objects
    = polynomial_mul FmpzLib.lib Sample.contexts Sample.result Sample.x_plus_1
        Sample.x_minus_1 Sample.ZZx Sample.objects
  ∧ polynomial_mul_other FmpzLib.lib Sample.contexts Sample.result Sample.x_plus_1
      Sample.one_half Sample.QQ Sample.ZZx Sample.objects
    = Some (GR_DOMAIN, Sample.objects)
  ∧ polynomial_other_mul FmpzLib.lib Sample.contexts Sample.result Sample.five
      Sample.QQ Sample.x_plus_1 Sample.ZZx Sample.objects
    = Some (GR_SUCCESS, <[Sample.result := CPoly [5; 5]]> Sample.objects).
Proof.
  pose (p := mk_polynomial_ctx Sample.ZZ WORD_MAX default_var).
  split; [|split; [|split]].
  - by apply (polynomial_mul_other_cases FmpzLib.lib Sample.contexts Sample.result
      Sample.x_plus_1 Sample.three Sample.ZZ Sample.ZZx Sample.objects p eq_refl).
  - by apply (polynomial_mul_other_cases FmpzLib.lib Sample.contexts Sample.result
      Sample.x_plus_1 Sample.x_minus_1 Sample.ZZx_again Sample.ZZx Sample.objects
      p eq_refl).
  - destruct (polynomial_mul_other_cases FmpzLib.lib Sample.contexts Sample.result
      Sample.x_plus_1 Sample.one_half Sample.QQ Sample.ZZx Sample.objects p eq_refl)
      as (_ & _ & H).
    destruct (H ltac:(done) eq_refl GR_DOMAIN _ ltac:(by vm_compute)) as [Hfail _].
    by apply Hfail.
  - destruct (polynomial_mul_other_cases FmpzLib.lib Sample.contexts Sample.result
      Sample.x_plus_1 Sample.five Sample.QQ Sample.ZZx Sample.objects p eq_refl)
      as (_ & _ & H).
    destruct (H ltac:(done) eq_refl GR_SUCCESS
      (<[fresh (dom Sample.objects) := CPoly [5]]> Sample.objects)
      ltac:(by vm_compute)) as [_ Hok].
    destruct (Hok eq_refl) as (v & Hv & Hmul).
    assert (v = [5]) as ->.
    { apply (f_equal (λ m, m !! fresh (dom Sample.objects))) in Hv.
      rewrite !lookup_insert_eq in Hv. by injection Hv. }
    destruct (Hmul [1; 1] [] eq_refl eq_refl) as [_ Hother].
    rewrite Hother. by vm_compute.
Defined.

(** ** Powers *)

(** C7.  For every polynomial and every signed machine integer [exp],
    [polynomial_pow_si] runs exactly as [polynomial_pow_fmpz] does on the
    big integer made from [exp] (same status, same store), and that big
    integer is [exp]. *)
Theorem polynomial_pow_si_is_pow_fmpz (L : gr_lib) (G : ctx_store)
    (res poly : ptr) (exp : Z) (ctx : gr_ctx_t) (σ : heap L) :
  polynomial_pow_si L G res poly exp ctx σ
  = polynomial_pow_fmpz L G res poly (fmpz_init_set_si exp) ctx σ
  ∧ fmpz_init_set_si exp = exp.
Proof.
  split; [|reflexivity].
  unfold polynomial_pow_si, polynomial_pow_fmpz. rewrite !bind_run.
  destruct (elem_ctx L G ctx σ) as [[e σ1]|]; [|reflexivity].
  cbv zeta. apply bind_ret_run.
Qed.

(** ** Predicates of the context, through the method table *)

(** C6.  In the method table of the polynomial ring kind, each of is-ring,
    is-commutative-ring, is-integral-domain, is-UFD, is-rational-, is-real-,
    is-complex-vector-space and is-threadsafe answers, for a polynomial ring
    over the base ring [e], what the same predicate answers for [e]; is-field
    answers false for every context. *)
Theorem polynomial_ctx_predicates (L : gr_lib) (G : ctx_store) (ctx e : gr_ctx_t) :
  POLYNOMIAL_ELEM_CTX G ctx = Some e →
  let methods := gr_method_tab_init empty_method_table _gr_poly_methods_input in
  gr_ctx_predicate L G methods GR_METHOD_CTX_IS_RING ctx = Some (gr_ctx_is_ring L e)
  ∧ gr_ctx_predicate L G methods GR_METHOD_CTX_IS_COMMUTATIVE_RING ctx
    = Some (gr_ctx_is_commutative_ring L e)
  ∧ gr_ctx_predicate L G methods GR_METHOD_CTX_IS_INTEGRAL_DOMAIN ctx
    = Some (gr_ctx_is_integral_domain L e)
  ∧ gr_ctx_predicate L G methods GR_METHOD_CTX_IS_UNIQUE_FACTORIZATION_DOMAIN ctx
    = Some (gr_ctx_is_unique_factorization_domain L e)
  ∧ gr_ctx_predicate L G methods GR_METHOD_CTX_IS_RATIONAL_VECTOR_SPACE ctx
    = Some (gr_ctx_is_rational_vector_space L e)
  ∧ gr_ctx_predicate L G methods GR_METHOD_CTX_IS_REAL_VECTOR_SPACE ctx
    = Some (gr_ctx_is_real_vector_space L e)
  ∧ gr_ctx_predicate L G methods GR_METHOD_CTX_IS_COMPLEX_VECTOR_SPACE ctx
    = Some (gr_ctx_is_complex_vector_space L e)
  ∧ gr_ctx_predicate L G methods GR_METHOD_CTX_IS_THREADSAFE ctx
    = Some (gr_ctx_is_threadsafe L e)
  ∧ ∀ any_ctx, gr_ctx_predicate L G methods GR_METHOD_CTX_IS_FIELD any_ctx = Some T_FALSE.
Proof.
  intros He methods. unfold gr_ctx_predicate. subst methods.
  repeat split; try (intros any_ctx); simpl;
    unfold polynomial_ctx_is_ring, polynomial_ctx_is_commutative_ring,
      polynomial_ctx_is_integral_domain, polynomial_ctx_is_unique_factorization_domain,
      polynomial_ctx_is_rational_vector_space, polynomial_ctx_is_real_vector_space,
      polynomial_ctx_is_complex_vector_space, polynomial_ctx_is_threadsafe;
    by rewrite ?He.
Qed.

(** The polynomials over the integers: a ring, commutative, an integral
    domain, a unique factorisation domain, thread safe; no vector space over
    a field; and not a field, although nothing here says the integers are
    not one. *)
Lemma polynomial_ctx_predicates_witness :
  let methods := gr_method_tab_init empty_method_table _gr_poly_methods_input in
  gr_ctx_predicate FmpzLib.lib Sample.contexts methods GR_METHOD_CTX_IS_RING Sample.ZZx
  = Some T_TRUE
  ∧ gr_ctx_predicate FmpzLib.lib Sample.contexts methods
      GR_METHOD_CTX_IS_RATIONAL_VECTOR_SPACE Sample.ZZx = Some T_FALSE
  ∧ gr_ctx_predicate FmpzLib.lib Sample.contexts methods GR_METHOD_CTX_IS_FIELD Sample.ZZx
    = Some T_FALSE.
Proof.
  destruct (polynomial_ctx_predicates FmpzLib.lib Sample.contexts Sample.ZZx Sample.ZZ
    eq_refl) as (H1 & _ & _ & _ & H5 & _ & _ & _ & H9).
  split; [exact H1|]. split; [exact H5|]. apply H9.
Defined.

(** ** The generator name *)

Lemma substring_whole (s : string) : String.substring 0 (String.length s) s = s.
Proof. induction s as [|c s IH]; [done|]. simpl. by rewrite IH. Qed.

Lemma memcpy_after_realloc (v : char_ptr) (s : string) :
  memcpy (flint_realloc v (strlen s + 1)) s (strlen s + 1) = heap_str s.
Proof.
  assert (Z.to_nat (strlen s + 1 - 1) = String.length s) as Hlen by (unfold strlen; lia).
  destruct v; unfold flint_realloc, memcpy; by rewrite Hlen, substring_whole.
Qed.

(** What [_gr_gr_poly_ctx_set_gen_name] does to a polynomial ring: the name
    becomes a heap copy of [s], whatever it was. *)
Lemma set_gen_name_run ctx s G p :
  POLYNOMIAL_CTX G ctx = Some p →
  _gr_gr_poly_ctx_set_gen_name ctx s G = Some (GR_SUCCESS, set_var ctx (heap_str s) G).
Proof.
  intros Hp. unfold _gr_gr_poly_ctx_set_gen_name. rewrite Hp. simpl.
  by rewrite memcpy_after_realloc.
Qed.

Lemma set_var_lookup ctx v G p :
  POLYNOMIAL_CTX G ctx = Some p →
  POLYNOMIAL_CTX (set_var ctx v G) ctx
  = Some (mk_polynomial_ctx (base_ring p) (degree_limit p) v).
Proof.
  unfold POLYNOMIAL_CTX, set_var. destruct (G !! ctx) as [c|] eqn:Hc; [|done].
  destruct (data c) as [p'| |] eqn:Hd; try done. intros [= ->].
  by rewrite lookup_insert_eq.
Qed.

(** C10.  For an array of names with first entry [s0], the setter of several
    names does exactly what the setter of one name does with [s0]: the other
    entries are not looked at.  On a polynomial ring both return Success and
    leave a heap copy of [s0] as the generator name, the base ring and the
    degree ceiling being as before. *)
Theorem set_gen_names_is_set_gen_name_of_first (ctx : gr_ctx_t) (s0 : string)
    (rest : list string) (G : ctx_store) :
  _gr_gr_poly_ctx_set_gen_names ctx (s0 :: rest) G = _gr_gr_poly_ctx_set_gen_name ctx s0 G
  ∧ ∀ p, POLYNOMIAL_CTX G ctx = Some p →
      ∃ G', _gr_gr_poly_ctx_set_gen_names ctx (s0 :: rest) G = Some (GR_SUCCESS, G')
      ∧ POLYNOMIAL_CTX G' ctx
        = Some (mk_polynomial_ctx (base_ring p) (degree_limit p) (heap_str s0)).
Proof.
  split; [reflexivity|]. intros p Hp. eexists. split.
  - unfold _gr_gr_poly_ctx_set_gen_names. simpl. by eapply set_gen_name_run.
  - by apply set_var_lookup.
Qed.

(** ** The construct-once guard of the method table *)

(** One call run alone, step by step, is the function. *)
Lemma thread_steps_alone ctx base_ring g :
  let s1 := thread_step (init_call ctx base_ring) g in
  let s2 := thread_step s1.1 s1.2 in
  let s3 := thread_step s2.1 s2.2 in
  let s4 := thread_step s3.1 s3.2 in
  pc s4.1 = at_return ∧ s4.2 = gr_ctx_init_gr_poly ctx base_ring g.
Proof.
  destruct g as [G0 flag tab n]. cbv zeta.
  unfold gr_ctx_init_gr_poly, thread_step, init_call, at_pc. simpl.
  destruct (decide (flag = 0)) as [H|H]; simpl; by rewrite ?decide_True by done.
Qed.

Lemma init_when_flag_set ctx base_ring g :
  _gr_poly_methods_initialized g ≠ 0 →
  let g' := gr_ctx_init_gr_poly ctx base_ring g in
  _gr_poly_methods g' = _gr_poly_methods g
  ∧ tab_init_calls g' = tab_init_calls g
  ∧ _gr_poly_methods_initialized g' = _gr_poly_methods_initialized g.
Proof. intros H. unfold gr_ctx_init_gr_poly. by rewrite decide_False. Qed.

Lemma sequential_calls_keep_table (calls : list (gr_ctx_t * gr_ctx_t)) g :
  _gr_poly_methods_initialized g ≠ 0 →
  let g' := foldl (λ g c, gr_ctx_init_gr_poly c.1 c.2 g) g calls in
  _gr_poly_methods g' = _gr_poly_methods g
  ∧ tab_init_calls g' = tab_init_calls g
  ∧ _gr_poly_methods_initialized g' = _gr_poly_methods_initialized g.
Proof.
  revert g. induction calls as [|c calls IH]; intros g Hg; [done|]. simpl.
  destruct (init_when_flag_set c.1 c.2 g Hg) as (H1 & H2 & H3).
  destruct (IH (gr_ctx_init_gr_poly c.1 c.2 g)) as (H1' & H2' & H3').
  { by rewrite H3. }
  cbv zeta in *. by rewrite H1', H2', H3', H1, H2, H3.
Qed.

Lemma guard_invariant_start (calls : list (gr_ctx_t * gr_ctx_t)) :
  guard_invariant ((λ c, init_call c.1 c.2) <$> calls, globals_start).
Proof.
  repeat split; simpl; try done; [by left|].
  apply Forall_fmap, Forall_forall. by intros c _.
Qed.

Lemma guard_invariant_step i s : guard_invariant s → guard_invariant (system_step i s).
Proof.
  destruct s as [ts g]. intros (Hzero & Hbuilt & Hflag & Hts). unfold system_step.
  simpl in *. destruct (ts !! i) as [t|] eqn:Ht; [|done].
  pose proof (proj1 (Forall_lookup _ _) Hts i t Ht) as [Hset Hret].
  unfold thread_step. destruct (pc t) eqn:Hpc.
  - unfold guard_invariant. simpl. split; [done|]. split; [done|]. split; [done|].
    apply Forall_insert; [done|]. by split.
  - destruct (decide (_gr_poly_methods_initialized g = 0)) as [H0|H0];
      unfold guard_invariant; simpl; (split; [done|]); (split; [done|]); (split; [done|]);
      (apply Forall_insert; [done|]); split; try done.
    intros _. by destruct Hflag as [?|[? _]].
  - unfold guard_invariant. simpl. split; [done|]. split; [done|]. split.
    + destruct Hflag as [?|[? _]]; [by left|by right].
    + apply Forall_insert; [|by split].
      eapply Forall_impl; [exact Hts|]. intros t' [H1 H2]. by split.
  - specialize (Hset eq_refl).
    unfold guard_invariant. simpl. split; [done|]. split; [done|]. split; [by right|].
    apply Forall_insert; [|by split].
    eapply Forall_impl; [exact Hts|]. intros t' [H1 H2]. by split.
  - unfold guard_invariant. simpl. rewrite list_insert_id by done. done.
Qed.

Lemma guard_invariant_run sched s : guard_invariant s → guard_invariant (run_schedule sched s).
Proof.
  revert s. induction sched as [|i sched IH]; intros s Hs; [done|].
  apply IH, guard_invariant_step, Hs.
Qed.

Lemma run_schedule_length sched (s : system) :
  length (run_schedule sched s).1 = length s.1.
Proof.
  revert s. induction sched as [|i sched IH]; intros s; [done|].
  change (length (run_schedule sched (system_step i s)).1 = length s.1).
  rewrite IH. unfold system_step. destruct (s.1 !! i); [|done].
  simpl. by rewrite length_insert.
Qed.

(** C9 (as amended).  Constructions that run one after another, from the
    start of the process: the table is constructed exactly once (by the
    first of them), the flag is set and the table is the one of the
    polynomial ring kind; a construction that finds the flag set changes
    neither the table nor the count.  Constructions that overlap in any
    schedule of their steps: once all have returned, the table has been
    constructed at least once, the flag is set, and the table is that same
    table. *)
Theorem methods_table_construction (c0 : gr_ctx_t * gr_ctx_t)
    (calls : list (gr_ctx_t * gr_ctx_t)) :
  (let g := foldl (λ g c, gr_ctx_init_gr_poly c.1 c.2 g) globals_start (c0 :: calls) in
   tab_init_calls g = 1%nat
   ∧ _gr_poly_methods_initialized g = 1
   ∧ _gr_poly_methods g = built_methods)
  ∧ (∀ g ctx base_ring,
       _gr_poly_methods_initialized g ≠ 0 →
       _gr_poly_methods (gr_ctx_init_gr_poly ctx base_ring g) = _gr_poly_methods g
       ∧ tab_init_calls (gr_ctx_init_gr_poly ctx base_ring g) = tab_init_calls g)
  ∧ (∀ sched,
       let s := run_schedule sched
                  ((λ c, init_call c.1 c.2) <$> (c0 :: calls), globals_start) in
       all_returned s →
       (1 ≤ tab_init_calls s.2)%nat
       ∧ _gr_poly_methods_initialized s.2 = 1
       ∧ _gr_poly_methods s.2 = built_methods).
Proof.
  split; [|split].
  - simpl.
    destruct (sequential_calls_keep_table calls
      (gr_ctx_init_gr_poly c0.1 c0.2 globals_start)) as (H1 & H2 & H3); [done|].
    cbv zeta in *. by rewrite H1, H2, H3.
  - intros g ctx base_ring Hg.
    by destruct (init_when_flag_set ctx base_ring g Hg) as (? & ? & _).
  - intros sched s Hret.
    destruct (guard_invariant_run sched _ (guard_invariant_start (c0 :: calls)))
      as (Hzero & Hbuilt & Hflag & Hts). fold s in Hzero, Hbuilt, Hflag, Hts.
    assert (Hlen : length s.1 = S (length calls)).
    { subst s. rewrite run_schedule_length. simpl. by rewrite length_fmap. }
    destruct s.1 as [|t ts] eqn:Hs1; [done|].
    unfold all_returned in Hret. rewrite Hs1 in Hret.
    apply Forall_cons in Hret as [Ht _]. apply Forall_cons in Hts as [[_ Hf] _].
    specialize (Hf Ht).
    destruct Hflag as [H0|[_ Hcount]]; [by rewrite H0 in Hf|].
    split; [lia|]. split; [done|]. by apply Hbuilt.
Qed.

(** The claim as the spec words it fails for two first-time constructions
    that overlap: both threads test the flag before either sets it, and the
    table is constructed twice. *)
Lemma guard_race_counterexample : ¬ constructed_once_in_every_schedule.
Proof.
  intros H.
  specialize (H [(Sample.ZZx, Sample.ZZ); (Sample.ZZy, Sample.ZZ)]
                [0; 1; 0; 1; 0; 1; 0; 1]%nat ltac:(done)).
  cbv zeta in H. vm_compute in H.
  assert (2 = 1)%nat as Hfalse; [|done].
  apply H. repeat constructor.
Qed.

(** ** Statuses accumulated with [|=] *)

Lemma status_or_all_success (l : list status) (s0 : status) :
  foldl status_or s0 l = GR_SUCCESS ↔ s0 = GR_SUCCESS ∧ Forall (λ s, s = GR_SUCCESS) l.
Proof.
  revert s0. induction l as [|s l IH]; intros s0; simpl.
  - split; [by intros ->|by intros [-> _]].
  - rewrite IH. unfold status_or, GR_SUCCESS. rewrite Z.lor_eq_0_iff, Forall_cons. tauto.
Qed.

(** ** Intervals: [polynomial_set_interval_mid_rad] *)

Section interval_runs.
Context (L : gr_lib) (K : gr_lib_more L) (G : ctx_store).
Implicit Types (σ τ : heap L) (a b cs : list (E L)).

(** Writing to an object that exists does not change which addresses are
    in use. *)
Lemma dom_insert_existing τ p (c c' : cell (E L) (X L)) :
  τ !! p = Some c → dom (<[p := c']> τ) = dom τ.
Proof.
  intros Hp%elem_of_dom_2. rewrite dom_insert_L.
  by apply subseteq_union_1_L, singleton_subseteq_l.
Qed.

Lemma read_coeff_entry_run p i τ cs x :
  τ !! p = Some (CPoly cs) → cs !! i = Some x →
  read_coeff L (coeff_entry p (Z.of_nat i)) τ = Some (x, τ).
Proof.
  intros Hp Hx. unfold read_coeff.
  rewrite bind_run, (read_poly_run _ _ _ _ Hp), decide_True by lia.
  by rewrite Nat2Z.id, Hx.
Qed.

Lemma write_coeff_run p i v τ cs :
  τ !! p = Some (CPoly cs) → (i < length cs)%nat →
  write_coeff L p (Z.of_nat i) v τ = Some (tt, <[p := CPoly (<[i := v]> cs)]> τ).
Proof.
  intros Hp Hi. unfold write_coeff.
  rewrite bind_run, (read_poly_run _ _ _ _ Hp), decide_True by lia.
  by rewrite Nat2Z.id.
Qed.

Lemma gr_set_coeff_run res i src c τ cs x old :
  τ !! res = Some (CPoly cs) → cs !! i = Some old →
  read_coeff L src τ = Some (x, τ) →
  gr_set_coeff L res (Z.of_nat i) src c τ
  = Some ((gr_set_result L c old x).1,
          <[res := CPoly (<[i := (gr_set_result L c old x).2]> cs)]> τ).
Proof.
  intros Hres Hi Hx. unfold gr_set_coeff.
  rewrite bind_run, Hx, bind_run, (read_coeff_entry_run _ _ _ _ _ Hres Hi).
  by rewrite bind_run, (write_coeff_run _ _ _ _ _ Hres (lookup_lt_Some _ _ _ Hi)).
Qed.

Lemma gr_set_interval_mid_rad_run res i mref rref c τ cs x y old :
  τ !! res = Some (CPoly cs) → cs !! i = Some old →
  read_coeff L mref τ = Some (x, τ) → read_coeff L rref τ = Some (y, τ) →
  gr_set_interval_mid_rad L K res (Z.of_nat i) mref rref c τ
  = Some ((gr_set_interval_mid_rad_result L K c old x y).1,
          <[res := CPoly (<[i := (gr_set_interval_mid_rad_result L K c old x y).2]> cs)]> τ).
Proof.
  intros Hres Hi Hx Hy. unfold gr_set_interval_mid_rad.
  rewrite bind_run, Hx, bind_run, Hy, bind_run, (read_coeff_entry_run _ _ _ _ _ Hres Hi).
  by rewrite bind_run, (write_coeff_run _ _ _ _ _ Hres (lookup_lt_Some _ _ _ Hi)).
Qed.

Lemma _gr_poly_set_length_run res len c τ cs :
  τ !! res = Some (CPoly cs) →
  _gr_poly_set_length L res (Z.of_nat len) c τ
  = Some (tt, <[res := CPoly (take len cs ++ replicate (len - length cs) (gr_init_val L c))]> τ).
Proof.
  intros Hres. unfold _gr_poly_set_length.
  by rewrite bind_run, (read_poly_run _ _ _ _ Hres), Nat2Z.id, (write_poly_run _ _ _ _ _ Hres).
Qed.

Lemma _gr_poly_normalise_run res c τ cs :
  τ !! res = Some (CPoly cs) →
  _gr_poly_normalise L res c τ = Some (tt, <[res := CPoly (_gr_poly_normalise_val L c cs)]> τ).
Proof.
  intros Hres. unfold _gr_poly_normalise.
  by rewrite bind_run, (read_poly_run _ _ _ _ Hres), (write_poly_run _ _ _ _ _ Hres).
Qed.

Lemma gr_poly_fit_length_run res len c τ cs :
  τ !! res = Some (CPoly cs) → gr_poly_fit_length L res len c τ = Some (tt, τ).
Proof.
  intros Hres. unfold gr_poly_fit_length.
  by rewrite bind_run, (read_poly_run _ _ _ _ Hres).
Qed.

(** Writing the entry [k] of a list that is new up to [k] and old from [k] on. *)
Lemma insert_new_old {A} (new old : list A) k v :
  new !! k = Some v → (k < length old)%nat →
  <[k := v]> (take k new ++ drop k old) = take (S k) new ++ drop (S k) old.
Proof.
  intros Hnew Hold.
  assert (length (take k new) = k) as Hlen.
  { rewrite length_take. apply lookup_lt_Some in Hnew. lia. }
  destruct (lookup_lt_is_Some_2 old k Hold) as [o Ho].
  rewrite insert_app_r_alt by lia. rewrite Hlen, Nat.sub_diag.
  rewrite (drop_S _ _ _ Ho). simpl.
  by rewrite (take_S_r _ _ _ Hnew), <- app_assoc.
Qed.

Lemma lookup_new_old {A} (new old : list A) k :
  (k ≤ length new)%nat → (take k new ++ drop k old) !! k = old !! k.
Proof.
  intros Hk. rewrite lookup_app_r by (rewrite length_take; lia).
  rewrite length_take, Nat.min_l, Nat.sub_diag, lookup_drop by lia.
  f_equal. lia.
Qed.

Lemma length_new_old {A} (new old : list A) k :
  (k ≤ length new)%nat → (k ≤ length old)%nat →
  length (take k new ++ drop k old) = length old.
Proof. intros Hl Hk. rewrite length_app, length_take, length_drop. lia. Qed.

Lemma mid_rad_entries_length e c0 a b :
  length (mid_rad_entries L K e c0 a b) = (length a `max` length b)%nat.
Proof. unfold mid_rad_entries. by rewrite length_fmap, length_seq. Qed.

Lemma mid_rad_entries_lookup e c0 a b k :
  (k < length a `max` length b)%nat →
  mid_rad_entries L K e c0 a b !! k = Some (mid_rad_entry L K e c0 a b k).
Proof.
  intros Hk. unfold mid_rad_entries.
  by rewrite list_lookup_fmap, lookup_seq_lt.
Qed.

Lemma foldl_status_or_snoc (l : list status) s0 s :
  foldl status_or s0 (l ++ [s]) = foldl status_or s0 l |' s.
Proof. by rewrite foldl_app. Qed.

End interval_runs.

(** The loop of [polynomial_set_interval_mid_rad], for a result that is not
    the radius: after [k] rounds the first [k] coefficients are computed, the
    others are as [_gr_poly_set_length] left them (each is still there when
    its round writes it), and the element [zero]
    exists as soon as a round beyond the midpoint's length has run. *)
Section interval_loop.
Context (L : gr_lib) (K : gr_lib_more L).
Context (e : gr_ctx_t) (res m r : ptr) (a b c0 : list (E L)) (σ : heap L).
Context (Hm : σ !! m = Some (CPoly a)) (Hr : σ !! r = Some (CPoly b)).
Context (Hres : σ !! res = Some (CPoly c0)) (Hne : res ≠ r).

Local Abbreviation n := (length a `max` length b)%nat.
Local Abbreviation es := (mid_rad_entries L K e c0 a b).
Local Abbreviation pad := (take n c0 ++ replicate (n - length c0) (gr_init_val L e)).
Local Abbreviation z := (fresh (dom σ)).
Local Abbreviation with_zero k τ :=
  (if decide (length a < k)%nat then <[z := CElem (gr_init_val L e)]> τ else τ).
Local Abbreviation store_at k :=
  (with_zero k (<[res := CPoly (take k es.*2 ++ drop k pad)]> σ)).
Local Abbreviation vars_at k :=
  (foldl status_or GR_SUCCESS (take k es.*1),
   if decide (length a < k)%nat then Some z else None).

Lemma pad_length : length pad = n.
Proof. rewrite length_app, length_take, length_replicate. lia. Qed.

Lemma es2_length : length es.*2 = n.
Proof. by rewrite length_fmap, mid_rad_entries_length. Qed.

Lemma store_at_res k :
  store_at k !! res = Some (CPoly (take k es.*2 ++ drop k pad)).
Proof.
  case_decide.
  - rewrite lookup_insert_ne by (symmetry; by eapply fresh_ne).
    apply lookup_insert_eq.
  - apply lookup_insert_eq.
Qed.

Lemma store_at_other k p c :
  p ≠ res → σ !! p = Some c → store_at k !! p = Some c.
Proof.
  intros Hp Hc. case_decide.
  - rewrite lookup_insert_ne by (symmetry; by eapply fresh_ne).
    by rewrite lookup_insert_ne.
  - by rewrite lookup_insert_ne.
Qed.

Lemma store_at_zero k :
  (length a < k)%nat → store_at k !! z = Some (CElem (gr_init_val L e)).
Proof. intros Hk. rewrite decide_True by done. apply lookup_insert_eq. Qed.

Lemma store_at_write k (cs : list (E L)) :
  <[res := CPoly cs]> (store_at k) = with_zero k (<[res := CPoly cs]> σ).
Proof.
  case_decide.
  - rewrite insert_insert_ne by (by eapply fresh_ne).
    by rewrite insert_insert_eq.
  - by rewrite insert_insert_eq.
Qed.

Lemma read_midpoint k x :
  (k ≤ n)%nat → a !! k = Some x →
  read_coeff L (coeff_entry m (Z.of_nat k)) (store_at k) = Some (x, store_at k).
Proof.
  intros Hk Hx. destruct (decide (m = res)) as [->|Hmr].
  - assert (c0 = a) as Hc by congruence.
    eapply read_coeff_entry_run; [apply store_at_res|].
    rewrite lookup_new_old by (rewrite es2_length; lia).
    apply lookup_lt_Some in Hx as Hlt. rewrite Hc.
    rewrite lookup_app_l by (rewrite length_take; lia).
    by rewrite lookup_take_lt by lia.
  - eapply read_coeff_entry_run; [by apply store_at_other|done].
Qed.

Lemma read_radius k y :
  b !! k = Some y →
  read_coeff L (coeff_entry r (Z.of_nat k)) (store_at k) = Some (y, store_at k).
Proof.
  intros Hy. eapply read_coeff_entry_run; [|done]. apply store_at_other; [done|apply Hr].
Qed.

Lemma take_S_status k v :
  es !! k = Some v →
  foldl status_or GR_SUCCESS (take (S k) es.*1)
  = foldl status_or GR_SUCCESS (take k es.*1) |' v.1.
Proof.
  intros Hv. rewrite (take_S_r _ _ v.1) by (by rewrite list_lookup_fmap, Hv).
  apply foldl_status_or_snoc.
Qed.

Lemma store_at_step k v :
  (k < n)%nat → es !! k = Some v →
  <[res := CPoly (<[k := v.2]> (take k es.*2 ++ drop k pad))]> (store_at k)
  = with_zero k (<[res := CPoly (take (S k) es.*2 ++ drop (S k) pad)]> σ).
Proof.
  intros Hk Hv. rewrite store_at_write, insert_new_old; [done| |].
  - by rewrite list_lookup_fmap, Hv.
  - rewrite pad_length. lia.
Qed.

Lemma res_in_range k :
  (k < n)%nat → (k < length (take k es.*2 ++ drop k pad))%nat.
Proof.
  intros Hk. rewrite length_new_old; rewrite ?pad_length, ?es2_length; lia.
Qed.

(** The coefficient a round is about to write is the one
    [_gr_poly_set_length] left. *)
Lemma pad_lookup k : (k < n)%nat → pad !! k = Some (old_coeff L e c0 k).
Proof.
  intros Hk. unfold old_coeff. destruct (c0 !! k) as [v|] eqn:Hv.
  - apply lookup_lt_Some in Hv as Hlt.
    rewrite lookup_app_l by (rewrite length_take; lia).
    by rewrite lookup_take_lt by lia.
  - apply lookup_ge_None in Hv.
    rewrite lookup_app_r by (rewrite length_take; lia).
    apply lookup_replicate_2. rewrite length_take. lia.
Qed.

Lemma res_old k :
  (k < n)%nat → (take k es.*2 ++ drop k pad) !! k = Some (old_coeff L e c0 k).
Proof.
  intros Hk. rewrite lookup_new_old by (rewrite es2_length; lia). by apply pad_lookup.
Qed.

Lemma set_interval_mid_rad_round_run k :
  (k < n)%nat →
  set_interval_mid_rad_round L K res m r (Z.of_nat (length a)) (Z.of_nat (length b)) e
    (Z.of_nat k) (vars_at k) (store_at k)
  = Some (vars_at (S k), store_at (S k)).
Proof.
  intros Hk. unfold set_interval_mid_rad_round.
  pose proof (mid_rad_entries_lookup L K e c0 a b k Hk) as Hes.
  unfold mid_rad_entry in Hes. cbn [fst snd].
  destruct (decide (Z.of_nat k < Z.of_nat (length a) ∧ Z.of_nat k < Z.of_nat (length b)))
    as [[Hka Hkb]|Hnot].
  - destruct (lookup_lt_is_Some_2 a k ltac:(lia)) as [x Hx].
    destruct (lookup_lt_is_Some_2 b k ltac:(lia)) as [y Hy].
    rewrite Hx, Hy in Hes.
    rewrite bind_run.
    rewrite (gr_set_interval_mid_rad_run L K _ _ _ _ _ _ _ x y _ (store_at_res k) (res_old k Hk))
      by (first [apply read_midpoint; [lia|done] | by apply read_radius]).
    rewrite (store_at_step _ _ Hk Hes), (take_S_status _ _ Hes).
    rewrite !(decide_False (P := (length a < k)%nat)) by lia.
    by rewrite !(decide_False (P := (length a < S k)%nat)) by lia.
  - destruct (decide (Z.of_nat k < Z.of_nat (length a))) as [Hka|Hka].
    + destruct (lookup_lt_is_Some_2 a k ltac:(lia)) as [x Hx].
      rewrite Hx, (lookup_ge_None_2 b k) in Hes by lia.
      rewrite bind_run.
      rewrite (gr_set_coeff_run L _ _ _ _ _ _ x _ (store_at_res k) (res_old k Hk))
        by (apply read_midpoint; [lia|done]).
      rewrite (store_at_step _ _ Hk Hes), (take_S_status _ _ Hes).
      rewrite !(decide_False (P := (length a < k)%nat)) by lia.
      by rewrite !(decide_False (P := (length a < S k)%nat)) by lia.
    + rewrite decide_True by lia.
      destruct (lookup_lt_is_Some_2 b k ltac:(lia)) as [y Hy].
      rewrite (lookup_ge_None_2 a k), Hy in Hes by lia.
      rewrite bind_run.
      destruct (decide (length a < k)%nat) as [Hlt|Hlt].
      * rewrite ret_run, bind_run.
        pose proof (store_at_res k) as Hsr. pose proof (store_at_zero k Hlt) as Hsz.
        pose proof (read_radius k y Hy) as Hrr.
        rewrite decide_True in Hsr by done. rewrite decide_True in Hsz by done.
        rewrite decide_True in Hrr by done.
        rewrite (gr_set_interval_mid_rad_run L K _ _ _ _ _ _ _ (gr_init_val L e) y _
                   Hsr (res_old k Hk)); [|by apply read_elem_run|done].
        pose proof (store_at_step _ _ Hk Hes) as Hst.
        rewrite !decide_True in Hst by done. rewrite Hst, (take_S_status _ _ Hes).
        by rewrite !(decide_True (P := (length a < S k)%nat)) by lia.
      * unfold gr_heap_init, alloc.
        assert (dom (<[res := CPoly (take k es.*2 ++ drop k pad)]> σ) = dom σ) as ->.
        { by eapply dom_insert_existing. }
        rewrite bind_run.
        rewrite (gr_set_interval_mid_rad_run L K _ _ _ _ _ (<[z := _]> _)
                   (take k es.*2 ++ drop k pad) (gr_init_val L e) y
                   (old_coeff L e c0 k)); cycle 1.
        { rewrite lookup_insert_ne by (symmetry; by eapply fresh_ne).
          apply lookup_insert_eq. }
        { by apply res_old. }
        { apply read_elem_run, lookup_insert_eq. }
        { eapply read_coeff_entry_run; [|done].
          rewrite lookup_insert_ne by (symmetry; by eapply fresh_ne).
          by rewrite lookup_insert_ne. }
        rewrite insert_insert_ne by (by eapply fresh_ne).
        rewrite insert_insert_eq.
        rewrite insert_new_old; [| by rewrite list_lookup_fmap, Hes | rewrite pad_length; lia].
        rewrite (take_S_status _ _ Hes).
        rewrite !(decide_True (P := (length a < S k)%nat)) by lia.
        by rewrite insert_insert_ne by (symmetry; by eapply fresh_ne).
Qed.

Lemma set_interval_mid_rad_loop j : ∀ k,
  (k + j = n)%nat →
  for_loop j (Z.of_nat k)
    (set_interval_mid_rad_round L K res m r (Z.of_nat (length a)) (Z.of_nat (length b)) e)
    (vars_at k) (store_at k)
  = Some (vars_at n, store_at n).
Proof.
  induction j as [|j IH]; intros k Hk.
  - assert (k = n) as -> by lia. reflexivity.
  - cbn [for_loop]. rewrite bind_run, set_interval_mid_rad_round_run by lia.
    replace (Z.of_nat k + 1) with (Z.of_nat (S k)) by lia.
    apply IH. lia.
Qed.

End interval_loop.

Section interval_theorems.
Context (L : gr_lib) (K : gr_lib_more L) (G : ctx_store).
Implicit Types (σ : heap L) (a b : list (E L)).

Lemma set_interval_mid_rad_zero_radius depth res m r ctx σ e a c0 :
  POLYNOMIAL_ELEM_CTX G ctx = Some e →
  σ !! m = Some (CPoly a) → σ !! r = Some (CPoly []) → σ !! res = Some (CPoly c0) →
  polynomial_set_interval_mid_rad L K G depth res m r ctx σ
  = Some ((gr_poly_set_val L e a).1, <[res := CPoly (gr_poly_set_val L e a).2]> σ).
Proof.
  intros He Hm Hr Hres.
  destruct depth; cbn [polynomial_set_interval_mid_rad];
    rewrite bind_run, (poly_length_run _ _ _ _ Hr), decide_True by done;
    rewrite bind_run, (elem_ctx_run _ _ _ _ _ He);
    by eapply poly_op1_run.
Qed.

Lemma set_interval_mid_rad_unaliased depth res m r ctx σ e a b c0 :
  POLYNOMIAL_ELEM_CTX G ctx = Some e →
  σ !! m = Some (CPoly a) → σ !! r = Some (CPoly b) → σ !! res = Some (CPoly c0) →
  b ≠ [] → res ≠ r →
  polynomial_set_interval_mid_rad L K G depth res m r ctx σ
  = Some (foldl status_or GR_SUCCESS (mid_rad_entries L K e c0 a b).*1,
          <[res := CPoly (_gr_poly_normalise_val L e (mid_rad_entries L K e c0 a b).*2)]> σ).
Proof.
  intros He Hm Hr Hres Hb Hne.
  assert (Z.of_nat (length b) ≠ 0) as Hlen by (destruct b; [done|simpl; lia]).
  assert (polynomial_set_interval_mid_rad L K G depth res m r ctx σ
          = polynomial_set_interval_mid_rad L K G 0 res m r ctx σ) as ->.
  { destruct depth; cbn [polynomial_set_interval_mid_rad]; [done|].
    rewrite !bind_run, !(poly_length_run _ _ _ _ Hr), !decide_False by done.
    rewrite !bind_run, !(elem_ctx_run _ _ _ _ _ He).
    by rewrite !decide_False by done. }
  cbn [polynomial_set_interval_mid_rad].
  rewrite bind_run, (poly_length_run _ _ _ _ Hr), decide_False by done.
  rewrite bind_run, (elem_ctx_run _ _ _ _ _ He), decide_False by done.
  rewrite bind_run, (poly_length_run _ _ _ _ Hm), bind_run, (poly_length_run _ _ _ _ Hr).
  cbv zeta. rewrite <- Nat2Z.inj_max, Nat2Z.id.
  rewrite bind_run, (gr_poly_fit_length_run _ _ _ _ _ _ Hres).
  rewrite bind_run, (_gr_poly_set_length_run _ _ _ _ _ _ Hres).
  rewrite bind_run.
  pose proof (set_interval_mid_rad_loop L K e res m r a b c0 σ Hm Hr Hres Hne
                (length a `max` length b) 0 ltac:(lia)) as Hloop.
  rewrite !(decide_False (P := (length a < 0)%nat)) in Hloop by lia.
  rewrite !take_0, drop_0 in Hloop.
  change (Z.of_nat 0) with 0 in Hloop. simpl in Hloop. rewrite Hloop. clear Hloop.
  cbn [fst snd].
  assert (take (length a `max` length b) (mid_rad_entries L K e c0 a b).*2
            ++ drop (length a `max` length b)
                 (take (length a `max` length b) c0
                    ++ replicate (length a `max` length b - length c0) (gr_init_val L e))
          = (mid_rad_entries L K e c0 a b).*2) as Hall.
  { rewrite take_ge by (by rewrite length_fmap, mid_rad_entries_length).
    rewrite drop_ge by (rewrite length_app, length_take, length_replicate; lia).
    apply app_nil_r. }
  assert (take (length a `max` length b) (mid_rad_entries L K e c0 a b).*1
          = (mid_rad_entries L K e c0 a b).*1) as Hst.
  { apply take_ge. by rewrite length_fmap, mid_rad_entries_length. }
  rewrite Hall, Hst.
  destruct (decide (length a < length a `max` length b)%nat) as [Hz|Hz].
  - unfold gr_heap_clear. rewrite !bind_run.
    rewrite (read_elem_run _ _ (gr_init_val L e)) by apply lookup_insert_eq.
    unfold free. rewrite delete_insert_eq.
    rewrite delete_id by (rewrite lookup_insert_ne; [apply fresh_unused|by eapply fresh_ne]).
    rewrite bind_run, (_gr_poly_normalise_run _ _ _ _ _ (lookup_insert_eq _ _ _)).
    by rewrite insert_insert_eq.
  - rewrite bind_run, ret_run.
    rewrite bind_run, (_gr_poly_normalise_run _ _ _ _ _ (lookup_insert_eq _ _ _)).
    by rewrite insert_insert_eq.
Qed.

Lemma gr_poly_swap_run p q c σ a b :
  σ !! p = Some (CPoly a) → σ !! q = Some (CPoly b) →
  gr_poly_swap L p q c σ = Some (tt, <[q := CPoly a]> (<[p := CPoly b]> σ)).
Proof.
  intros Hp Hq. unfold gr_poly_swap.
  by rewrite bind_run, (read_poly_run _ _ _ _ Hp), bind_run, (read_poly_run _ _ _ _ Hq).
Qed.

(** An operation that succeeded has left its value, whatever the
    coefficient held. *)
Lemma mid_rad_entry_success e c0 c1 a b i :
  (i < length a `max` length b)%nat →
  (mid_rad_entry L K e c0 a b i).1 = GR_SUCCESS →
  mid_rad_entry L K e c0 a b i = mid_rad_entry L K e c1 a b i.
Proof.
  intros Hi. unfold mid_rad_entry, gr_set_interval_mid_rad_result, gr_set_result.
  destruct (a !! i) as [x|] eqn:Ha; destruct (b !! i) as [y|] eqn:Hb; cbn [fst].
  - intros Hs. by rewrite !call_result_success.
  - intros Hs. by rewrite !call_result_success.
  - intros Hs. by rewrite !call_result_success.
  - apply lookup_ge_None in Ha, Hb. lia.
Qed.

Lemma mid_rad_entries_success e c0 c1 a b :
  foldl status_or GR_SUCCESS (mid_rad_entries L K e c0 a b).*1 = GR_SUCCESS →
  mid_rad_entries L K e c0 a b = mid_rad_entries L K e c1 a b.
Proof.
  rewrite status_or_all_success, Forall_lookup. intros [_ Hall].
  apply list_eq. intros i.
  destruct (decide (i < length a `max` length b)%nat) as [Hi|Hi].
  - rewrite !mid_rad_entries_lookup by done. f_equal.
    apply mid_rad_entry_success; [done|]. apply (Hall i).
    by rewrite list_lookup_fmap, mid_rad_entries_lookup.
  - by rewrite !lookup_ge_None_2 by (rewrite mid_rad_entries_length; lia).
Qed.

Lemma set_interval_mid_rad_aliased depth m r ctx σ e a b :
  POLYNOMIAL_ELEM_CTX G ctx = Some e →
  σ !! m = Some (CPoly a) → σ !! r = Some (CPoly b) → b ≠ [] →
  polynomial_set_interval_mid_rad L K G (S depth) r m r ctx σ
  = Some (foldl status_or GR_SUCCESS (mid_rad_entries L K e [] a b).*1,
          <[r := CPoly (_gr_poly_normalise_val L e (mid_rad_entries L K e [] a b).*2)]> σ).
Proof.
  intros He Hm Hr Hb.
  assert (Z.of_nat (length b) ≠ 0) as Hlen by (destruct b; [done|simpl; lia]).
  cbn [polynomial_set_interval_mid_rad].
  rewrite bind_run, (poly_length_run _ _ _ _ Hr), decide_False by done.
  rewrite bind_run, (elem_ctx_run _ _ _ _ _ He), decide_True by done.
  unfold gr_poly_init, alloc. rewrite bind_run.
  assert (fresh (dom σ) ≠ r) as Ht by (apply not_eq_sym; by eapply fresh_ne).
  assert (fresh (dom σ) ≠ m) as Htm by (apply not_eq_sym; by eapply fresh_ne).
  rewrite bind_run.
  rewrite (set_interval_mid_rad_unaliased depth _ m r ctx _ e a b [] He);
    [|by rewrite lookup_insert_ne|by rewrite lookup_insert_ne
     |apply lookup_insert_eq|done|done].
  rewrite insert_insert_eq, bind_run.
  erewrite (gr_poly_swap_run r _ e _ b);
    [|by rewrite lookup_insert_ne|apply lookup_insert_eq].
  rewrite bind_run, (gr_poly_clear_run _ _ _ _ b) by apply lookup_insert_eq.
  rewrite ret_run. do 2 f_equal.
  rewrite delete_insert_eq, delete_insert_ne by done.
  rewrite delete_insert_eq. f_equal. apply delete_id, fresh_unused.
Qed.

(** X1.  In every ring: where the radius polynomial is zero the midpoint is
    copied; otherwise, for a result [res] that is not the radius [r]
    (it may be the midpoint [m]), the result has [max(len m, len r)]
    coefficients before it is normalised, the coefficient [i] being what the
    coefficient operation leaves there: the interval of midpoint [m[i]] and
    radius [r[i]], a copy of [m[i]] where [r] has ended, and the interval of
    radius [r[i]] around a new element where [m] has ended.  An operation
    that fails is not followed by a reset: the coefficient is then what the
    failed routine leaves of the coefficient [res] held there (of a new
    element where [res] was shorter).  The status is the [|=] of the statuses
    of all these coefficient operations, so it is Success exactly when every
    one of them succeeded, and only then is the result sure not to depend on
    what [res] held before.  Nothing else in the store changes, and the
    element [zero] is released.  No nested call is followed ([depth] is
    arbitrary). *)
Theorem polynomial_set_interval_mid_rad_coefficients depth res m r ctx σ e a b c0 :
  POLYNOMIAL_ELEM_CTX G ctx = Some e →
  σ !! m = Some (CPoly a) → σ !! r = Some (CPoly b) → σ !! res = Some (CPoly c0) →
  (b = [] →
   polynomial_set_interval_mid_rad L K G depth res m r ctx σ = gr_poly_set L res m e σ)
  ∧ (b ≠ [] → res ≠ r →
     let es := mid_rad_entries L K e c0 a b in
     polynomial_set_interval_mid_rad L K G depth res m r ctx σ
     = Some (foldl status_or GR_SUCCESS es.*1,
             <[res := CPoly (_gr_poly_normalise_val L e es.*2)]> σ)
     ∧ length es = (length a `max` length b)%nat
     ∧ (foldl status_or GR_SUCCESS es.*1 = GR_SUCCESS
        ↔ ∀ i, (i < length a `max` length b)%nat →
               (mid_rad_entry L K e c0 a b i).1 = GR_SUCCESS)
     ∧ (foldl status_or GR_SUCCESS es.*1 = GR_SUCCESS →
        ∀ c1, es = mid_rad_entries L K e c1 a b)
     ∧ (∀ i x y, a !! i = Some x → b !! i = Some y →
        (gr_set_interval_mid_rad_val K e x y).1 ≠ GR_SUCCESS →
        es.*2 !! i
        = Some (gr_set_interval_mid_rad_failed_val K e (old_coeff L e c0 i) x y))).
Proof.
  intros He Hm Hr Hres. split.
  - intros ->. rewrite (set_interval_mid_rad_zero_radius _ _ _ _ _ _ _ _ _ He Hm Hr Hres).
    symmetry. by eapply poly_op1_run.
  - intros Hb Hne es. split; [by eapply set_interval_mid_rad_unaliased|].
    split; [apply mid_rad_entries_length|]. split; [|split].
    + rewrite status_or_all_success, Forall_lookup. split.
      * intros [_ Hall] i Hi. apply (Hall i).
        subst es. by rewrite list_lookup_fmap, mid_rad_entries_lookup.
      * intros Hall. split; [done|]. intros i s Hs.
        subst es. rewrite list_lookup_fmap in Hs.
        destruct (mid_rad_entries L K e c0 a b !! i) as [v|] eqn:Hv; [|done].
        apply lookup_lt_Some in Hv as Hi. rewrite mid_rad_entries_length in Hi.
        rewrite mid_rad_entries_lookup in Hv by done.
        injection Hv as <-. injection Hs as <-. by apply Hall.
    + intros Hs c1. by apply mid_rad_entries_success.
    + intros i x y Hx Hy Hs. subst es.
      apply lookup_lt_Some in Hx as Hi.
      rewrite list_lookup_fmap, mid_rad_entries_lookup by lia.
      unfold mid_rad_entry. rewrite Hx, Hy.
      unfold gr_set_interval_mid_rad_result. by rewrite call_result_failure.
Qed.

(** X2.  A result that is the radius itself gets what a separate result
    object that is a new (zero) polynomial gets: the same status, the same
    polynomial (computed from the radius as it was at the call; where a
    coefficient operation fails, the coefficient is what that operation
    leaves of a new element, not of the coefficient of the radius), nothing
    else changed and the temporary polynomial released.  One nested call is
    all that is followed. *)
Theorem polynomial_set_interval_mid_rad_aliased depth res m r ctx σ e a b :
  POLYNOMIAL_ELEM_CTX G ctx = Some e →
  σ !! m = Some (CPoly a) → σ !! r = Some (CPoly b) → σ !! res = Some (CPoly []) →
  res ≠ r →
  ∃ st v,
    polynomial_set_interval_mid_rad L K G depth res m r ctx σ
    = Some (st, <[res := CPoly v]> σ)
    ∧ polynomial_set_interval_mid_rad L K G (S depth) r m r ctx σ
      = Some (st, <[r := CPoly v]> σ)
    ∧ (b ≠ [] →
       st = foldl status_or GR_SUCCESS (mid_rad_entries L K e [] a b).*1
       ∧ v = _gr_poly_normalise_val L e (mid_rad_entries L K e [] a b).*2).
Proof.
  intros He Hm Hr Hres Hne. destruct (decide (b = [])) as [->|Hb].
  - eexists _, _. split; [|split]; [by eapply set_interval_mid_rad_zero_radius..|done].
  - eexists _, _. split; [|split].
    + by eapply set_interval_mid_rad_unaliased.
    + by eapply set_interval_mid_rad_aliased.
    + done.
Qed.

End interval_theorems.

(** Over the integers, where only the radius zero can be represented:
    midpoint [2] and radii [0, 0, 1] (the polynomial [x^2]), into a result
    that holds [x^2 - 1].  The midpoint ends after one coefficient, so the
    other two intervals are put around a new element; the last one fails, the
    status says so, and the coefficient 1 that the result held there is
    still there. *)
Lemma polynomial_set_interval_mid_rad_coefficients_witness :
  polynomial_set_interval_mid_rad FmpzLib.lib fmpz_more Sample.contexts 0
    Sample.x_squared_minus_1 Sample.two Sample.x_squared Sample.ZZx Sample.objects
  = Some (GR_UNABLE, <[Sample.x_squared_minus_1 := CPoly [2; 0; 1]]> Sample.objects).
Proof.
  destruct (polynomial_set_interval_mid_rad_coefficients FmpzLib.lib fmpz_more
              Sample.contexts 0 Sample.x_squared_minus_1 Sample.two Sample.x_squared
              Sample.ZZx Sample.objects Sample.ZZ [2] [0; 0; 1] [-1; 0; 1]
              eq_refl eq_refl eq_refl eq_refl)
    as [_ H].
  destruct (H ltac:(done) ltac:(done)) as [-> _]. reflexivity.
Defined.

(** The same midpoint and radii, with a new polynomial and with the radius
    itself as the result: the coefficient of the operation that fails is the
    new element it found, and the result is the constant [2]. *)
Lemma polynomial_set_interval_mid_rad_aliased_witness :
  polynomial_set_interval_mid_rad FmpzLib.lib fmpz_more Sample.contexts 0
    Sample.result Sample.two Sample.x_squared Sample.ZZx Sample.objects
  = Some (GR_UNABLE, <[Sample.result := CPoly [2]]> Sample.objects)
  ∧ polynomial_set_interval_mid_rad FmpzLib.lib fmpz_more Sample.contexts 1
      Sample.x_squared Sample.two Sample.x_squared Sample.ZZx Sample.objects
    = Some (GR_UNABLE, <[Sample.x_squared := CPoly [2]]> Sample.objects).
Proof.
  destruct (polynomial_set_interval_mid_rad_aliased FmpzLib.lib fmpz_more Sample.contexts 0
              Sample.result Sample.two Sample.x_squared Sample.ZZx Sample.objects Sample.ZZ
              [2] [0; 0; 1] eq_refl eq_refl eq_refl eq_refl ltac:(done))
    as (st & v & Hres & Hr & Hv).
  destruct (Hv ltac:(done)) as [Hst Hv']. rewrite Hres, Hr, Hst, Hv'.
  split; reflexivity.
Defined.

(** ** The constants [polynomial_i] and [polynomial_pi] *)

Section constants_theorems.
Context (L : gr_lib) (K : gr_lib_more L) (G : ctx_store).

Lemma set_length_one_then_write c (c0 : list (E L)) (v : E L) :
  <[0%nat := v]> (take 1 c0 ++ replicate (1 - length c0) (gr_init_val L c)) = [v].
Proof. by destruct c0. Qed.

Lemma set_length_one_old c (c0 : list (E L)) :
  (take 1 c0 ++ replicate (1 - length c0) (gr_init_val L c)) !! 0%nat
  = Some (old_coeff L c c0 0).
Proof. by destruct c0. Qed.

Lemma constant_coefficient_run (f : E L → status * E L) res e (σ : heap L) c0 :
  σ !! res = Some (CPoly c0) →
  (gr_poly_fit_length L res 1 e;;
   _gr_poly_set_length L res 1 e;;
   status ← (old ← read_coeff L (coeff_entry res 0);
             write_coeff L res 0 (f old).2;; mret (f old).1);
   _gr_poly_normalise L res e;;
   mret status) σ
  = Some ((f (old_coeff L e c0 0)).1,
          <[res := CPoly (_gr_poly_normalise_val L e [(f (old_coeff L e c0 0)).2])]> σ).
Proof.
  intros Hres.
  rewrite bind_run, (gr_poly_fit_length_run _ _ _ _ _ _ Hres).
  rewrite bind_run, (_gr_poly_set_length_run _ _ 1%nat _ _ _ Hres).
  rewrite !bind_run.
  rewrite (read_coeff_entry_run _ _ 0%nat _ _ _ (lookup_insert_eq _ _ _)
             (set_length_one_old e c0)).
  rewrite bind_run.
  rewrite (write_coeff_run _ _ 0%nat _ _ _ (lookup_insert_eq _ _ _))
    by (destruct c0; simpl; lia).
  rewrite ret_run, insert_insert_eq, set_length_one_then_write.
  rewrite bind_run, (_gr_poly_normalise_run _ _ _ _ _ (lookup_insert_eq _ _ _)).
  by rewrite ret_run, insert_insert_eq.
Qed.

(** X3.  [polynomial_i] and [polynomial_pi] return the status of [gr_i]
    ([gr_pi]) on the base ring and leave in [res] a polynomial of at most one
    coefficient.  When the routine succeeds, that coefficient is its value.
    When it fails, the result is not reset: its coefficient is what the
    failed routine leaves of the constant coefficient [res] held before (of a
    new element if [res] was zero), and only the higher coefficients of [res]
    are gone. *)
Theorem polynomial_i_pi_constant res ctx (σ : heap L) e c0 :
  POLYNOMIAL_ELEM_CTX G ctx = Some e → σ !! res = Some (CPoly c0) →
  ((gr_i_val K e).1 = GR_SUCCESS →
   polynomial_i L K G res ctx σ
   = Some (GR_SUCCESS, <[res := CPoly (_gr_poly_normalise_val L e [(gr_i_val K e).2])]> σ))
  ∧ ((gr_i_val K e).1 ≠ GR_SUCCESS →
     polynomial_i L K G res ctx σ
     = Some ((gr_i_val K e).1,
             <[res := CPoly (_gr_poly_normalise_val L e
                               [gr_i_failed_val K e (old_coeff L e c0 0)])]> σ))
  ∧ ((gr_pi_val K e).1 = GR_SUCCESS →
     polynomial_pi L K G res ctx σ
     = Some (GR_SUCCESS, <[res := CPoly (_gr_poly_normalise_val L e [(gr_pi_val K e).2])]> σ))
  ∧ ((gr_pi_val K e).1 ≠ GR_SUCCESS →
     polynomial_pi L K G res ctx σ
     = Some ((gr_pi_val K e).1,
             <[res := CPoly (_gr_poly_normalise_val L e
                               [gr_pi_failed_val K e (old_coeff L e c0 0)])]> σ)).
Proof.
  intros He Hres. unfold polynomial_i, polynomial_pi, gr_i, gr_pi.
  rewrite !bind_run, !(elem_ctx_run _ _ _ _ _ He).
  rewrite (constant_coefficient_run (gr_i_result L K e) _ _ _ _ Hres).
  rewrite (constant_coefficient_run (gr_pi_result L K e) _ _ _ _ Hres).
  unfold gr_i_result, gr_pi_result.
  split; [|split; [|split]]; intros Hs.
  - by rewrite call_result_success, Hs.
  - by rewrite call_result_failure.
  - by rewrite call_result_success, Hs.
  - by rewrite call_result_failure.
Qed.

End constants_theorems.

(** Over the integers there is no imaginary unit: Domain-error; of the
    polynomial [x + 1] the constant coefficient 1 is left. *)
Lemma polynomial_i_pi_constant_witness :
  polynomial_i FmpzLib.lib fmpz_more Sample.contexts Sample.x_plus_1 Sample.ZZx Sample.objects
  = Some (GR_DOMAIN, <[Sample.x_plus_1 := CPoly [1]]> Sample.objects).
Proof.
  destruct (polynomial_i_pi_constant FmpzLib.lib fmpz_more Sample.contexts
              Sample.x_plus_1 Sample.ZZx Sample.objects Sample.ZZ [1; 1]
              eq_refl eq_refl) as (_ & H & _).
  by rewrite H.
Defined.

(** ** Generators: [polynomial_gens_recursive] *)

Section generators_theorems.
Context (L : gr_lib) (K : gr_lib_more L) (G : ctx_store).





End generators_theorems.


(** ** The life of a context: construction, names, destruction *)

Lemma set_var_other ctx v (G : ctx_store) c : c ≠ ctx → set_var ctx v G !! c = G !! c.
Proof.
  intros Hc. unfold set_var. destruct (G !! ctx) as [s|]; [|done].
  destruct (data s); try done. by rewrite lookup_insert_ne.
Qed.

Lemma set_var_which_ring ctx v (G : ctx_store) c :
  ctx_which_ring (set_var ctx v G) c = ctx_which_ring G c.
Proof.
  unfold ctx_which_ring. destruct (decide (c = ctx)) as [->|Hc].
  - unfold set_var. destruct (G !! ctx) as [s|] eqn:Hs; [|by rewrite Hs].
    destruct (data s); rewrite ?Hs; try done. by rewrite lookup_insert_eq.
  - by rewrite set_var_other.
Qed.

Lemma POLYNOMIAL_CTX_other ctx v (G : ctx_store) c :
  c ≠ ctx → POLYNOMIAL_CTX (set_var ctx v G) c = POLYNOMIAL_CTX G c.
Proof. intros Hc. unfold POLYNOMIAL_CTX. by rewrite set_var_other. Qed.

Lemma set_var_set_var ctx v w (G : ctx_store) :
  set_var ctx w (set_var ctx v G) = set_var ctx w G.
Proof.
  unfold set_var at 2 3. destruct (G !! ctx) as [s|] eqn:Hs.
  - destruct (data s) as [p| |] eqn:Hd.
    + unfold set_var. rewrite lookup_insert_eq. simpl. by rewrite insert_insert_eq.
    + unfold set_var. by rewrite Hs, Hd.
    + unfold set_var. by rewrite Hs, Hd.
  - unfold set_var. by rewrite Hs.
Qed.

(** Setting names in turn leaves the last one. *)
Lemma set_gen_name_in_turn_run ctx names (G : ctx_store) p :
  POLYNOMIAL_CTX G ctx = Some p →
  set_gen_name_in_turn ctx names G
  = Some (match last names with Some s => set_var ctx (heap_str s) G | None => G end).
Proof.
  revert G p. induction names as [|s names IH]; intros G p Hp; [done|].
  cbn [set_gen_name_in_turn]. rewrite (set_gen_name_run _ _ _ _ Hp). cbn [mbind option_bind snd].
  rewrite (IH _ _ (set_var_lookup _ _ _ _ Hp)).
  destruct names as [|s' names]; [done|].
  rewrite last_cons_cons.
  destruct (last (s' :: names)) eqn:Hlast; [|by apply last_None in Hlast].
  by rewrite set_var_set_var.
Qed.

Lemma init_POLYNOMIAL_CTX ctx base g :
  POLYNOMIAL_CTX (ctxs (gr_ctx_init_gr_poly ctx base g)) ctx
  = Some (mk_polynomial_ctx base WORD_MAX default_var).
Proof.
  unfold gr_ctx_init_gr_poly, POLYNOMIAL_CTX.
  case_decide; simpl; by rewrite lookup_insert_eq.
Qed.

Lemma init_other ctx base g c :
  c ≠ ctx → ctxs (gr_ctx_init_gr_poly ctx base g) !! c = ctxs g !! c.
Proof.
  intros Hc. unfold gr_ctx_init_gr_poly. case_decide; simpl; by rewrite lookup_insert_ne.
Qed.

Lemma init_which_ring ctx base g :
  ctx_which_ring (ctxs (gr_ctx_init_gr_poly ctx base g)) ctx = Some GR_CTX_GR_POLY.
Proof.
  unfold gr_ctx_init_gr_poly, ctx_which_ring.
  case_decide; simpl; by rewrite lookup_insert_eq.
Qed.

Lemma named_POLYNOMIAL_CTX ctx (G : ctx_store) p names :
  POLYNOMIAL_CTX G ctx = Some p →
  POLYNOMIAL_CTX (match last names with Some s => set_var ctx (heap_str s) G | None => G end) ctx
  = Some (mk_polynomial_ctx (base_ring p) (degree_limit p)
            (match last names with Some s => heap_str s | None => var p end)).
Proof.
  intros Hp. destruct (last names).
  - by apply set_var_lookup.
  - by destruct p.
Qed.

(** X5.  A context is constructed, given any number of names one after the other,
    and destroyed: every call is defined; the context then is a polynomial
    ring over the same base ring, without a degree ceiling, whose name is a
    heap copy of the last name given, or the shared default when none was;
    the destruction frees exactly that heap copy, and nothing when no name
    was given: the shared default is never freed.  The contexts at other
    addresses are not touched. *)
Theorem generator_name_life_cycle (g : globals) (ctx base : gr_ctx_t) (names : list string) :
  ∃ G',
    set_gen_name_in_turn ctx names (ctxs (gr_ctx_init_gr_poly ctx base g)) = Some G'
    ∧ POLYNOMIAL_CTX G' ctx = Some (mk_polynomial_ctx base WORD_MAX (name_after names))
    ∧ polynomial_ctx_clear ctx G'
      = Some (match last names with Some s => [heap_str s] | None => [] end)
    ∧ ∀ c, c ≠ ctx → G' !! c = ctxs g !! c.
Proof.
  pose proof (init_POLYNOMIAL_CTX ctx base g) as Hp.
  eexists. split; [by eapply set_gen_name_in_turn_run|].
  pose proof (named_POLYNOMIAL_CTX _ _ _ names Hp) as Hp'. simpl in Hp'.
  split; [exact Hp'|]. split.
  - unfold polynomial_ctx_clear. rewrite Hp'. simpl. by destruct (last names).
  - intros c Hc. destruct (last names).
    + by rewrite set_var_other, init_other.
    + by rewrite init_other.
Qed.

(** X6.  Nothing in [polynomial.c] sets a degree ceiling: in a context that was
    constructed and then given names, [polynomial_mul] is [gr_poly_mul] on
    the base ring for all operands, whatever their lengths. *)
Theorem constructed_ring_has_no_ceiling (L : gr_lib) (g : globals) (ctx base : gr_ctx_t)
    (names : list string) :
  ∃ G',
    set_gen_name_in_turn ctx names (ctxs (gr_ctx_init_gr_poly ctx base g)) = Some G'
    ∧ ∀ res poly1 poly2 σ,
        polynomial_mul L G' res poly1 poly2 ctx σ = gr_poly_mul L res poly1 poly2 base σ.
Proof.
  pose proof (init_POLYNOMIAL_CTX ctx base g) as Hp.
  eexists. split; [by eapply set_gen_name_in_turn_run|].
  pose proof (named_POLYNOMIAL_CTX _ _ _ names Hp) as Hp'. simpl in Hp'.
  intros res poly1 poly2 σ. unfold polynomial_mul, poly_ctx.
  rewrite Hp', bind_run, lift_opt_run. cbn [degree_limit base_ring].
  rewrite decide_False; [done|]. by intros [].
Qed.

Lemma named_POLYNOMIAL_CTX_other ctx (G : ctx_store) names c :
  c ≠ ctx →
  POLYNOMIAL_CTX (match last names with Some s => set_var ctx (heap_str s) G | None => G end) c
  = POLYNOMIAL_CTX G c.
Proof. intros Hc. destruct (last names); [by apply POLYNOMIAL_CTX_other|done]. Qed.

Lemma named_which_ring ctx (G : ctx_store) names c :
  ctx_which_ring (match last names with Some s => set_var ctx (heap_str s) G | None => G end) c
  = ctx_which_ring G c.
Proof. destruct (last names); [apply set_var_which_ring|done]. Qed.

Lemma c_str_name_after names : c_str (name_after names) = Some (name_text_after names).
Proof. unfold name_after, name_text_after. by destruct (last names). Qed.

(** X7.  Two contexts are constructed and each is given names.  Their generator
    names are then compared by their characters, not by their addresses: a
    context that was named ["x"] has the same name as one that kept the
    default, and two contexts given the same name, each with a heap copy of
    its own, have the same name.  With the same base ring and the same name,
    an element of the one is multiplied as a polynomial of the other
    ([polynomial_mul], no coercion). *)
Theorem generator_names_are_compared_by_content (L : gr_lib) (g : globals)
    (c1 c2 base1 base2 : gr_ctx_t) (names1 names2 : list string) :
  c1 ≠ c2 →
  ∃ G1 G2,
    set_gen_name_in_turn c1 names1
      (ctxs (gr_ctx_init_gr_poly c2 base2 (gr_ctx_init_gr_poly c1 base1 g))) = Some G1
    ∧ set_gen_name_in_turn c2 names2 G1 = Some G2
    ∧ same_var G2 c1 c2
      = Some (bool_decide (name_text_after names1 = name_text_after names2))
    ∧ is_same_polynomial_ring G2 c1 c2
      = Some (bool_decide (base1 = base2 ∧ name_text_after names1 = name_text_after names2))
    ∧ (c1 ≠ base2 → base1 = base2 → name_text_after names1 = name_text_after names2 →
       ∀ res poly x σ,
         polynomial_mul_other L G2 res poly x c1 c2 σ = polynomial_mul L G2 res poly x c2 σ).
Proof.
  intros Hne.
  set (G0 := ctxs (gr_ctx_init_gr_poly c2 base2 (gr_ctx_init_gr_poly c1 base1 g))).
  assert (POLYNOMIAL_CTX G0 c1 = Some (mk_polynomial_ctx base1 WORD_MAX default_var)) as H01.
  { rewrite <- (init_POLYNOMIAL_CTX c1 base1 g). unfold POLYNOMIAL_CTX. subst G0.
    by rewrite init_other. }
  assert (POLYNOMIAL_CTX G0 c2 = Some (mk_polynomial_ctx base2 WORD_MAX default_var)) as H02
    by apply init_POLYNOMIAL_CTX.
  assert (ctx_which_ring G0 c1 = Some GR_CTX_GR_POLY) as Hk0.
  { rewrite <- (init_which_ring c1 base1 g). unfold ctx_which_ring. subst G0.
    by rewrite init_other. }
  eexists _, _. split; [by eapply set_gen_name_in_turn_run|].
  set (G1 := match last names1 with Some s => set_var c1 (heap_str s) G0 | None => G0 end).
  assert (POLYNOMIAL_CTX G1 c1
          = Some (mk_polynomial_ctx base1 WORD_MAX (name_after names1))) as H11
    by apply (named_POLYNOMIAL_CTX _ _ _ names1 H01).
  assert (POLYNOMIAL_CTX G1 c2 = Some (mk_polynomial_ctx base2 WORD_MAX default_var)) as H12.
  { subst G1. by rewrite named_POLYNOMIAL_CTX_other. }
  split; [by eapply set_gen_name_in_turn_run|].
  set (G2 := match last names2 with Some s => set_var c2 (heap_str s) G1 | None => G1 end).
  assert (POLYNOMIAL_CTX G2 c2
          = Some (mk_polynomial_ctx base2 WORD_MAX (name_after names2))) as H22
    by apply (named_POLYNOMIAL_CTX _ _ _ names2 H12).
  assert (POLYNOMIAL_CTX G2 c1
          = Some (mk_polynomial_ctx base1 WORD_MAX (name_after names1))) as H21.
  { subst G2. by rewrite named_POLYNOMIAL_CTX_other. }
  assert (ctx_which_ring G2 c1 = Some GR_CTX_GR_POLY) as Hk2.
  { subst G2 G1. by rewrite !named_which_ring. }
  assert (same_var G2 c1 c2
          = Some (bool_decide (name_text_after names1 = name_text_after names2))) as Hsame.
  { unfold same_var, strcmp_eq. rewrite H21, H22. simpl. by rewrite !c_str_name_after. }
  assert (is_same_polynomial_ring G2 c1 c2
          = Some (bool_decide (base1 = base2
                               ∧ name_text_after names1 = name_text_after names2))) as Hring.
  { unfold is_same_polynomial_ring, POLYNOMIAL_ELEM_CTX. rewrite Hk2, H21, H22. simpl.
    destruct (decide (base1 = base2)) as [Hb|Hb].
    - rewrite Hsame. f_equal. apply bool_decide_ext. tauto.
    - f_equal. symmetry. apply bool_decide_eq_false. tauto. }
  split; [done|]. split; [done|].
  intros Hc1 Hb Hn res poly x σ. fold G1. fold G2.
  unfold polynomial_mul_other, elem_ctx, POLYNOMIAL_ELEM_CTX.
  rewrite H22. cbn [fmap option_fmap option_map base_ring].
  rewrite bind_run, lift_opt_run, decide_False by done.
  rewrite Hring, bind_run, lift_opt_run.
  by rewrite bool_decide_eq_true_2.
Qed.

(** The ring of polynomials in [x] over the integers and a second one that
    was named ["y"] and then ["x"]. *)
Lemma generator_names_are_compared_by_content_witness :
  ∃ G1 G2,
    set_gen_name_in_turn Sample.ZZx_again ["y"; "x"]
      (ctxs (gr_ctx_init_gr_poly Sample.ZZx Sample.ZZ
               (gr_ctx_init_gr_poly Sample.ZZx_again Sample.ZZ globals_start))) = Some G1
    ∧ set_gen_name_in_turn Sample.ZZx [] G1 = Some G2
    ∧ is_same_polynomial_ring G2 Sample.ZZx_again Sample.ZZx = Some true.
Proof.
  destruct (generator_names_are_compared_by_content FmpzLib.lib globals_start
              Sample.ZZx_again Sample.ZZx Sample.ZZ Sample.ZZ ["y"; "x"] []
              ltac:(done)) as (G1 & G2 & H1 & H2 & _ & H & _).
  exists G1, G2. split; [exact H1|]. split; [exact H2|]. exact H.
Defined.

(** ** The method table as a map *)



(** ** More about the threads: how often the table is constructed, and the
    contexts *)

Lemma filter_length_insert {A} (P : A → Prop) `{∀ x, Decision (P x)} (l : list A) i x y :
  l !! i = Some x →
  (length (filter P (<[i := y]> l)) + (if decide (P x) then 1 else 0)
   = length (filter P l) + (if decide (P y) then 1 else 0))%nat.
Proof.
  revert i. induction l as [|a l IH]; intros i Hi; [done|].
  destruct i as [|i]; simpl in Hi.
  - injection Hi as ->. change (<[0%nat := y]> (x :: l)) with (y :: l).
    rewrite !filter_cons. repeat case_decide; simpl; lia.
  - change (<[S i := y]> (a :: l)) with (a :: <[i := y]> l).
    rewrite !filter_cons. specialize (IH i Hi).
    destruct (decide (P a)); simpl; lia.
Qed.

Lemma thread_step_count t g :
  (tab_init_calls (thread_step t g).2 + (if decide (past_tab_init t) then 1 else 0)
   ≤ tab_init_calls g + (if decide (past_tab_init (thread_step t g).1) then 1 else 0))%nat.
Proof.
  unfold thread_step, past_tab_init. destruct t as [p c b]. simpl.
  destruct p; simpl; repeat case_decide; simpl; try lia;
    try (exfalso; naive_solver).
Qed.

Lemma system_step_count i s :
  (tab_init_calls s.2 ≤ length (filter past_tab_init s.1))%nat →
  (tab_init_calls (system_step i s).2 ≤ length (filter past_tab_init (system_step i s).1))%nat.
Proof.
  intros Hs. unfold system_step. destruct (s.1 !! i) as [t|] eqn:Ht; [|done]. simpl.
  pose proof (filter_length_insert past_tab_init s.1 i t (thread_step t s.2).1 Ht).
  pose proof (thread_step_count t s.2). lia.
Qed.

(** X9.  In every schedule and at every moment, the table has been constructed
    at most once by each call that is past [gr_method_tab_init], so at most
    as many times as there are calls. *)
Theorem table_constructed_at_most_once_per_call (calls : list (gr_ctx_t * gr_ctx_t))
    (sched : list nat) :
  let s := run_schedule sched ((λ c, init_call c.1 c.2) <$> calls, globals_start) in
  (tab_init_calls s.2 ≤ length (filter past_tab_init s.1))%nat
  ∧ (length (filter past_tab_init s.1) ≤ length calls)%nat.
Proof.
  intros s. split.
  - subst s. unfold run_schedule.
    assert (∀ s1 : system,
              (tab_init_calls s1.2 ≤ length (filter past_tab_init s1.1))%nat →
              (tab_init_calls (foldl (λ s i, system_step i s) s1 sched).2
               ≤ length (filter past_tab_init (foldl (λ s i, system_step i s) s1 sched).1))%nat)
      as Hrun.
    { induction sched as [|i sched IH]; intros s1 Hs1; [done|].
      simpl. apply IH. by apply system_step_count. }
    apply Hrun. simpl. lia.
  - etrans; [apply length_filter|].
    subst s. rewrite run_schedule_length. simpl. by rewrite length_fmap.
Qed.

Lemma thread_step_keeps_call t g :
  th_ctx (thread_step t g).1 = th_ctx t ∧ th_base_ring (thread_step t g).1 = th_base_ring t.
Proof. unfold thread_step. destruct (pc t); repeat case_decide; done. Qed.

Lemma thread_step_contexts t g :
  ctxs (thread_step t g).2
  = if decide (pc t = at_fields)
    then <[th_ctx t := mk_gr_ctx GR_CTX_GR_POLY sizeof_gr_poly_struct WORD_MAX
                         tab_gr_poly_methods
                         (data_polynomial
                            (mk_polynomial_ctx (th_base_ring t) WORD_MAX default_var))]>
           (ctxs g)
    else ctxs g.
Proof. unfold thread_step. destruct (pc t); repeat case_decide; done. Qed.

Lemma constructed_alone_eq ctx base_ring :
  constructed_alone ctx base_ring
  = Some (mk_gr_ctx GR_CTX_GR_POLY sizeof_gr_poly_struct WORD_MAX tab_gr_poly_methods
            (data_polynomial (mk_polynomial_ctx base_ring WORD_MAX default_var))).
Proof. unfold constructed_alone, gr_ctx_init_gr_poly. simpl. apply lookup_insert_eq. Qed.

Lemma system_step_calls i s :
  (λ t, (th_ctx t, th_base_ring t)) <$> (system_step i s).1
  = (λ t, (th_ctx t, th_base_ring t)) <$> s.1.
Proof.
  unfold system_step. destruct (s.1 !! i) as [t|] eqn:Ht; [|done]. simpl.
  rewrite list_fmap_insert. apply list_insert_id.
  rewrite list_lookup_fmap, Ht. simpl.
  by destruct (thread_step_keeps_call t s.2) as [-> ->].
Qed.

Lemma run_schedule_calls sched s :
  (λ t, (th_ctx t, th_base_ring t)) <$> (run_schedule sched s).1
  = (λ t, (th_ctx t, th_base_ring t)) <$> s.1.
Proof.
  revert s. induction sched as [|i sched IH]; intros s; [done|].
  change (run_schedule (i :: sched) s) with (run_schedule sched (system_step i s)).
  by rewrite IH, system_step_calls.
Qed.

Lemma contexts_invariant_step i s : contexts_invariant s → contexts_invariant (system_step i s).
Proof.
  intros [Hnd Hctx].
  assert (th_ctx <$> (system_step i s).1 = th_ctx <$> s.1) as Hsame.
  { pose proof (system_step_calls i s) as Heq.
    apply (f_equal (fmap fst)) in Heq. by rewrite <- !list_fmap_compose in Heq. }
  split; [by rewrite Hsame|].
  unfold system_step in *. destruct (s.1 !! i) as [ti|] eqn:Hti; [|done]. simpl in *.
  intros j t Hj Hpc. rewrite thread_step_contexts.
  destruct (decide (j = i)) as [->|Hji].
  - rewrite list_lookup_insert_eq in Hj by (by eapply lookup_lt_Some).
    injection Hj as <-.
    destruct (thread_step_keeps_call ti s.2) as [-> ->].
    destruct (decide (pc ti = at_fields)) as [Hf|Hf].
    + by rewrite lookup_insert_eq, constructed_alone_eq.
    + by apply (Hctx i).
  - rewrite list_lookup_insert_ne in Hj by done.
    destruct (decide (pc ti = at_fields)) as [Hf|Hf]; [|by apply (Hctx j)].
    rewrite lookup_insert_ne; [by apply (Hctx j)|].
    intros Heq. apply Hji. symmetry.
    apply (NoDup_lookup _ _ _ (th_ctx t) Hnd);
      rewrite list_lookup_fmap, ?Hj, ?Hti; simpl; congruence.
Qed.

Lemma contexts_invariant_run sched s :
  contexts_invariant s → contexts_invariant (run_schedule sched s).
Proof.
  revert s. induction sched as [|i sched IH]; intros s Hs; [done|].
  apply (IH (system_step i s)). by apply contexts_invariant_step.
Qed.

Lemma contexts_invariant_start (calls : list (gr_ctx_t * gr_ctx_t)) :
  NoDup calls.*1 →
  contexts_invariant ((λ c, init_call c.1 c.2) <$> calls, globals_start).
Proof.
  intros Hnd. split.
  - simpl. rewrite <- list_fmap_compose.
    by replace (th_ctx ∘ (λ c : gr_ctx_t * gr_ctx_t, init_call c.1 c.2)) with
      (fst : gr_ctx_t * gr_ctx_t → gr_ctx_t) by done.
  - simpl. intros i t Ht Hpc. rewrite list_lookup_fmap in Ht.
    destruct (calls !! i); [|done]. injection Ht as <-. done.
Qed.

(** Every call has its thread, at every moment of every schedule. *)
Lemma thread_of_call (calls : list (gr_ctx_t * gr_ctx_t)) sched c :
  c ∈ calls →
  ∃ i t,
    (run_schedule sched ((λ c, init_call c.1 c.2) <$> calls, globals_start)).1 !! i = Some t
    ∧ th_ctx t = c.1 ∧ th_base_ring t = c.2.
Proof.
  intros [i Hi]%list_elem_of_lookup.
  set (s := run_schedule sched ((λ c, init_call c.1 c.2) <$> calls, globals_start)).
  pose proof (run_schedule_calls sched ((λ c, init_call c.1 c.2) <$> calls, globals_start))
    as Hcalls.
  fold s in Hcalls. simpl in Hcalls. rewrite <- list_fmap_compose in Hcalls.
  apply (f_equal (λ l, l !! i)) in Hcalls.
  rewrite !list_lookup_fmap, Hi in Hcalls.
  destruct (s.1 !! i) as [t|] eqn:Ht; [|done].
  exists i, t. split; [done|]. by injection Hcalls as <- <-.
Qed.

(** X10.  The race on the table does not reach the contexts: when the calls
    construct contexts at different addresses, then in every schedule, once
    all calls have returned, each context is exactly the one that
    [gr_ctx_init_gr_poly] makes when it runs alone: a polynomial ring over
    its base ring with the default name and no degree ceiling. *)
Theorem contexts_constructed_in_every_schedule (calls : list (gr_ctx_t * gr_ctx_t))
    (sched : list nat) :
  NoDup calls.*1 →
  let s := run_schedule sched ((λ c, init_call c.1 c.2) <$> calls, globals_start) in
  all_returned s →
  ∀ c, c ∈ calls → ctxs s.2 !! c.1 = constructed_alone c.1 c.2.
Proof.
  intros Hnd s Hret c Hc.
  destruct (contexts_invariant_run sched _ (contexts_invariant_start calls Hnd)) as [_ Hctx].
  fold s in Hctx.
  destruct (thread_of_call calls sched c Hc) as (i & t & Ht & <- & <-). fold s in Ht.
  apply (Hctx i t Ht).
  unfold all_returned in Hret. rewrite Forall_lookup in Hret.
  by rewrite (Hret i t Ht).
Qed.

(** Two contexts constructed by two threads whose steps alternate. *)
Lemma contexts_constructed_in_every_schedule_witness :
  ctxs (run_schedule [0; 1; 0; 1; 0; 1; 0; 1]%nat
          ((λ c, init_call c.1 c.2) <$> [(Sample.ZZx, Sample.ZZ); (Sample.ZZy, Sample.ZZ)],
           globals_start)).2 !! Sample.ZZy
  = constructed_alone Sample.ZZy Sample.ZZ.
Proof.
  refine (contexts_constructed_in_every_schedule
            [(Sample.ZZx, Sample.ZZ); (Sample.ZZy, Sample.ZZ)]
            [0; 1; 0; 1; 0; 1; 0; 1]%nat _ _ (Sample.ZZy, Sample.ZZ) _).
  - apply (bool_decide_unpack _). by vm_compute.
  - repeat constructor.
  - apply list_elem_of_In. simpl. tauto.
Defined.

(** A predicate looks at the context store only at the context it is
    called with. *)
Lemma call_ctx_predicate_local (L : gr_lib) (G G' : ctx_store) f ctx :
  G !! ctx = G' !! ctx → call_ctx_predicate L G f ctx = call_ctx_predicate L G' f ctx.
Proof.
  intros Heq.
  assert (POLYNOMIAL_ELEM_CTX G ctx = POLYNOMIAL_ELEM_CTX G' ctx) as He
    by (unfold POLYNOMIAL_ELEM_CTX, POLYNOMIAL_CTX; by rewrite Heq).
  destruct f; try done; simpl;
    unfold polynomial_ctx_is_ring, polynomial_ctx_is_commutative_ring,
      polynomial_ctx_is_integral_domain, polynomial_ctx_is_unique_factorization_domain,
      polynomial_ctx_is_rational_vector_space, polynomial_ctx_is_real_vector_space,
      polynomial_ctx_is_complex_vector_space, polynomial_ctx_is_threadsafe;
    by rewrite He.
Qed.

(** X12.  A context constructed while other constructions run is as usable
    as one constructed alone: when the calls construct contexts at different
    addresses, then in every schedule, once all calls have returned, every
    predicate dispatched on such a context through the shared table answers
    what it answers after a construction that ran alone from the start of
    the process. *)
Theorem predicates_after_concurrent_construction (L : gr_lib)
    (calls : list (gr_ctx_t * gr_ctx_t)) (sched : list nat) :
  NoDup calls.*1 →
  let s := run_schedule sched ((λ c, init_call c.1 c.2) <$> calls, globals_start) in
  all_returned s →
  ∀ c m, c ∈ calls →
    let alone := gr_ctx_init_gr_poly c.1 c.2 globals_start in
    gr_ctx_predicate L (ctxs s.2) (_gr_poly_methods s.2) m c.1
    = gr_ctx_predicate L (ctxs alone) (_gr_poly_methods alone) m c.1.
Proof.
  intros Hnd s Hret c m Hc alone.
  destruct (contexts_invariant_run sched _ (contexts_invariant_start calls Hnd)) as [_ Hctx].
  fold s in Hctx.
  destruct (thread_of_call calls sched c Hc) as (i & t & Ht & Hc1 & Hc2). fold s in Ht.
  unfold all_returned in Hret. rewrite Forall_lookup in Hret.
  pose proof (Hret i t Ht) as Hpc.
  assert (ctxs s.2 !! c.1 = ctxs alone !! c.1) as Hsame.
  { subst alone. rewrite <- Hc1, <- Hc2. apply (Hctx i t Ht). by rewrite Hpc. }
  destruct (guard_invariant_run sched _ (guard_invariant_start calls))
    as (_ & Hbuilt & Hflag & Hts). fold s in Hbuilt, Hflag, Hts.
  rewrite Forall_lookup in Hts. destruct (Hts i t Ht) as [_ Hf]. specialize (Hf Hpc).
  destruct Hflag as [H0|[_ Hcount]]; [by rewrite H0 in Hf|].
  unfold gr_ctx_predicate. rewrite (Hbuilt Hcount). simpl.
  destruct (gr_method_tab_init empty_method_table _gr_poly_methods_input m); [|done].
  simpl. by apply call_ctx_predicate_local.
Qed.

(** Two constructions whose steps alternate, the table being constructed
    twice: the second context is a ring as the integers are. *)
Lemma predicates_after_concurrent_construction_witness :
  gr_ctx_predicate FmpzLib.lib
    (ctxs (run_schedule [0; 1; 0; 1; 0; 1; 0; 1]%nat
             ((λ c, init_call c.1 c.2) <$> [(Sample.ZZx, Sample.ZZ); (Sample.ZZy, Sample.ZZ)],
              globals_start)).2)
    (_gr_poly_methods
       (run_schedule [0; 1; 0; 1; 0; 1; 0; 1]%nat
          ((λ c, init_call c.1 c.2) <$> [(Sample.ZZx, Sample.ZZ); (Sample.ZZy, Sample.ZZ)],
           globals_start)).2)
    GR_METHOD_CTX_IS_RING Sample.ZZy
  = Some T_TRUE.
Proof.
  etrans; [|reflexivity].
  exact (predicates_after_concurrent_construction FmpzLib.lib
             [(Sample.ZZx, Sample.ZZ); (Sample.ZZy, Sample.ZZ)]
             [0; 1; 0; 1; 0; 1; 0; 1]%nat
             ltac:(apply (bool_decide_unpack _); by vm_compute)
             ltac:(repeat constructor)
             (Sample.ZZy, Sample.ZZ) GR_METHOD_CTX_IS_RING
             ltac:(apply list_elem_of_In; simpl; tauto)).
Defined.

(** ** [polynomial_div] next to [polynomial_euclidean_div] *)

(** X11.  For a divisor that is not a constant, [polynomial_div] leaves in [res]
    what [polynomial_euclidean_div] leaves there, the quotient of the long
    division, also when it reports that the division is not exact; the two
    stores are the same.  A failure of the long division is the status of
    both, and [polynomial_div] succeeds only if [polynomial_euclidean_div]
    does. *)
Theorem polynomial_div_stores_euclidean_quotient (L : gr_lib) (G : ctx_store)
    res x y ctx (σ : heap L) e a b q0 :
  POLYNOMIAL_ELEM_CTX G ctx = Some e →
  σ !! x = Some (CPoly a) → σ !! y = Some (CPoly b) → σ !! res = Some (CPoly q0) →
  length b ≠ 1%nat →
  ∃ st_div st_euclidean σ',
    polynomial_div L G res x y ctx σ = Some (st_div, σ')
    ∧ polynomial_euclidean_div L G res x y ctx σ = Some (st_euclidean, σ')
    ∧ (st_euclidean ≠ GR_SUCCESS → st_div = st_euclidean)
    ∧ (st_div = GR_SUCCESS → st_euclidean = GR_SUCCESS).
Proof.
  intros He Hx Hy Hres Hlen. eexists _, _, _.
  split; [by eapply polynomial_div_long_run|].
  split; [by eapply polynomial_euclidean_div_run|].
  unfold div_status. destruct (decide _) as [Hs|Hs]; [by split|by split].
Qed.

(** Over the integers, [x^2] divided by [x + 1]: both leave the quotient
    [x - 1]; the remainder is 1. *)
Lemma polynomial_div_stores_euclidean_quotient_witness :
  ∃ st_div st_euclidean σ',
    polynomial_div FmpzLib.lib Sample.contexts Sample.result Sample.x_squared
      Sample.x_plus_1 Sample.ZZx Sample.objects = Some (st_div, σ')
    ∧ polynomial_euclidean_div FmpzLib.lib Sample.contexts Sample.result Sample.x_squared
        Sample.x_plus_1 Sample.ZZx Sample.objects = Some (st_euclidean, σ')
    ∧ (st_euclidean ≠ GR_SUCCESS → st_div = st_euclidean)
    ∧ (st_div = GR_SUCCESS → st_euclidean = GR_SUCCESS).
Proof.
  apply (polynomial_div_stores_euclidean_quotient FmpzLib.lib Sample.contexts
           Sample.result Sample.x_squared Sample.x_plus_1 Sample.ZZx Sample.objects
           Sample.ZZ [0; 0; 1] [1; 1] []); done.
Defined.

(** ** What the operations with temporaries may change *)

Section frame.
Context (L : gr_lib) (G : ctx_store).
Implicit Types (σ τ : heap L).

Lemma alloc_inv c p σ σ' :
  alloc L c σ = Some (p, σ') → p = fresh (dom σ) ∧ σ' = <[p := c]> σ.
Proof. unfold alloc. by intros [= <- <-]. Qed.

Lemma poly_length_inv p n σ σ' : poly_length L p σ = Some (n, σ') → σ' = σ.
Proof.
  unfold poly_length. intros (cs & σ1 & [_ ->]%read_poly_inv & H)%bind_inv.
  by apply ret_inv in H as [_ ->].
Qed.

Lemma gr_poly_clear_inv p c u σ σ' :
  gr_poly_clear L p c σ = Some (u, σ') → σ' = delete p σ.
Proof.
  unfold gr_poly_clear. intros (cs & σ1 & [_ ->]%read_poly_inv & H)%bind_inv.
  unfold free in H. by injection H as _ <-.
Qed.

Lemma polynomial_clear_inv p ctx u σ σ' :
  polynomial_clear L G p ctx σ = Some (u, σ') → σ' = delete p σ.
Proof.
  unfold polynomial_clear. intros (e & σ1 & [_ ->]%lift_opt_inv & H)%bind_inv.
  by eapply gr_poly_clear_inv.
Qed.

Lemma write_elem_inv p e u σ σ' :
  write_elem L p e σ = Some (u, σ') →
  (∃ old, σ !! p = Some (CElem old)) ∧ σ' = <[p := CElem e]> σ.
Proof.
  unfold write_elem. intros (old & σ1 & [Hc ->]%read_elem_inv & H)%bind_inv.
  injection H as _ <-. eauto.
Qed.

Lemma deref_scalar_inv res c v σ σ' : deref_scalar L res c σ = Some (v, σ') → σ' = σ.
Proof.
  unfold deref_scalar. destruct c as [t|y].
  - by intros [_ ->]%read_elem_inv.
  - destruct (decide _) as [?|?]; [done|].
    intros (cs & σ1 & [_ ->]%read_poly_inv & H)%bind_inv.
    by apply lift_opt_inv in H as [_ ->].
Qed.

Lemma gr_poly_div_scalar_inv res poly x c st σ σ' :
  gr_poly_div_scalar L res poly x c σ = Some (st, σ') →
  ∃ old v, σ !! res = Some (CPoly old) ∧ σ' = <[res := CPoly v]> σ.
Proof.
  unfold gr_poly_div_scalar. intros (p & σ1 & [_ ->]%read_poly_inv & H)%bind_inv.
  apply bind_inv in H as (v & σ1 & ->%deref_scalar_inv & H).
  apply bind_inv in H as (held & σ1 & [_ ->]%read_poly_inv & H).
  apply poly_set_const_inv in H as [[old Hold] ->]. eauto.
Qed.

Lemma gr_poly_mul_scalar_inv res poly x c st σ σ' :
  gr_poly_mul_scalar L res poly x c σ = Some (st, σ') →
  ∃ old v, σ !! res = Some (CPoly old) ∧ σ' = <[res := CPoly v]> σ.
Proof.
  unfold gr_poly_mul_scalar. intros (p & σ1 & [_ ->]%read_poly_inv & H)%bind_inv.
  apply bind_inv in H as (v & σ1 & ->%deref_scalar_inv & H).
  apply poly_set_const_inv in H as [[old Hold] ->]. eauto.
Qed.

Lemma gr_poly_scalar_mul_inv res poly x c st σ σ' :
  gr_poly_scalar_mul L res x poly c σ = Some (st, σ') →
  ∃ old v, σ !! res = Some (CPoly old) ∧ σ' = <[res := CPoly v]> σ.
Proof.
  unfold gr_poly_scalar_mul. intros (p & σ1 & [_ ->]%read_poly_inv & H)%bind_inv.
  apply bind_inv in H as (v & σ1 & ->%deref_scalar_inv & H).
  apply poly_set_const_inv in H as [[old Hold] ->]. eauto.
Qed.

Lemma gr_poly_divrem_inv Q R A B c st σ σ' :
  gr_poly_divrem L Q R A B c σ = Some (st, σ') →
  ∃ oq q r, σ !! Q = Some (CPoly oq) ∧ σ' = <[R := CPoly r]> (<[Q := CPoly q]> σ)
            ∧ ∃ or, <[Q := CPoly q]> σ !! R = Some (CPoly or).
Proof.
  unfold gr_poly_divrem. intros (a & σ1 & [_ ->]%read_poly_inv & H)%bind_inv.
  apply bind_inv in H as (b & σ1 & [_ ->]%read_poly_inv & H).
  apply bind_inv in H as (q0 & σ1 & [_ ->]%read_poly_inv & H).
  apply bind_inv in H as (r0 & σ1 & [_ ->]%read_poly_inv & H). cbv zeta in H.
  apply bind_inv in H as (u & σ1 & [[oq Hq] ->]%write_poly_inv & H).
  apply bind_inv in H as (u' & σ2 & [[or Hr] ->]%write_poly_inv & H).
  apply ret_inv in H as [_ ->]. eauto 10.
Qed.

Lemma polynomial_mul_frame res poly1 poly2 ctx st σ σ' :
  polynomial_mul L G res poly1 poly2 ctx σ = Some (st, σ') → changed_at_most res σ σ'.
Proof.
  unfold polynomial_mul. intros (p & σ1 & [_ ->]%lift_opt_inv & H)%bind_inv.
  destruct (decide (degree_limit p ≠ WORD_MAX)).
  - apply bind_inv in H as (l1 & σ1 & ->%poly_length_inv & H).
    apply bind_inv in H as (l2 & σ1 & ->%poly_length_inv & H).
    destruct (decide _) as [?|?].
    + apply ret_inv in H as [_ ->]. by left.
    + right. by eapply poly_op2_inv.
  - right. by eapply poly_op2_inv.
Qed.

(** A temporary polynomial [t], made at a new address, written and then
    released, leaves no trace; a write to [res] in between stays, unless
    [res] is the temporary itself. *)
Lemma temporary_released res σ τ (c : cell (E L) (X L)) :
  changed_at_most res (<[fresh (dom σ) := c]> σ) τ →
  changed_at_most res σ (delete (fresh (dom σ)) τ).
Proof.
  intros [->|(old & v & Hold & ->)].
  - left. apply delete_fresh_insert.
  - destruct (decide (res = fresh (dom σ))) as [->|Hne].
    + left. rewrite insert_insert_eq. apply delete_fresh_insert.
    + right. rewrite lookup_insert_ne in Hold by done. exists old, v. split; [done|].
      rewrite delete_insert_ne by done. by rewrite delete_fresh_insert.
Qed.

Lemma changed_at_most_trans res σ1 σ2 σ3 :
  changed_at_most res σ1 σ2 → changed_at_most res σ2 σ3 → changed_at_most res σ1 σ3.
Proof.
  intros [->|(old & v & Hold & ->)] [->|(old' & v' & Hold' & ->)].
  - by left.
  - right. eauto.
  - right. eauto.
  - right. exists old, v'. split; [done|]. by rewrite insert_insert_eq.
Qed.

Lemma mul_through_temporary_frame (mul : ptr → M L status) res x x_ctx ctx st σ σ' :
  (∀ t st τ τ', mul t τ = Some (st, τ') → changed_at_most res τ τ') →
  (t ← polynomial_init L G ctx;
   status ← polynomial_set_other L G t x x_ctx ctx;
   status ← (if decide (status = GR_SUCCESS) then mul t else mret status);
   polynomial_clear L G t ctx;;
   mret status) σ = Some (st, σ') →
  changed_at_most res σ σ'.
Proof.
  intros Hmul (t & σ1 & Hinit & H)%bind_inv.
  unfold polynomial_init in Hinit.
  apply bind_inv in Hinit as (e & σ0 & [_ ->]%lift_opt_inv & [-> ->]%alloc_inv).
  apply bind_inv in H as (s1 & σ2 & Hset & H).
  apply polynomial_set_other_writes_res in Hset as (old & v & _ & ->).
  rewrite insert_insert_eq in H.
  apply bind_inv in H as (s2 & σ3 & Hbranch & H).
  apply bind_inv in H as (u & σ4 & ->%polynomial_clear_inv & H).
  apply ret_inv in H as [_ ->].
  apply (temporary_released _ _ _ (CPoly v)).
  destruct (decide _) as [?|?].
  - by eapply Hmul.
  - apply ret_inv in Hbranch as [_ ->]. by left.
Qed.

Lemma polynomial_mul_other_frame res poly x x_ctx ctx st σ σ' :
  polynomial_mul_other L G res poly x x_ctx ctx σ = Some (st, σ') → changed_at_most res σ σ'.
Proof.
  unfold polynomial_mul_other. intros (e & σ1 & [_ ->]%lift_opt_inv & H)%bind_inv.
  destruct (decide _) as [?|?]; [right; by eapply gr_poly_mul_scalar_inv|].
  apply bind_inv in H as (same & σ1 & [_ ->]%lift_opt_inv & H).
  destruct same; [by eapply polynomial_mul_frame|].
  eapply (mul_through_temporary_frame (λ t, polynomial_mul L G res poly t ctx) res);
    [|exact H].
  intros ????. apply polynomial_mul_frame.
Qed.

Lemma polynomial_other_mul_frame res poly x x_ctx ctx st σ σ' :
  polynomial_other_mul L G res x x_ctx poly ctx σ = Some (st, σ') → changed_at_most res σ σ'.
Proof.
  unfold polynomial_other_mul. intros (e & σ1 & [_ ->]%lift_opt_inv & H)%bind_inv.
  destruct (decide _) as [?|?]; [right; by eapply gr_poly_scalar_mul_inv|].
  apply bind_inv in H as (same & σ1 & [_ ->]%lift_opt_inv & H).
  destruct same; [by eapply polynomial_mul_frame|].
  eapply (mul_through_temporary_frame (λ t, polynomial_mul L G res t poly ctx) res);
    [|exact H].
  intros ????. apply polynomial_mul_frame.
Qed.


Lemma gr_poly_is_zero_inv p c t σ σ' : gr_poly_is_zero L p c σ = Some (t, σ') → σ' = σ.
Proof.
  unfold gr_poly_is_zero. intros (v & σ1 & [_ ->]%read_poly_inv & H)%bind_inv.
  by apply ret_inv in H as [_ ->].
Qed.

(** The long division with a temporary remainder: the quotient stays in
    [res]. *)
Lemma quotient_kept res σ (q rr oq : list (E L)) :
  <[fresh (dom σ) := CPoly []]> σ !! res = Some (CPoly oq) →
  changed_at_most res σ
    (delete (fresh (dom σ))
       (<[fresh (dom σ) := CPoly rr]> (<[res := CPoly q]> (<[fresh (dom σ) := CPoly []]> σ)))).
Proof.
  intros Hq. apply (temporary_released _ _ _ (CPoly rr)).
  destruct (decide (res = fresh (dom σ))) as [->|Hne].
  - left. by rewrite !insert_insert_eq.
  - right. rewrite lookup_insert_ne in Hq by done. exists oq, q.
    split; [by rewrite lookup_insert_ne|].
    rewrite (insert_insert_ne _ res), insert_insert_eq by done.
    by rewrite insert_insert_ne.
Qed.

(** The long division with a temporary quotient: the remainder stays in
    [res]. *)
Lemma remainder_kept res σ (q rr or : list (E L)) :
  <[fresh (dom σ) := CPoly q]> (<[fresh (dom σ) := CPoly []]> σ) !! res = Some (CPoly or) →
  changed_at_most res σ
    (delete (fresh (dom σ))
       (<[res := CPoly rr]> (<[fresh (dom σ) := CPoly q]> (<[fresh (dom σ) := CPoly []]> σ)))).
Proof.
  rewrite insert_insert_eq. intros Hr. apply (temporary_released _ _ _ (CPoly q)).
  right. eauto.
Qed.

Lemma polynomial_euclidean_div_frame res x y ctx st σ σ' :
  polynomial_euclidean_div L G res x y ctx σ = Some (st, σ') → changed_at_most res σ σ'.
Proof.
  unfold polynomial_euclidean_div. intros (e & σ1 & [_ ->]%lift_opt_inv & H)%bind_inv.
  apply bind_inv in H as (r & σ1 & [-> ->]%alloc_inv & H).
  apply bind_inv in H as (s1 & σ2 & (oq & q & rr & Hq & -> & _)%gr_poly_divrem_inv & H).
  apply bind_inv in H as (u & σ3 & ->%gr_poly_clear_inv & H).
  apply ret_inv in H as [_ ->]. by eapply quotient_kept.
Qed.

Lemma polynomial_euclidean_rem_frame res x y ctx st σ σ' :
  polynomial_euclidean_rem L G res x y ctx σ = Some (st, σ') → changed_at_most res σ σ'.
Proof.
  unfold polynomial_euclidean_rem. intros (e & σ1 & [_ ->]%lift_opt_inv & H)%bind_inv.
  apply bind_inv in H as (r & σ1 & [-> ->]%alloc_inv & H).
  apply bind_inv in H as (s1 & σ2 & (oq & q & rr & _ & -> & or & Hr)%gr_poly_divrem_inv & H).
  apply bind_inv in H as (u & σ3 & ->%gr_poly_clear_inv & H).
  apply ret_inv in H as [_ ->]. by eapply remainder_kept.
Qed.

Lemma polynomial_div_frame res x y ctx st σ σ' :
  polynomial_div L G res x y ctx σ = Some (st, σ') → changed_at_most res σ σ'.
Proof.
  unfold polynomial_div. intros (e & σ1 & [_ ->]%lift_opt_inv & H)%bind_inv.
  apply bind_inv in H as (ylen & σ1 & ->%poly_length_inv & H).
  destruct (decide (ylen = 1)) as [?|?].
  - destruct (decide (res = y)) as [->|?]; [|right; by eapply gr_poly_div_scalar_inv].
    cbv zeta in H.
    apply bind_inv in H as (t & σ1 & [-> ->]%alloc_inv & H).
    apply bind_inv in H as (s1 & σ2 & Hset & H).
    unfold gr_set in Hset.
    apply bind_inv in Hset as (v & σ1 & ->%deref_scalar_inv & Hset).
    apply bind_inv in Hset as (held & σ1 & [_ ->]%read_elem_inv & Hset).
    apply bind_inv in Hset as (u & σ1 & [_ ->]%write_elem_inv & Hset).
    apply ret_inv in Hset as [_ ->]. rewrite insert_insert_eq in H.
    apply bind_inv in H as (s2 & σ3 & Hdiv%gr_poly_div_scalar_inv & H).
    unfold GR_TMP_CLEAR in H.
    apply bind_inv in H as (u' & σ4 & Hclear & H).
    apply bind_inv in Hclear as (w & σ5 & [_ ->]%read_elem_inv & Hfree).
    unfold free in Hfree. injection Hfree as _ <-.
    apply ret_inv in H as [_ ->].
    eapply temporary_released. right. exact Hdiv.
  - apply bind_inv in H as (r & σ1 & [-> ->]%alloc_inv & H).
    apply bind_inv in H as (s1 & σ2 & (oq & q & rr & Hq & -> & _)%gr_poly_divrem_inv & H).
    apply bind_inv in H as (s2 & σ3 & Hbranch & H).
    assert (σ3 = <[fresh (dom σ) := CPoly rr]>
                   (<[res := CPoly q]> (<[fresh (dom σ) := CPoly []]> σ))) as ->.
    { destruct (decide (s1 = GR_SUCCESS)) as [?|?].
      - apply bind_inv in Hbranch as (z & σ4 & ->%gr_poly_is_zero_inv & Hbranch).
        cbv zeta in Hbranch. by apply ret_inv in Hbranch as [_ ->].
      - by apply ret_inv in Hbranch as [_ ->]. }
    apply bind_inv in H as (u & σ4 & ->%gr_poly_clear_inv & H).
    apply ret_inv in H as [_ ->]. by eapply quotient_kept.
Qed.

End frame.

(** X13.  Whenever one of the operations that work through a temporary
    object returns (the coercion [polynomial_set_other], the products
    [polynomial_mul], [polynomial_mul_other], [polynomial_other_mul], the
    divisions [polynomial_div], [polynomial_euclidean_div],
    [polynomial_euclidean_rem]), the store is as before the call or differs
    in the polynomial [res] alone: no operand that is not [res] is written,
    and every temporary polynomial or element has been released.  This holds
    for every call that returns, also when [res] is one of the operands. *)
Theorem operations_change_at_most_their_result (L : gr_lib) (G : ctx_store)
    (res : ptr) (ctx : gr_ctx_t) (st : status) (σ σ' : heap L) :
  (∀ x x_ctx, polynomial_set_other L G res x x_ctx ctx σ = Some (st, σ') →
     changed_at_most res σ σ')
  ∧ (∀ poly1 poly2, polynomial_mul L G res poly1 poly2 ctx σ = Some (st, σ') →
     changed_at_most res σ σ')
  ∧ (∀ poly x x_ctx, polynomial_mul_other L G res poly x x_ctx ctx σ = Some (st, σ') →
     changed_at_most res σ σ')
  ∧ (∀ poly x x_ctx, polynomial_other_mul L G res x x_ctx poly ctx σ = Some (st, σ') →
     changed_at_most res σ σ')
  ∧ (∀ x y, polynomial_div L G res x y ctx σ = Some (st, σ') → changed_at_most res σ σ')
  ∧ (∀ x y, polynomial_euclidean_div L G res x y ctx σ = Some (st, σ') →
     changed_at_most res σ σ')
  ∧ (∀ x y, polynomial_euclidean_rem L G res x y ctx σ = Some (st, σ') →
     changed_at_most res σ σ').
Proof.
  split; [|split; [|split; [|split; [|split; [|split]]]]].
  - intros x x_ctx H. right. by eapply polynomial_set_other_writes_res.
  - intros poly1 poly2. apply polynomial_mul_frame.
  - intros poly x x_ctx. apply polynomial_mul_other_frame.
  - intros poly x x_ctx. apply polynomial_other_mul_frame.
  - intros x y. apply polynomial_div_frame.
  - intros x y. apply polynomial_euclidean_div_frame.
  - intros x y. apply polynomial_euclidean_rem_frame.
Qed.

(** Over the integers: [2 x] divided by [2] in place, the divisor being the
    result; and [x + 1] times the rational 5, coerced through a temporary. *)
Lemma operations_change_at_most_their_result_witness :
  changed_at_most (L := FmpzLib.lib) Sample.two Sample.objects
    (<[Sample.two := CPoly [0; 1]]> Sample.objects)
  ∧ changed_at_most (L := FmpzLib.lib) Sample.result Sample.objects
      (<[Sample.result := CPoly [5; 5]]> Sample.objects).
Proof.
  split.
  - destruct (operations_change_at_most_their_result FmpzLib.lib Sample.contexts
                Sample.two Sample.ZZx GR_SUCCESS Sample.objects
                (<[Sample.two := CPoly [0; 1]]> Sample.objects))
      as (_ & _ & _ & _ & H & _).
    apply (H Sample.two_x Sample.two). by vm_compute.
  - destruct (operations_change_at_most_their_result FmpzLib.lib Sample.contexts
                Sample.result Sample.ZZx GR_SUCCESS Sample.objects
                (<[Sample.result := CPoly [5; 5]]> Sample.objects))
      as (_ & _ & H & _).
    apply (H Sample.x_plus_1 Sample.five Sample.QQ). by vm_compute.
Defined.

(** ** The memory of the generator name *)

Lemma name_memory_step h0 moved s st :
  NameMemory.owns h0 st →
  ∃ a, h0 !! a = None
       ∧ NameMemory._gr_gr_poly_ctx_set_gen_name moved s st
         = Some (GR_SUCCESS, NameMemory.mk_name_state (NameMemory.to_block a) (<[a := s]> h0)).
Proof.
  assert (Z.to_nat (strlen s + 1 - 1) = String.length s) as Hlen by (unfold strlen; lia).
  intros [[Hv Hh]|(a & old & Hv & Ha & Hh)];
    unfold NameMemory._gr_gr_poly_ctx_set_gen_name; rewrite Hv, Hh.
  - exists (fresh (dom h0)). split; [apply not_elem_of_dom, is_fresh|].
    simpl. rewrite lookup_insert_eq. simpl.
    by rewrite Hlen, substring_whole, insert_insert_eq.
  - rewrite decide_False by done. simpl. rewrite lookup_insert_eq. simpl.
    destruct moved; simpl.
    + rewrite delete_insert_eq, delete_id by done.
      exists (fresh (dom (<[a := old]> h0))). split.
      * assert (fresh (dom (<[a := old]> h0)) ∉ dom (<[a := old]> h0)) as Hf by apply is_fresh.
        apply not_elem_of_dom in Hf.
        destruct (decide (fresh (dom (<[a := old]> h0)) = a)) as [Heq|Hne].
        -- rewrite Heq in Hf. by rewrite lookup_insert_eq in Hf.
        -- by rewrite lookup_insert_ne in Hf.
      * rewrite lookup_insert_eq. simpl.
        by rewrite Hlen, substring_whole, insert_insert_eq.
    + exists a. split; [done|]. rewrite lookup_insert_eq. simpl.
      by rewrite Hlen, substring_whole, !insert_insert_eq.
Qed.

Lemma name_memory_run h0 renames : ∀ st,
  NameMemory.owns h0 st →
  ∃ st', NameMemory.set_gen_name_in_turn renames st = Some st'
         ∧ NameMemory.owns h0 st'
         ∧ match last renames with
           | Some (s, _) =>
               ∃ a, NameMemory.var_field st' = NameMemory.to_block a
                    ∧ NameMemory.alive st' !! a = Some s
           | None => st' = st
           end.
Proof.
  induction renames as [|[s moved] renames IH]; intros st Hst.
  - exists st. by repeat split.
  - cbn [NameMemory.set_gen_name_in_turn].
    destruct (name_memory_step h0 moved s st Hst) as (a & Ha & ->).
    cbn [mbind option_bind snd].
    assert (NameMemory.owns h0 (NameMemory.mk_name_state (NameMemory.to_block a) (<[a := s]> h0)))
      as Hst' by (right; by exists a, s).
    destruct (IH _ Hst') as (st' & Hrun & Hown & Hlast).
    exists st'. split; [done|]. split; [done|].
    destruct renames as [|r renames].
    + simpl in *. subst st'. exists a. simpl. split; [done|]. apply lookup_insert_eq.
    + rewrite last_cons_cons.
      destruct (last (r :: renames)) as [[s' ?]|] eqn:Hl; [done|].
      by apply last_None in Hl.
Qed.

(** X14.  The heap blocks of the generator name, from the construction of a
    context to its destruction, whatever names are given in between and
    wherever [flint_realloc] puts the block at each call: every call is
    defined (neither [flint_realloc] nor [flint_free] is ever given the
    static default string or a block that is not alive); between two calls
    the context owns at most one block, which holds the last name given; and
    after [polynomial_ctx_clear] the heap is exactly the heap at the
    construction: no block is left behind and none of the others is
    touched. *)
Theorem generator_name_memory_is_balanced (h0 : NameMemory.blocks)
    (renames : list (string * bool)) :
  ∃ st,
    NameMemory.set_gen_name_in_turn renames (NameMemory.gr_ctx_init_gr_poly h0) = Some st
    ∧ NameMemory.owns h0 st
    ∧ match last renames with
      | Some (s, _) =>
          ∃ a, NameMemory.var_field st = NameMemory.to_block a
               ∧ NameMemory.alive st !! a = Some s
      | None => NameMemory.var_field st = NameMemory.to_default
      end
    ∧ NameMemory.polynomial_ctx_clear st = Some h0.
Proof.
  assert (NameMemory.owns h0 (NameMemory.gr_ctx_init_gr_poly h0)) as H0 by (by left).
  destruct (name_memory_run h0 renames _ H0) as (st & Hrun & Hown & Hlast).
  exists st. split; [done|]. split; [done|]. split.
  - destruct (last renames) as [[s ?]|]; [done|by subst st].
  - unfold NameMemory.polynomial_ctx_clear.
    destruct Hown as [[Hv Hh]|(a & s & Hv & Ha & Hh)]; rewrite Hv, Hh.
    + by rewrite decide_False by (by intros []).
    + rewrite decide_True by done. simpl. rewrite lookup_insert_eq. simpl.
      by rewrite delete_insert_eq, delete_id.
Qed.
